(** * wavegraph: graph assembly and topological ordering

    Shallow embedding of [wavegraph/tfcluster.py] (the grid and its
    constructor, grid points and their coordinate conversions, clusters and
    their conversion to arrays of records, the time-zero shift) and of
    [wavegraph/graph.py] (graph construction, topological sorting, the
    serialiser, span), and the properties of the specification and of the
    code checked against it.

    Conventions of the embedding:
    - Python integers are [Z]; the time scales and the times computed from
      them are IEEE 754 double-precision numbers ([float64]), every
      operation on them rounding as the hardware does; cluster values and
      their statistics, which the code only stores and hands to numpy, are
      rationals [Q];
    - a Python [dict] is a [gmap], a Python [set] is a [gset];
    - the iteration order of a Python [set] is unspecified: it is a
      parameter ([set_order]) and every result holds for all orders;
    - exceptions are values of [exn] (and of [exception], which adds the
      two that only the serialiser and the coordinate conversions raise),
      carried by the [result] and [outcome] monads;
    - Python's recursion limit and the rendering of numbers as text are
      not modelled.

    The file has two parts: the model and the vocabulary of the
    statements, then the lemmas and theorems. *)

From Stdlib Require Import ZArith QArith Qround Qpower Lqa SpecFloat.
From stdpp Require Import gmap strings list fin_maps relations.

Local Open Scope Z_scope.
Set Warnings "-clear-no-such-hyp".

(** ** Exceptions *)

Inductive exn : Set :=
  | UnboundLocalError   (* a local variable is read before any assignment *)
  | ValueError          (* max() / min() of an empty sequence, int() of a NaN *)
  | IndexError          (* index out of the bounds of an array *)
  | OverflowError       (* int() of an infinite float, an integer too large
                           for a float or for a 64-bit array *)
  | TypeError.          (* wrong index type, missing argument *)

Inductive result (A : Type) : Type :=
  | Ok (a : A)
  | Raise (e : exn)
  | OutOfFuel.          (* the model ran out of fuel; never a Python outcome *)
Arguments Ok {A} a.
Arguments Raise {A} e.
Arguments OutOfFuel {A}.

#[global] Instance result_ret : MRet result := λ A a, Ok a.
#[global] Instance result_bind : MBind result := λ A B k m,
  match m with
  | Ok a => k a
  | Raise e => Raise e
  | OutOfFuel => OutOfFuel
  end.
#[global] Instance result_fmap : FMap result := λ A B f m,
  match m with
  | Ok a => Ok (f a)
  | Raise e => Raise e
  | OutOfFuel => OutOfFuel
  end.

(** [[f(x) for x in l]] where [f] may raise: the first exception wins. *)
Fixpoint mapM {A B} (f : A → result B) (l : list A) : result (list B) :=
  match l with
  | [] => Ok []
  | a :: l' => b ← f a; bs ← mapM f l'; Ok (b :: bs)
  end.

(** ** Floating-point numbers

    [numpy.float64] and Python's [float] are IEEE 754 double-precision
    numbers: the [spec_float]s of the Standard Library's specification of
    floating-point arithmetic, at precision 53 and maximal exponent 1024.
    Multiplication, division and addition round to nearest, ties to even;
    a division by zero gives an infinity or a NaN (numpy warns and does not
    raise). *)
Definition float64 : Set := spec_float.

#[global] Instance float64_eq_dec : EqDecision float64.
Proof. solve_decision. Defined.

Definition float_mul : float64 → float64 → float64 := SFmul 53 1024.
Definition float_truediv : float64 → float64 → float64 := SFdiv 53 1024.
Definition float_add : float64 → float64 → float64 := SFadd 53 1024.
Definition float_lt : float64 → float64 → bool := SFltb.
Definition float_le : float64 → float64 → bool := SFleb.
Definition float_eq : float64 → float64 → bool := SFeqb.

(** The double nearest to an integer (an infinity when the integer lies
    beyond the largest double). *)
Definition float_of_Z (z : Z) : float64 := binary_normalize 53 1024 z 0 false.

(** A Python integer as an operand of a float operation is converted to
    the nearest double; an integer beyond the range of the doubles raises
    [OverflowError]. *)
Definition float_of_int (z : Z) : result float64 :=
  match float_of_Z z with
  | S754_infinity _ => Raise OverflowError
  | x => Ok x
  end.

(** [numpy.floor(x)]: the greatest whole number not above [x], which is a
    double; infinities, NaN and the zeros are returned as they are. *)
Definition numpy_floor (x : float64) : float64 :=
  match x with
  | S754_finite s m e =>
      if e <? 0 then float_of_Z (cond_Zopp s (Zpos m) / 2 ^ (- e)) else x
  | _ => x
  end.

(** [int(x)] on a float truncates toward zero; it refuses the infinities
    ([OverflowError]) and NaN ([ValueError]). *)
Definition py_int (x : float64) : result Z :=
  match x with
  | S754_zero _ => Ok 0
  | S754_finite s m e =>
      Ok (if e <? 0 then Z.quot (cond_Zopp s (Zpos m)) (2 ^ (- e))
          else cond_Zopp s (Zpos m) * 2 ^ e)
  | S754_infinity _ => Raise OverflowError
  | S754_nan => Raise ValueError
  end.

(** ** tfcluster.py: GridPoint, Cluster, grid *)

(** [GridPoint = namedtuple('GridPoint', 'scale_index time_index freq_index')]:
    equality and hashing are those of the triple. *)
Record GridPoint : Set := mkGridPoint {
  scale_index : Z;
  time_index : Z;
  freq_index : Z
}.

#[global] Instance GridPoint_eq_dec : EqDecision GridPoint.
Proof. solve_decision. Defined.

#[global] Instance GridPoint_countable : Countable GridPoint.
Proof.
  refine (inj_countable'
    (λ p, (scale_index p, time_index p, freq_index p))
    (λ t, mkGridPoint t.1.1 t.1.2 t.2) _).
  by intros [].
Defined.

(** [grid_point._replace(time_index=t)] *)
Definition replace_time_index (p : GridPoint) (t : Z) : GridPoint :=
  mkGridPoint (scale_index p) t (freq_index p).

(** [Cluster]: the named tuple [(grid_points, values)] with the attribute
    [metadata]. *)
Record Cluster : Type := mkCluster {
  grid_points : list GridPoint;
  values : list Q;
  metadata : string
}.

(** [CoherentWaveBurstGrid]: only the attributes read by the graph code. *)
Record CoherentWaveBurstGrid : Type := mkGrid {
  sampling_freq : float64;
  timescales_exp : list Z;
  timescales : list float64
}.

(** [Cluster.__new__(cls, grid_points, values, metadata)].  All three
    arguments are required; a call that leaves [metadata] out is a
    [TypeError].  Nothing else is checked: the two sequences are stored as
    they are. *)
Definition Cluster_new (grid_points : list GridPoint) (values : list Q)
    (metadata : option string) : result Cluster :=
  match metadata with
  | Some md => Ok (mkCluster grid_points values md)
  | None => Raise TypeError
  end.

(** ** graph.py: the Graph object *)

(** [GraphInfo = namedtuple('GraphNodeInfo', 'value_avg value_stdev')] *)
Record GraphInfo : Type := mkGraphInfo {
  value_avg : Q;
  value_stdev : Q
}.

Record Graph : Type := mkGraph {
  graph : gmap GridPoint (gset GridPoint);
  point_info : gmap GridPoint GraphInfo;
  head_nodes : gset GridPoint;
  sorted_list : list GridPoint
}.

(** The state of the loop over the clusters in [Graph.__init__]:
    the three containers and the local variable [node], which is unbound
    ([None]) until the inner loop over adjacent pairs assigns it. *)
Record build_state : Type := mkState {
  st_graph : gmap GridPoint (gset GridPoint);
  st_values : gmap GridPoint (list Q);
  st_head_nodes : gset GridPoint;
  st_node : option GridPoint
}.

Definition init_state : build_state := mkState ∅ ∅ ∅ None.

(** [izip(cluster_points[:-1], cluster_points[1:])] *)
Definition adjacent_pairs (pts : list GridPoint) : list (GridPoint * GridPoint) :=
  zip (removelast pts) (tail pts).

(** [self.graph[node].add(ancestor)] on a [defaultdict(set)] *)
Definition add_ancestor (g : gmap GridPoint (gset GridPoint))
    (ancestor node : GridPoint) : gmap GridPoint (gset GridPoint) :=
  <[node := default ∅ (g !! node) ∪ {[ancestor]}]> g.

(** [values[grid_point].append(value)] on a [defaultdict(list)] *)
Definition append_value (vs : gmap GridPoint (list Q))
    (grid_point : GridPoint) (value : Q) : gmap GridPoint (list Q) :=
  <[grid_point := default [] (vs !! grid_point) ++ [value]]> vs.

(** The loop [for (ancestor, node) in izip(...)]: it updates the graph and
    leaves the last pair's [node] in the local variable. *)
Definition pairs_loop (pairs : list (GridPoint * GridPoint))
    (g : gmap GridPoint (gset GridPoint)) (node : option GridPoint)
    : gmap GridPoint (gset GridPoint) * option GridPoint :=
  fold_left (λ acc an, (add_ancestor acc.1 an.1 an.2, Some an.2)) pairs (g, node).

(** The loop [for (grid_point, value) in izip(cluster_points, cluster.values)] *)
Definition values_loop (pvs : list (GridPoint * Q))
    (vs : gmap GridPoint (list Q)) : gmap GridPoint (list Q) :=
  fold_left (λ acc pv, append_value acc pv.1 pv.2) pvs vs.

(** The body of [for cluster in clusters] *)
Definition build_cluster (st : build_state) (cluster : Cluster) : result build_state :=
  let cluster_points := grid_points cluster in
  match cluster_points with
  | [] => Ok st                                        (* continue *)
  | first :: _ =>
      let g0 := <[first := ∅]> (st_graph st) in        (* self.graph[cluster_points[0]] = set() *)
      let '(g1, node) := pairs_loop (adjacent_pairs cluster_points) g0 (st_node st) in
      let vs := values_loop (zip cluster_points (values cluster)) (st_values st) in
      match node with
      | None => Raise UnboundLocalError                (* self.head_nodes.add(node) *)
      | Some n => Ok (mkState g1 vs (st_head_nodes st ∪ {[n]}) node)
      end
  end.

Fixpoint build_clusters (st : build_state) (clusters : list Cluster) : result build_state :=
  match clusters with
  | [] => Ok st
  | c :: cs => st' ← build_cluster st c; build_clusters st' cs
  end.

(** ** Iteration order of Python sets

    [for x in s] and [s.pop()] visit a [set] in an order that Python leaves
    unspecified.  An order is any function that lists the elements of a set
    once each. *)
Record set_order : Type := mkOrder {
  iter :> gset GridPoint → list GridPoint;
  iter_perm : ∀ s, iter s ≡ₚ elements s
}.

Definition elements_order : set_order := mkOrder elements (λ _, reflexivity _).

(** [reversed_order] lists every set the other way round. *)
Program Definition reversed_order : set_order :=
  mkOrder (λ s, reverse (elements s)) _.
Next Obligation. intros s. apply reverse_Permutation. Qed.

(** ** graph.py: [Graph._topological_sorting] *)

Section topological_sorting.
Context (order : set_order) (g : gmap GridPoint (gset GridPoint)).

(** [self.graph[node]] *)
Definition ancestors_of (node : GridPoint) : gset GridPoint :=
  default ∅ (g !! node).

(** The loop [for ancestor in self.graph[node]] of [sorted_ancestors],
    with the recursive call abstracted as [visit].  The closure variable
    [nodes_unvisited] is threaded through. *)
Fixpoint ancestors_loop
    (visit : GridPoint → gset GridPoint → result (list GridPoint * gset GridPoint))
    (ancestors : list GridPoint) (res : list GridPoint)
    (nodes_unvisited : gset GridPoint)
    : result (list GridPoint * gset GridPoint) :=
  match ancestors with
  | [] => Ok (res, nodes_unvisited)
  | ancestor :: rest =>
      if decide (ancestor ∈ nodes_unvisited) then
        (* nodes_unvisited.remove(ancestor) succeeded *)
        '(r, unvisited') ← visit ancestor (nodes_unvisited ∖ {[ancestor]});
        ancestors_loop visit rest (res ++ r) unvisited'
      else
        (* KeyError: pass *)
        ancestors_loop visit rest res nodes_unvisited
  end.

(** [sorted_ancestors(node)]; [fuel] bounds the depth of the recursion. *)
Fixpoint sorted_ancestors (fuel : nat) (node : GridPoint)
    (nodes_unvisited : gset GridPoint)
    : result (list GridPoint * gset GridPoint) :=
  match fuel with
  | O => OutOfFuel
  | S fuel' =>
      '(res, unvisited') ←
        ancestors_loop (sorted_ancestors fuel')
          (order (ancestors_of node)) [] nodes_unvisited;
      Ok (res ++ [node], unvisited')
  end.

(** [while nodes_unvisited: sorted_nodes.extend(sorted_ancestors(nodes_unvisited.pop()))] *)
Fixpoint sort_loop (fuel : nat) (nodes_unvisited : gset GridPoint)
    (sorted_nodes : list GridPoint) : result (list GridPoint) :=
  match order nodes_unvisited with
  | [] => Ok sorted_nodes
  | node :: _ =>
      match fuel with
      | O => OutOfFuel
      | S fuel' =>
          '(r, unvisited') ←
            sorted_ancestors fuel node (nodes_unvisited ∖ {[node]});
          sort_loop fuel' unvisited' (sorted_nodes ++ r)
      end
  end.

Definition _topological_sorting : result (list GridPoint) :=
  sort_loop (size (dom g)) (dom g) [].
End topological_sorting.

(** ** graph.py: [Graph.__init__] *)

Section graph.
(** The iteration order of sets and numpy's [mean] and [std] (with its
    default [ddof=0], the population standard deviation) are parameters. *)
Context (order : set_order) (numpy_mean numpy_std : list Q → Q).

Definition Graph_init (clusters : list Cluster) : result Graph :=
  st ← build_clusters init_state clusters;
  let point_info :=
    (λ vs, mkGraphInfo (numpy_mean vs) (numpy_std vs)) <$> st_values st in
  sorted ← _topological_sorting order (st_graph st);
  Ok (mkGraph (st_graph st) point_info (st_head_nodes st) sorted).
End graph.

(** ** Specification vocabulary *)

(** The ancestor edges of a graph: [anc_edge g a n] when [a ∈ g[n]]. *)
Definition anc_edge (g : gmap GridPoint (gset GridPoint)) : relation GridPoint :=
  λ a n, a ∈ ancestors_of g n.

(** The unioned adjacent-pair edges of a batch of clusters. *)
Definition cluster_edge (clusters : list Cluster) : relation GridPoint :=
  λ a n, ∃ c, c ∈ clusters ∧ (a, n) ∈ adjacent_pairs (grid_points c).

Definition acyclic (E : relation GridPoint) : Prop := ∀ x, ¬ tc E x x.
Definition cyclic (E : relation GridPoint) : Prop := ∃ x, tc E x x.

(** [l] is a topological order for [E]: whenever [n] is in [l], every [a]
    with [E a n] occurs in [l] at an earlier position. *)
Definition topological_order (E : relation GridPoint) (l : list GridPoint) : Prop :=
  ∀ j n a, l !! j = Some n → E a n → ∃ i, (i < j)%nat ∧ l !! i = Some a.

(** [l] lists the keys of [g] exactly once each. *)
Definition lists_nodes_once (g : gmap GridPoint (gset GridPoint))
    (l : list GridPoint) : Prop :=
  NoDup l ∧ (∀ x, x ∈ l ↔ x ∈ dom g) ∧ length l = size (dom g).

(** Every ancestor is itself a key of the map. *)
Definition ancestors_closed (g : gmap GridPoint (gset GridPoint)) : Prop :=
  ∀ a n, anc_edge g a n → a ∈ dom g.

(** Auxiliary notions for the proofs about the sort. *)

(** What a call [visit a U] returns: the nodes it emits are [a] and the
    nodes it removed from [U], once each. *)
Definition emits (a : GridPoint) (U : gset GridPoint)
    (out : list GridPoint * gset GridPoint) : Prop :=
  out.2 ⊆ U ∧ NoDup out.1 ∧ ∀ x, x ∈ out.1 ↔ x = a ∨ (x ∈ U ∧ x ∉ out.2).

Definition visit_total
    (visit : GridPoint → gset GridPoint → result (list GridPoint * gset GridPoint))
    (bound : nat) : Prop :=
  ∀ a U, (size U < bound)%nat → a ∉ U → ∃ out, visit a U = Ok out ∧ emits a U out.

(** [topo_from g seen l]: every node of [l] has all its ancestors among
    [seen] or earlier in [l]. *)
Fixpoint topo_from (g : gmap GridPoint (gset GridPoint))
    (seen : GridPoint → Prop) (l : list GridPoint) : Prop :=
  match l with
  | [] => True
  | x :: l' => (∀ b, anc_edge g b x → seen b) ∧ topo_from g (λ b, seen b ∨ b = x) l'
  end.

(** What a call [visit a U] returns on an acyclic map, besides [emits]:
    only iterated ancestors of [a], each after its own ancestors. *)
Definition visit_ordered (g : gmap GridPoint (gset GridPoint))
    (visit : GridPoint → gset GridPoint → result (list GridPoint * gset GridPoint))
    (bound : nat) : Prop :=
  ∀ a U r U', (size U < bound)%nat → a ∉ U → visit a U = Ok (r, U') →
    (∀ x, x ∈ r → rtc (anc_edge g) x a)
    ∧ topo_from g (λ b, (b ∉ U) ∧ b ≠ a) r.

(** The values that point [P] receives from a batch: the values paired with
    the occurrences of [P], cluster after cluster, in order. *)
Definition received_in (P : GridPoint) (pvs : list (GridPoint * Q)) : list Q :=
  (filter (λ pv, pv.1 = P) pvs).*2.

Definition received_values (clusters : list Cluster) (P : GridPoint) : list Q :=
  clusters ≫= (λ c, received_in P (zip (grid_points c) (values c))).

(** ** Concrete data for worked examples *)

(** A rational stand-in for numpy on examples: the exact mean, and the
    population standard deviation with numerator and denominator of the
    variance rounded down to a square. *)
Definition Qsum (l : list Q) : Q := foldr Qplus 0%Q l.
Definition Qmean (l : list Q) : Q := (Qsum l / inject_Z (Z.of_nat (length l)))%Q.
Definition Qvariance (l : list Q) : Q :=
  Qmean ((λ v, (v - Qmean l) * (v - Qmean l))%Q <$> l).
Definition Qstd (l : list Q) : Q :=
  let v := Qred (Qvariance l) in
  (Z.sqrt (Qnum v) # Pos.sqrt (Qden v))%Q.

Definition pA : GridPoint := mkGridPoint 0 0 1.
Definition pB : GridPoint := mkGridPoint 0 1 1.
Definition pC : GridPoint := mkGridPoint 0 2 2.
Definition pD : GridPoint := mkGridPoint 0 3 3.

Definition cluster_AB : Cluster := mkCluster [pA; pB] [1; 2]%Q "cluster1".
Definition cluster_BA : Cluster := mkCluster [pB; pA] [3; 4]%Q "cluster2".
Definition cluster_BC : Cluster := mkCluster [pB; pC] [3; 4]%Q "cluster2".
Definition cluster_ABA : Cluster := mkCluster [pA; pB; pA] [1; 2; 3]%Q "loop".
Definition cluster_ABC : Cluster := mkCluster [pA; pB; pC] [1; 2; 3]%Q "cluster1".
Definition cluster_ABD : Cluster := mkCluster [pA; pB; pD] [5; 6; 7]%Q "cluster2".

(** [extend o r]: the entry of a [defaultdict(list)] after appending the
    values [r] to the entry [o]. *)
Definition extend (o : option (list Q)) (r : list Q) : option (list Q) :=
  match r with
  | [] => o
  | _ => Some (default [] o ++ r)
  end.

Definition cluster_short : Cluster := mkCluster [pA; pB] [1]%Q "short".
Definition cluster_long : Cluster := mkCluster [pA; pB] [1; 2; 3]%Q "long".

(** ** Numeric helpers of Python and numpy *)

(** [a[i]] on a one-dimensional numpy array: a negative index counts from
    the end, an index out of range raises. *)
Definition numpy_getitem (a : list float64) (i : Z) : result float64 :=
  let n := Z.of_nat (length a) in
  let k := if i <? 0 then n + i else i in
  if (0 <=? k) && (k <? n)
  then from_option Ok (Raise IndexError) (a !! Z.to_nat k)
  else Raise IndexError.

(** [max] and [min] of a sequence: an element replaces the current
    extremum when it compares strictly beyond it; an empty sequence raises
    [ValueError]. *)
Definition py_max_Z (l : list Z) : result Z :=
  match l with
  | [] => Raise ValueError
  | x :: l' => Ok (fold_left (λ m y, if m <? y then y else m) l' x)
  end.

Definition py_max_float (l : list float64) : result float64 :=
  match l with
  | [] => Raise ValueError
  | x :: l' => Ok (fold_left (λ m y, if float_lt m y then y else m) l' x)
  end.

Definition py_min_float (l : list float64) : result float64 :=
  match l with
  | [] => Raise ValueError
  | x :: l' => Ok (fold_left (λ m y, if float_lt y m then y else m) l' x)
  end.

(** [int(numpy.floor(x / y))] on floats: the quotient is rounded before
    the floor is taken; a zero divisor gives an infinity or a NaN, which
    [int] refuses. *)
Definition floor_div (x y : float64) : result Z :=
  py_int (numpy_floor (float_truediv x y)).

(** [node.time_index * grid.timescales[node.scale_index]]: the index is
    converted to a double and the product is rounded. *)
Definition phys_time (grid : CoherentWaveBurstGrid) (node : GridPoint)
    : result float64 :=
  ts ← numpy_getitem (timescales grid) (scale_index node);
  t ← float_of_int (time_index node);
  Ok (float_mul t ts).

(** ** graph.py: [Graph.span]

    The sum [numpy.floor(...) + 1] is a sum of doubles; [int] is applied to
    it. *)
Definition span (g : Graph) (grid : CoherentWaveBurstGrid) : result Z :=
  scale_index_max ← py_max_Z (scale_index <$> sorted_list g);
  times ← mapM (phys_time grid) (sorted_list g);
  time_max ← py_max_float times;
  ts ← numpy_getitem (timescales grid) scale_index_max;
  py_int (float_add (numpy_floor (float_truediv time_max ts)) (float_of_Z 1)).

(** ** tfcluster.py: [shift_clusters_to_zero_index] *)

(** [for cluster in clusters for node in cluster.grid_points] *)
Definition all_points (clusters : list Cluster) : list GridPoint :=
  clusters ≫= grid_points.

(** The exponent [scale_index_max - grid_point.scale_index] is never
    negative, since [scale_index_max] is the maximum. *)
Definition shift_point (index_shift scale_index_max : Z) (grid_point : GridPoint)
    : GridPoint :=
  replace_time_index grid_point
    (time_index grid_point
     - index_shift * 2 ^ (scale_index_max - scale_index grid_point)).

Definition shift_clusters_to_zero_index (clusters : list Cluster)
    (grid : CoherentWaveBurstGrid) : result (list Cluster) :=
  scale_index_max ← py_max_Z (scale_index <$> all_points clusters);
  times ← mapM (phys_time grid) (all_points clusters);
  time_min ← py_min_float times;
  ts ← numpy_getitem (timescales grid) scale_index_max;
  index_shift_at_scale_max ← floor_div time_min ts;
  mapM (λ cluster,
          Cluster_new
            (shift_point index_shift_at_scale_max scale_index_max
               <$> grid_points cluster)
            (values cluster) (Some (metadata cluster)))
       clusters.

(** ** tfcluster.py: [Cluster.to_numpyarray], [Cluster.reject_pixels_at_zero_freq] *)

(** A row of the structured array: [(scale_index, time_index, freq_index, value)] *)
Record pixel_row : Type := mkRow {
  row_scale_index : Z;
  row_time_index : Z;
  row_freq_index : Z;
  row_value : Q
}.

(** The fields of dtype [int] are 64-bit signed integers. *)
Definition int64 (z : Z) : bool := (- 2 ^ 63 <=? z) && (z <? 2 ^ 63).

Definition point_int64 (p : GridPoint) : bool :=
  int64 (scale_index p) && int64 (time_index p) && int64 (freq_index p).

(** One tuple of [out] stored as a row: an index that does not fit the
    field raises [OverflowError]. *)
Definition to_row (pv : GridPoint * Q) : result pixel_row :=
  if point_int64 pv.1
  then Ok (mkRow (scale_index pv.1) (time_index pv.1) (freq_index pv.1) pv.2)
  else Raise OverflowError.

Definition to_numpyarray (c : Cluster) : result (list pixel_row) :=
  mapM to_row (zip (grid_points c) (values c)).

(** [t[indices]] where [t] is a tuple and [indices] a numpy array of
    booleans: tuples accept integers and slices only. *)
Definition tuple_getitem_array {A} (t : list A) (indices : list bool)
    : result (list A) :=
  Raise TypeError.

Definition reject_pixels_at_zero_freq (self : Cluster) : result Cluster :=
  array ← to_numpyarray self;
  let indices := (λ r, negb (row_freq_index r =? 0)) <$> array in
  pts ← tuple_getitem_array (grid_points self) indices;
  vals ← tuple_getitem_array (values self) indices;
  Cluster_new pts vals None.

(** ** Specification vocabulary for span and shift *)

(** [grid.timescales[i]] for an index of the grid *)
Definition timescale (grid : CoherentWaveBurstGrid) (i : Z) : float64 :=
  nth (Z.to_nat i) (timescales grid) S754_nan.

(** The double that the code computes for the time of a point *)
Definition float_time (grid : CoherentWaveBurstGrid) (p : GridPoint) : float64 :=
  float_mul (float_of_Z (time_index p)) (timescale grid (scale_index p)).

(** The point's [scale_index] is an index into [grid.timescales]. *)
Definition in_grid (grid : CoherentWaveBurstGrid) (p : GridPoint) : Prop :=
  0 ≤ scale_index p < Z.of_nat (length (timescales grid)).

(** A double that is a number: not an infinity, not NaN *)
Definition float_finite (x : float64) : bool :=
  match x with
  | S754_zero _ | S754_finite _ _ _ => true
  | S754_infinity _ | S754_nan => false
  end.

(** Time scales are numbers. *)
Definition grid_finite (grid : CoherentWaveBurstGrid) : Prop :=
  ∀ t, t ∈ timescales grid → float_finite t = true.

(** An integer within the range where its conversion to a double is
    finite. *)
Definition float_convertible (z : Z) : Prop := - 2 ^ 1023 < z < 2 ^ 1023.

Definition is_max_Z (m : Z) (l : list Z) : Prop := m ∈ l ∧ ∀ x, x ∈ l → x ≤ m.
Definition is_max_float (m : float64) (l : list float64) : Prop :=
  m ∈ l ∧ ∀ x, x ∈ l → float_le x m = true.
Definition is_min_float (m : float64) (l : list float64) : Prop :=
  m ∈ l ∧ ∀ x, x ∈ l → float_le m x = true.

(** The rational that a finite double stands for (0 for the others) *)
Definition float_value (x : float64) : Q :=
  match x with
  | S754_finite s m e => (inject_Z (cond_Zopp s (Zpos m)) * 2 ^ e)%Q
  | _ => 0%Q
  end.

(** The exact physical quantities of the grid: a time scale, and the time
    of a point, product of its index and its time scale. *)
Definition timescale_at (grid : CoherentWaveBurstGrid) (i : Z) : Q :=
  float_value (timescale grid i).

Definition time_of (grid : CoherentWaveBurstGrid) (p : GridPoint) : Q :=
  (inject_Z (time_index p) * timescale_at grid (scale_index p))%Q.

(** Time scales are positive numbers. *)
Definition grid_positive (grid : CoherentWaveBurstGrid) : Prop :=
  ∀ t, t ∈ timescales grid → float_finite t = true ∧ (0 < float_value t)%Q.

(** The grid of sampling frequency 1 with the scales 1, 2 and 4 *)
Definition dyadic_grid : CoherentWaveBurstGrid :=
  mkGrid (float_of_Z 1) [0; 1; 2] (float_of_Z <$> [1; 2; 4]).
Definition pE : GridPoint := mkGridPoint 2 3 0.
Definition pF : GridPoint := mkGridPoint 0 5 1.
Definition cluster_EF : Cluster := mkCluster [pF; pE] [1; 2]%Q "late".
Definition cluster_empty : Cluster := mkCluster [] [] "empty".

(** The grid of sampling frequency 3 with the single scale 1/3, which is
    not a double and is rounded, and two points of it *)
Definition third_grid : CoherentWaveBurstGrid :=
  mkGrid (float_of_Z 3) [0] [float_truediv (float_of_Z 1) (float_of_Z 3)].
Definition pG : GridPoint := mkGridPoint 0 6 0.
Definition pH : GridPoint := mkGridPoint 0 7 0.
Definition cluster_GH : Cluster := mkCluster [pG; pH] [1; 2]%Q "thirds".

(** ** Vocabulary for the further properties of [Graph.__init__] *)

(** The first cluster that has a point has exactly one. *)
Fixpoint starts_with_single_point (clusters : list Cluster) : bool :=
  match clusters with
  | [] => false
  | c :: cs =>
      match grid_points c with
      | [] => starts_with_single_point cs
      | [_] => true
      | _ => false
      end
  end.

(** [h] is the last point of a cluster of the batch that has at least two
    points. *)
Definition ends_long_cluster (clusters : list Cluster) (h : GridPoint) : Prop :=
  ∃ c, c ∈ clusters ∧ (2 ≤ length (grid_points c))%nat ∧ last (grid_points c) = Some h.

(** [a] directly precedes [n] in some cluster, and no later cluster of the
    batch starts with [n]. *)
Definition surviving_edge (clusters : list Cluster) (a n : GridPoint) : Prop :=
  ∃ pre c post, clusters = pre ++ c :: post
    ∧ (a, n) ∈ adjacent_pairs (grid_points c)
    ∧ ∀ c', c' ∈ post → head (grid_points c') ≠ Some n.

(** The local variable [node], when bound, is a registered head node. *)
Definition node_is_head (st : build_state) : Prop :=
  ∀ n, st_node st = Some n → n ∈ st_head_nodes st.

(** ** Exceptions of the serialiser and of the coordinate conversions

    [KeyError] and [NameError] join the exceptions of [exn]. *)
Inductive exception : Set :=
  | Builtin (e : exn)
  | KeyError            (* d[k] on a dict without the key k *)
  | NameError.          (* a global name that is not defined *)

Inductive outcome (A : Type) : Type :=
  | Returns (a : A)
  | Raises (e : exception)
  | Exhausted.          (* the model ran out of fuel *)
Arguments Returns {A} a.
Arguments Raises {A} e.
Arguments Exhausted {A}.

#[global] Instance outcome_ret : MRet outcome := λ A a, Returns a.
#[global] Instance outcome_bind : MBind outcome := λ A B k m,
  match m with
  | Returns a => k a
  | Raises e => Raises e
  | Exhausted => Exhausted
  end.

Definition of_result {A} (r : result A) : outcome A :=
  match r with
  | Ok a => Returns a
  | Raise e => Raises (Builtin e)
  | OutOfFuel => Exhausted
  end.

(** [d[k]] on a plain [dict] *)
Definition dict_getitem {V} (d : gmap GridPoint V) (k : GridPoint) : outcome V :=
  match d !! k with
  | Some v => Returns v
  | None => Raises KeyError
  end.

(** [[f(x) for x in l]] in the [outcome] monad *)
Fixpoint mapO {A B} (f : A → outcome B) (l : list A) : outcome (list B) :=
  match l with
  | [] => Returns []
  | a :: l' => b ← f a; bs ← mapO f l'; Returns (b :: bs)
  end.

(** ** tfcluster.py: [GridPoint.phys_coords] *)

(** [a[i]] on a numpy array of integers (as [numpy_getitem]) *)
Definition numpy_getitem_int (a : list Z) (i : Z) : result Z :=
  let n := Z.of_nat (length a) in
  let k := if i <? 0 then n + i else i in
  if (0 <=? k) && (k <? n)
  then from_option Ok (Raise IndexError) (a !! Z.to_nat k)
  else Raise IndexError.

(** The dict [{"scale": ..., "time": ..., "frequency": ...}] *)
Record coords : Type := mkCoords {
  coord_scale : Z;
  coord_time : float64;
  coord_frequency : float64
}.

(** The three entries are evaluated in the order written; each integer
    operand is converted when its operation is reached. *)
Definition phys_coords (self : GridPoint) (grid : CoherentWaveBurstGrid)
    : result coords :=
  scale ← numpy_getitem_int (timescales_exp grid) (scale_index self);
  ts ← numpy_getitem (timescales grid) (scale_index self);
  t ← float_of_int (time_index self);
  let time := float_mul t ts in
  ts' ← numpy_getitem (timescales grid) (scale_index self);
  let two_ts := float_mul (float_of_Z 2) ts' in
  f ← float_of_int (freq_index self);
  Ok (mkCoords scale time (float_truediv f two_ts)).

(** ** graph.py: [Graph.__str__]

    The model stops before the conversion to text: a [node_line] holds the
    fields that [' '.join(map(str, node_info))] and the comment line render,
    in the order of the source. *)
Record node_line : Type := mkLine {
  line_ID : nat;
  line_time_idx : Z;
  line_freq_idx : Z;
  line_scale_idx : Z;
  line_value_avg : Q;
  line_value_stdev : Q;
  line_endnode : Z;
  line_ancestors : list nat;
  line_coords : coords
}.

Section graph_str.
Context (order : set_order) (self : Graph) (grid : CoherentWaveBurstGrid).

(** The loop [for (node_ID, node) in enumerate(self.sorted_list)], with the
    dict [node_IDs] threaded through. *)
Fixpoint str_loop (nodes : list GridPoint) (node_ID : nat)
    (node_IDs : gmap GridPoint nat) : outcome (list node_line) :=
  match nodes with
  | [] => Returns []
  | node :: rest =>
      extra_info ← dict_getitem (point_info self) node;
      let endnode := if decide (node ∈ head_nodes self) then 1 else 0 in
      ancestors ← mapO (dict_getitem node_IDs) (order (ancestors_of (graph self) node));
      xyz ← of_result (phys_coords node grid);
      lines ← str_loop rest (S node_ID) (<[node := node_ID]> node_IDs);
      Returns (mkLine node_ID (time_index node) (freq_index node) (scale_index node)
                 (value_avg extra_info) (value_stdev extra_info)
                 endnode ancestors xyz :: lines)
  end.

Definition Graph_str : outcome (list node_line) :=
  str_loop (sorted_list self) 0 ∅.
End graph_str.

(** The grid's two arrays have the same length and [p] indexes them. *)
Definition in_full_grid (grid : CoherentWaveBurstGrid) (p : GridPoint) : Prop :=
  0 ≤ scale_index p < Z.of_nat (length (timescales grid))
  ∧ 0 ≤ scale_index p < Z.of_nat (length (timescales_exp grid)).

(** The time and frequency indices of [p] convert to doubles. *)
Definition convertible_point (p : GridPoint) : Prop :=
  float_convertible (time_index p) ∧ float_convertible (freq_index p).

(** [line i] describes [node] of a graph: its own fields, its head-node
    flag, and for each ancestor, in iteration order, the ID of an earlier
    line, that of the ancestor. *)
Definition describes (order : set_order) (g : Graph) (i : nat)
    (node : GridPoint) (line : node_line) : Prop :=
  line_ID line = i
  ∧ line_time_idx line = time_index node
  ∧ line_freq_idx line = freq_index node
  ∧ line_scale_idx line = scale_index node
  ∧ (∃ info, point_info g !! node = Some info
       ∧ line_value_avg line = value_avg info
       ∧ line_value_stdev line = value_stdev info)
  ∧ (line_endnode line = 1 ↔ node ∈ head_nodes g)
  ∧ (line_endnode line = 0 ↔ node ∉ head_nodes g)
  ∧ Forall2 (λ k a, (k < i)%nat ∧ sorted_list g !! k = Some a)
      (line_ancestors line) (order (ancestors_of (graph g) node)).

(** [node_IDs] holds the positions of the nodes already written. *)
Definition IDs_of_prefix (node_IDs : gmap GridPoint nat)
    (pre : list GridPoint) : Prop :=
  ∀ a k, node_IDs !! a = Some k → pre !! k = Some a.

(** ** Vocabulary for the order-independence of [span] *)

(** [i] is accepted as an index by an array of length [n]. *)
Definition valid_index (n : nat) (i : Z) : bool :=
  let k := if i <? 0 then Z.of_nat n + i else i in
  (0 <=? k) && (k <? Z.of_nat n).

(** The element that index [i] selects. *)
Definition item_at (a : list float64) (i : Z) : float64 :=
  nth (Z.to_nat (if i <? 0 then Z.of_nat (length a) + i else i)) a S754_nan.

(** ** tfcluster.py: [CoherentWaveBurstGrid.__init__] *)

(** [numpy.arange(start, stop)] on integers *)
Definition arange (start stop : Z) : list Z :=
  (λ k : nat, start + Z.of_nat k) <$> seq 0 (Z.to_nat (stop - start)).

(** The constructor, given [float(sampling_freq)].
    [2**numpy.arange(...)] is an array of 64-bit integers raised to integer
    powers: the model is exact for [0 ≤ min_scale_exp] and
    [max_scale_exp ≤ 62].  Each power is converted to a double (exactly)
    and divided by the sampling frequency, the quotient being rounded.  The
    shortcuts [timescale_max = timescales[-1]] and
    [timescale_min = timescales[0]] are evaluated (and may raise) but are
    not kept in the record. *)
Definition CoherentWaveBurstGrid_init (sampling_freq : float64)
    (min_scale_exp max_scale_exp : Z) : result CoherentWaveBurstGrid :=
  let timescales_exp := arange min_scale_exp (max_scale_exp + 1) in
  let timescales :=
    (λ e, float_truediv (float_of_Z (2 ^ e)) sampling_freq) <$> timescales_exp in
  timescale_max ← numpy_getitem timescales (-1);
  timescale_min ← numpy_getitem timescales 0;
  Ok (mkGrid sampling_freq timescales_exp timescales).

(** A sampling frequency far from overflow and underflow: a positive
    normal double from [2^-960] up to, not including, [2^1022]. *)
Definition ordinary_frequency (fs : float64) : Prop :=
  ∃ (m : positive) (e : Z),
    fs = S754_finite false m e ∧ Zdigits2 (Zpos m) = 53 ∧ -1012 ≤ e ≤ 969.

(** Consecutive time scales differ by a factor two: the scale at index [j]
    is [2^(j-i)] times the scale at index [i]. *)
Definition dyadic (grid : CoherentWaveBurstGrid) : Prop :=
  ∀ i j, 0 ≤ i → i ≤ j → j < Z.of_nat (length (timescales grid)) →
    (timescale_at grid j == inject_Z (2 ^ (j - i)) * timescale_at grid i)%Q.

(** A cluster after the shift of its points *)
Definition shift_cluster (index_shift scale_index_max : Z) (c : Cluster) : Cluster :=
  mkCluster (shift_point index_shift scale_index_max <$> grid_points c)
    (values c) (metadata c).

(** ** tfcluster.py: [Cluster.from_numpyarray]

    The rows of an array hold 64-bit integers. *)
Definition row_int64 (r : pixel_row) : Prop :=
  int64 (row_scale_index r) && int64 (row_time_index r) && int64 (row_freq_index r)
  = true.

Definition from_numpyarray (array : list pixel_row) (metadata : string)
    : result Cluster :=
  Cluster_new
    ((λ p, mkGridPoint (row_scale_index p) (row_time_index p) (row_freq_index p))
       <$> array)
    (row_value <$> array)
    (Some metadata).

(** ** tfcluster.py: [GridPoint.from_phys_coords] *)

(** [numpy.argwhere(a == x)]: the indices of the elements equal to [x]
    as doubles, counted from [i]. *)
Fixpoint argwhere_from (i : Z) (a : list float64) (x : float64) : list Z :=
  match a with
  | [] => []
  | t :: a' =>
      if float_eq t x then i :: argwhere_from (i + 1) a' x
      else argwhere_from (i + 1) a' x
  end.

(** The test [if not scale_index] takes the truth value of the array of
    indices: false when it is empty, that of its element when it has one
    (so index 0 counts as false), an error when it has several.  Past the
    test, the call of [cls] reads the global name [times], which is not
    defined. *)
Definition from_phys_coords (grid : CoherentWaveBurstGrid)
    (timescale time freq : float64) : outcome (option GridPoint) :=
  match argwhere_from 0 (timescales grid) timescale with
  | [] => Returns None
  | [i] => if i =? 0 then Returns None else Raises NameError
  | _ => Raises (Builtin ValueError)
  end.

(** No two scales of the grid are equal. *)
Definition distinct_scales (grid : CoherentWaveBurstGrid) : Prop :=
  ∀ (i j : nat) ti tj, timescales grid !! i = Some ti → timescales grid !! j = Some tj →
    float_eq ti tj = true → i = j.

(** The edges of a single chain of points *)
Definition chain_edge (pts : list GridPoint) : relation GridPoint :=
  λ a n, (a, n) ∈ adjacent_pairs pts.

(** ** Vocabulary for rounding to a double

    Away from underflow, rounding [m * 2^e] to 53 bits does not depend on
    [e]: [round_mantissa m l] is the rounded mantissa (with [l] the
    location of the part already discarded) and the number of bits by which
    the exponent grows. *)
Definition round_mantissa (m : Z) (l : location) : Z * Z :=
  let r1 := (shr (shr_record_of_loc m l) 0 (Zdigits2 m - 53)).1 in
  let m2 := round_nearest_even (shr_m r1) (loc_of_shr_record r1) in
  let r2 := (shr (shr_record_of_loc m2 loc_Exact) 0 (Zdigits2 m2 - 53)).1 in
  (shr_m r2, Z.max 0 (Zdigits2 m - 53) + Z.max 0 (Zdigits2 m2 - 53)).

(** The double of sign [s] with mantissa [m] and exponent [e], an infinity
    past the largest exponent *)
Definition float_of_mantissa (s : bool) (m e : Z) : float64 :=
  match m with
  | Z0 => S754_zero s
  | Zpos p => if e <=? 971 then S754_finite s p e else S754_infinity s
  | Zneg _ => S754_nan
  end.

(** ** Vocabulary for the order of the doubles

    The doubles other than NaN are ordered as the triples [float_key]
    under the lexicographic order: the infinities at both ends, the two
    zeros together in the middle, a finite double by its exponent and then
    its mantissa. *)
Definition float_key (x : float64) : Z * Z * Z :=
  match x with
  | S754_zero _ | S754_nan => (0, 0, 0)
  | S754_infinity s => (if s then -2 else 2, 0, 0)
  | S754_finite false m e => (1, e, Zpos m)
  | S754_finite true m e => (-1, - e, Zneg m)
  end.

Definition key_le (a b : Z * Z * Z) : Prop :=
  a.1.1 < b.1.1
  ∨ (a.1.1 = b.1.1 ∧ (a.1.2 < b.1.2 ∨ (a.1.2 = b.1.2 ∧ a.2 ≤ b.2))).

Definition key_lt (a b : Z * Z * Z) : Prop :=
  a.1.1 < b.1.1
  ∨ (a.1.1 = b.1.1 ∧ (a.1.2 < b.1.2 ∨ (a.1.2 = b.1.2 ∧ a.2 < b.2))).

Definition not_nan (x : float64) : Prop := x ≠ S754_nan.

Definition float_zero (x : float64) : bool :=
  match x with S754_zero _ => true | _ => false end.

(** The same double, up to the sign of zero *)
Definition float_same (x y : float64) : Prop :=
  x = y ∨ (float_zero x = true ∧ float_zero y = true).

(** ** Vocabulary for exact results

    [x] is the double that stands for the rational [q]: a well-formed
    binary64 number (normalised mantissa of at most 53 bits, exponent in
    range) whose value is [q]. *)
Definition represents (x : float64) (q : Q) : Prop :=
  valid_binary 53 1024 x = true ∧ float_finite x = true ∧ (float_value x == q)%Q.

(** The value of a finite double in units of the least positive double,
    [2^-1074] *)
Definition float_scaled (x : float64) : Z :=
  match x with
  | S754_finite s m e => cond_Zopp s (Zpos m) * 2 ^ (e + 1074)
  | _ => 0
  end.

(** ** Vocabulary for grids of powers of two

    The time scales are the doubles [2^e0], [2^(e0+1)], ...: what the
    constructor computes for a sampling frequency that is a power of two. *)
Definition binary_grid (grid : CoherentWaveBurstGrid) (e0 : Z) : Prop :=
  -400 ≤ e0 ∧ e0 + Z.of_nat (length (timescales grid)) ≤ 400
  ∧ ∀ i, 0 ≤ i < Z.of_nat (length (timescales grid)) →
      timescale grid i = S754_finite false 4503599627370496 (e0 + i - 52).

(** * Lemmas and theorems *)

(** ** The sort terminates and lists every node once *)

Section sorting_permutation.
Context (order : set_order) (g : gmap GridPoint (gset GridPoint)).

Lemma order_elem_of (s : gset GridPoint) (x : GridPoint) : x ∈ order s ↔ x ∈ s.
Proof. by rewrite (iter_perm order s), elem_of_elements. Qed.

Lemma order_nil (s : gset GridPoint) : order s = [] → s = ∅.
Proof.
  intros E. apply leibniz_equiv, elements_empty_inv.
  apply Permutation_nil_r. by rewrite <- (iter_perm order s), E.
Qed.

Lemma visited_split (U U1 U2 : gset GridPoint) (a x : GridPoint) :
  a ∈ U → U1 ⊆ U ∖ {[a]} → U2 ⊆ U1 →
  (x = a ∨ (x ∈ U ∖ {[a]} ∧ x ∉ U1)) ∨ (x ∈ U1 ∧ x ∉ U2) ↔ x ∈ U ∧ x ∉ U2.
Proof.
  intros Ha H1 H2.
  destruct (decide (x ∈ U1)); destruct (decide (x = a)) as [->|]; set_solver.
Qed.

Lemma visited_rest (U U1 : gset GridPoint) (a x : GridPoint) :
  a ∈ U → U1 ⊆ U ∖ {[a]} →
  (x = a ∨ (x ∈ U ∖ {[a]} ∧ x ∉ U1)) ∨ x ∈ U1 ↔ x ∈ U.
Proof.
  intros Ha H1.
  destruct (decide (x ∈ U1)); destruct (decide (x = a)) as [->|]; set_solver.
Qed.

Lemma size_remove (U : gset GridPoint) (a : GridPoint) :
  a ∈ U → S (size (U ∖ {[a]})) = size U.
Proof.
  intros Ha. rewrite (union_difference_singleton_L a U Ha) at 2.
  rewrite (size_union {[a]} (U ∖ {[a]})); [|set_solver].
  by rewrite size_singleton.
Qed.

Lemma ancestors_loop_total visit bound :
  visit_total visit bound →
  ∀ ancs res U, (size U ≤ bound)%nat →
    ∃ r U', ancestors_loop visit ancs res U = Ok (res ++ r, U')
      ∧ U' ⊆ U ∧ NoDup r ∧ ∀ x, x ∈ r ↔ x ∈ U ∧ x ∉ U'.
Proof.
  intros Hvisit. induction ancs as [|a ancs IH]; intros res U HU; simpl.
  - exists [], U. rewrite app_nil_r. split_and!; [done|done|constructor|set_solver].
  - destruct (decide (a ∈ U)) as [Ha|Ha]; [|by apply IH].
    destruct (Hvisit a (U ∖ {[a]})) as ([r1 U1] & -> & Hsub1 & Hnd1 & Hin1);
      [pose proof (size_remove U a Ha); lia | set_solver |].
    simpl in *.
    destruct (IH (res ++ r1) U1) as (r2 & U2 & -> & Hsub2 & Hnd2 & Hin2).
    { etrans; [apply subseteq_size, Hsub1|]. pose proof (size_remove U a Ha). lia. }
    exists (r1 ++ r2), U2. rewrite app_assoc. split; [done|].
    split; [set_solver|]. split.
    + apply NoDup_app. split; [done|]. split; [|done].
      intros x Hx1 Hx2. apply Hin1 in Hx1. apply Hin2 in Hx2. set_solver.
    + intros x. rewrite elem_of_app, Hin1, Hin2.
      by apply visited_split.
Qed.

Lemma sorted_ancestors_total fuel : visit_total (sorted_ancestors order g fuel) fuel.
Proof.
  induction fuel as [|fuel IH]; intros node U HU Hnode; [lia|]. simpl.
  destruct (ancestors_loop_total _ _ IH (order (ancestors_of g node)) [] U)
    as (r & U' & -> & Hsub & Hnd & Hin); [lia|].
  simpl. eexists; split; [done|]. split; [done|]. simpl. split.
  - apply NoDup_app. split; [done|]. split; [|apply NoDup_singleton].
    intros x Hx ->%list_elem_of_singleton. apply Hin in Hx. set_solver.
  - intros x. rewrite elem_of_app, list_elem_of_singleton, Hin. tauto.
Qed.

Lemma sort_loop_total fuel :
  ∀ U sorted_nodes, (size U ≤ fuel)%nat →
    ∃ l, sort_loop order g fuel U sorted_nodes = Ok (sorted_nodes ++ l)
      ∧ NoDup l ∧ ∀ x, x ∈ l ↔ x ∈ U.
Proof.
  induction fuel as [|fuel IH]; intros U E HU; simpl.
  - assert (U = ∅) as -> by (apply leibniz_equiv, size_empty_inv; lia).
    destruct (order ∅) as [|n ?] eqn:E0.
    + exists []. rewrite app_nil_r. split_and!; [done|constructor|set_solver].
    + assert (n ∈ order ∅) as Hn by (rewrite E0; left). apply order_elem_of in Hn. set_solver.
  - destruct (order U) as [|node rest] eqn:EU.
    + apply order_nil in EU as ->. exists []. rewrite app_nil_r.
      split_and!; [done|constructor|set_solver].
    + assert (node ∈ U) as Hnode by (apply order_elem_of; rewrite EU; left).
      destruct (sorted_ancestors_total (S fuel) node (U ∖ {[node]}))
        as ([r U1] & Hr & Hsub & Hnd & Hin);
        [pose proof (size_remove U node Hnode); lia | set_solver |].
      simpl in Hr. rewrite Hr. simpl in *.
      destruct (IH U1 (E ++ r)) as (l & -> & Hndl & Hinl).
      { pose proof (subseteq_size _ _ Hsub). pose proof (size_remove U node Hnode). lia. }
      exists (r ++ l). rewrite app_assoc. split; [done|]. split.
      * apply NoDup_app. split; [done|]. split; [|done].
        intros x Hx1 Hx2. apply Hin in Hx1. apply Hinl in Hx2. set_solver.
      * intros x. rewrite elem_of_app, Hin, Hinl.
        by apply visited_rest.
Qed.

Lemma topological_sorting_total :
  ∃ l, _topological_sorting order g = Ok l ∧ lists_nodes_once g l.
Proof.
  destruct (sort_loop_total (size (dom g)) (dom g) []) as (l & Hl & Hnd & Hin); [done|].
  exists l. split; [done|]. split_and!; [done..|].
  unfold size, set_size. simpl. apply Permutation_length, NoDup_Permutation;
    [done|apply NoDup_elements|]. intros x. by rewrite Hin, elem_of_elements.
Qed.
End sorting_permutation.

(** ** On an acyclic map the sort is a topological order *)

Section sorting_order.
Context (order : set_order) (g : gmap GridPoint (gset GridPoint)).
Hypothesis g_acyclic : acyclic (anc_edge g).

Lemma topo_from_weaken (seen seen' : GridPoint → Prop) l :
  (∀ x b, x ∈ l → anc_edge g b x → seen b → seen' b) →
  topo_from g seen l → topo_from g seen' l.
Proof.
  revert seen seen'. induction l as [|x l IH]; intros seen seen' Hw; simpl; [done|].
  intros [Hx Hl]. split.
  - intros b Hb. apply (Hw x); [left|done|by apply Hx].
  - eapply IH; [|done]. intros y b Hy Hb [?| ->]; [left|by right].
    apply (Hw y); [by right|done..].
Qed.

Lemma topo_from_app seen l1 l2 :
  topo_from g seen l1 → topo_from g (λ b, seen b ∨ b ∈ l1) l2 →
  topo_from g seen (l1 ++ l2).
Proof.
  revert seen. induction l1 as [|x l1 IH]; intros seen; simpl.
  - intros _. apply topo_from_weaken. intros ? ? _ _ [?|?%elem_of_nil]; done.
  - intros [Hx Hl] H2. split; [done|]. apply IH; [done|].
    revert H2. apply topo_from_weaken. intros ? b _ _. rewrite elem_of_cons. tauto.
Qed.

Lemma topo_from_lookup seen l j n b :
  topo_from g seen l → l !! j = Some n → anc_edge g b n →
  seen b ∨ ∃ i, (i < j)%nat ∧ l !! i = Some b.
Proof.
  revert seen j. induction l as [|x l IH]; intros seen j Hl Hj Hb; [done|].
  destruct Hl as [Hx Hl]. destruct j as [|j]; simpl in Hj.
  - injection Hj as ->. left. by apply Hx.
  - destruct (IH _ _ Hl Hj Hb) as [[?| ->]|(i & Hi & Hbi)].
    + by left.
    + right. exists O. split; [lia|done].
    + right. exists (S i). split; [lia|done].
Qed.

Lemma ancestors_loop_ordered visit bound node :
  visit_total visit bound → visit_ordered g visit bound →
  ∀ ancs res U res' U',
    (size U ≤ bound)%nat → node ∉ U → (∀ a, a ∈ ancs → anc_edge g a node) →
    ancestors_loop visit ancs res U = Ok (res', U') →
    ∃ r, res' = res ++ r
      ∧ U' ⊆ U ∧ (∀ x, x ∈ r ↔ x ∈ U ∧ x ∉ U')
      ∧ (∀ x, x ∈ r → tc (anc_edge g) x node)
      ∧ topo_from g (λ b, (b ∉ U) ∧ b ≠ node) r
      ∧ (∀ a, a ∈ ancs → a ∈ r ∨ a ∉ U).
Proof.
  intros Htot Hord. induction ancs as [|a ancs IH];
    intros res U res' U' HU Hnode Hancs Hloop; simpl in Hloop.
  - injection Hloop as <- <-. exists []. rewrite app_nil_r.
    split_and!; [done|done| | |done|].
    + intros x. rewrite elem_of_nil. tauto.
    + by intros x ?%elem_of_nil.
    + by intros x ?%elem_of_nil.
  - assert (anc_edge g a node) as Ha_node by (apply Hancs; left).
    assert (∀ b, b ∈ ancs → anc_edge g b node) as Hancs'
      by (intros; apply Hancs; by right).
    destruct (decide (a ∈ U)) as [Ha|Ha].
    + pose proof (size_remove U a Ha) as Hsz.
      assert (a ∉ U ∖ {[a]}) as Ha' by (clear; set_solver).
      destruct (Htot a (U ∖ {[a]})) as ([r1 U1] & Heq1 & Hsub1 & Hnd1 & Hin1);
        [lia|done|].
      rewrite Heq1 in Hloop. simpl in *.
      destruct (Hord a (U ∖ {[a]}) r1 U1) as [R1 T1]; [lia|done|done|].
      assert (node ∉ U1) as Hnode1 by (clear -Hnode Hsub1; set_solver).
      destruct (IH (res ++ r1) U1 res' U') as (r2 & -> & Hsub2 & Hin2 & R2 & T2 & V2);
        [|done|done|done|].
      { pose proof (subseteq_size _ _ Hsub1). lia. }
      assert (∀ b, b ∈ U → b ∉ U1 → b ∈ r1) as Hr1.
      { intros b Hb Hb1. apply Hin1. clear -Hb Hb1.
        destruct (decide (b = a)); [by left|right]. set_solver. }
      exists (r1 ++ r2). rewrite app_assoc. split_and!; [done| | | | |].
      * clear -Hsub1 Hsub2. set_solver.
      * intros x. rewrite elem_of_app, Hin1, Hin2. by apply visited_split.
      * intros x [Hx|Hx]%elem_of_app; [|by apply R2].
        eapply tc_rtc_l; [by apply R1|by apply tc_once].
      * apply topo_from_app.
        -- revert T1. apply topo_from_weaken. intros x b Hx Hb [Hb1 Hb2].
           split; [clear -Hb1 Hb2; set_solver|]. intros ->.
           apply (g_acyclic node). eapply tc_l; [done|].
           eapply tc_rtc_l; [by apply R1|by apply tc_once].
        -- revert T2. apply topo_from_weaken. intros x b Hx Hb [Hb1 Hb2].
           destruct (decide (b ∈ U)); [right|by left]. by apply Hr1.
      * intros b [->|Hb]%elem_of_cons.
        -- left. apply elem_of_app. left. apply Hin1. by left.
        -- destruct (V2 b Hb) as [?|Hb1]; [left; apply elem_of_app; by right|].
           destruct (decide (b ∈ U)); [left|by right].
           apply elem_of_app. left. by apply Hr1.
    + destruct (IH res U res' U') as (r & -> & Hsub & Hin & R & T & V); [done..|].
      exists r. split_and!; [done..|].
      intros b [->|Hb]%elem_of_cons; [by right|by apply V].
Qed.

Lemma sorted_ancestors_ordered fuel :
  visit_ordered g (sorted_ancestors order g fuel) fuel.
Proof.
  induction fuel as [|fuel IH]; intros node U r U' HU Hnode Hr; [lia|].
  simpl in Hr.
  destruct (ancestors_loop _ _ _ _) as [[r' U1]| |] eqn:Hloop; [|done..].
  simpl in Hr. injection Hr as <- <-.
  apply (ancestors_loop_ordered _ fuel node) in Hloop
    as (r & -> & Hsub & Hin & R & T & V);
    [|apply sorted_ancestors_total|done|lia|done|by intros a ?%order_elem_of].
  simpl. split.
  - intros x [Hx| ->%list_elem_of_singleton]%elem_of_app; [|done].
    by apply tc_rtc, R.
  - apply topo_from_app; [done|]. simpl. split; [|done].
    intros b Hb. destruct (V b) as [?|?]; [by apply order_elem_of|by right|].
    left. split; [done|]. intros ->. apply (g_acyclic node). by apply tc_once.
Qed.

Lemma sort_loop_ordered fuel :
  ∀ U sorted_nodes l, (size U ≤ fuel)%nat →
    sort_loop order g fuel U sorted_nodes = Ok l →
    ∃ l', l = sorted_nodes ++ l' ∧ topo_from g (λ b, b ∉ U) l'.
Proof.
  induction fuel as [|fuel IH]; intros U E l HU Hl; simpl in Hl.
  - assert (U = ∅) as -> by (apply leibniz_equiv, size_empty_inv; lia).
    destruct (order ∅) as [|n ?] eqn:E0; [|done].
    injection Hl as <-. exists []. by rewrite app_nil_r.
  - destruct (order U) as [|node rest] eqn:EU.
    { injection Hl as <-. exists []. by rewrite app_nil_r. }
    assert (node ∈ U) as Hnode by (apply (order_elem_of order); rewrite EU; left).
    pose proof (size_remove U node Hnode) as Hsz.
    assert (node ∉ U ∖ {[node]}) as Hnode' by (clear; set_solver).
    destruct (sorted_ancestors_total order g (S fuel) node (U ∖ {[node]}))
      as ([r U1] & Hr & Hsub & Hnd & Hin); [lia|done|].
    destruct (sorted_ancestors_ordered (S fuel) node (U ∖ {[node]}) r U1)
      as [R T]; [lia|done|done|].
    simpl in Hr. rewrite Hr in Hl. simpl in *.
    apply IH in Hl as (l2 & -> & T2);
      [|pose proof (subseteq_size _ _ Hsub); lia].
    exists (r ++ l2). rewrite app_assoc. split; [done|].
    apply topo_from_app.
    + revert T. apply topo_from_weaken. intros x b _ _ [Hb1 Hb2].
      clear -Hb1 Hb2. set_solver.
    + revert T2. apply topo_from_weaken. intros x b _ _ Hb.
      destruct (decide (b ∈ U)) as [HbU|]; [right|by left].
      apply Hin. clear -Hb HbU.
      destruct (decide (b = node)); [by left|right]. set_solver.
Qed.

Lemma topological_sorting_ordered l :
  ancestors_closed g →
  _topological_sorting order g = Ok l → topological_order (anc_edge g) l.
Proof.
  intros Hclosed Hl. apply sort_loop_ordered in Hl as (l' & -> & T); [|done].
  simpl. intros j n a Hj Ha.
  destruct (topo_from_lookup _ _ _ _ _ T Hj Ha) as [Hout|?]; [|done].
  destruct Hout. by apply (Hclosed a n).
Qed.
End sorting_order.

(** ** The loop over the clusters *)

Section build_facts.
Implicit Types (g : gmap GridPoint (gset GridPoint)) (st : build_state).

Lemma adjacent_pairs_cons p q l :
  adjacent_pairs (p :: q :: l) = (p, q) :: adjacent_pairs (q :: l).
Proof. done. Qed.

Lemma adjacent_pairs_snd a n pts : (a, n) ∈ adjacent_pairs pts → n ∈ pts.
Proof.
  destruct pts as [|p l]; [by intros ?%elem_of_nil|].
  revert p. induction l as [|q l IH]; intros p; [by intros ?%elem_of_nil|].
  rewrite adjacent_pairs_cons. intros [[= -> ->]|H]%elem_of_cons.
  - right; left.
  - right. by apply (IH q).
Qed.

Lemma anc_edge_add g a0 n0 a n :
  anc_edge (add_ancestor g a0 n0) a n ↔ anc_edge g a n ∨ (a = a0 ∧ n = n0).
Proof.
  unfold anc_edge, ancestors_of, add_ancestor.
  destruct (decide (n = n0)) as [->|Hne].
  - rewrite lookup_insert_eq. simpl. set_solver.
  - rewrite lookup_insert_ne by done. naive_solver.
Qed.

Lemma dom_add g a0 n0 : dom (add_ancestor g a0 n0) = {[n0]} ∪ dom g.
Proof. unfold add_ancestor. by rewrite dom_insert_L. Qed.

Lemma anc_edge_reset g first a n :
  anc_edge (<[first := ∅]> g) a n ↔ anc_edge g a n ∧ n ≠ first.
Proof.
  unfold anc_edge, ancestors_of.
  destruct (decide (n = first)) as [->|Hne].
  - rewrite lookup_insert_eq. simpl. set_solver.
  - rewrite lookup_insert_ne by done. naive_solver.
Qed.

(** The inner loop over the chain [p :: l]. *)
Lemma pairs_loop_chain l : ∀ p g node0,
  let out := pairs_loop (adjacent_pairs (p :: l)) g node0 in
  dom out.1 = dom g ∪ list_to_set l
  ∧ (∀ a n, anc_edge out.1 a n ↔ anc_edge g a n ∨ (a, n) ∈ adjacent_pairs (p :: l))
  ∧ out.2 = match l with [] => node0 | _ => last l end.
Proof.
  induction l as [|q l IH]; intros p g node0; simpl.
  - split_and!; [set_solver| |done].
    intros a n. split; [by left|]. by intros [?|?%elem_of_nil].
  - rewrite adjacent_pairs_cons. unfold pairs_loop. simpl.
    destruct (IH q (add_ancestor g p q) (Some q)) as (Hdom & Hedge & Hnode).
    unfold pairs_loop in *. split_and!.
    + rewrite Hdom, dom_add. set_solver.
    + intros a n. rewrite Hedge, anc_edge_add, elem_of_cons.
      split; [intros [[?|[-> ->]]|?]|intros [?|[[= -> ->]|?]]]; tauto.
    + rewrite Hnode. by destruct l.
Qed.

Lemma build_cluster_Ok st c st' :
  build_cluster st c = Ok st' →
  dom (st_graph st') = dom (st_graph st) ∪ list_to_set (grid_points c)
  ∧ (∀ a n, anc_edge (st_graph st') a n ↔
       (anc_edge (st_graph st) a n ∧ Some n ≠ head (grid_points c))
       ∨ (a, n) ∈ adjacent_pairs (grid_points c)).
Proof.
  unfold build_cluster. destruct (grid_points c) as [|p l] eqn:Hpts.
  - intros [= <-]. split; [set_solver|]. intros a n. simpl.
    split; [by left|]. by intros [[? _]|?%elem_of_nil].
  - destruct (pairs_loop_chain l p (<[p:=∅]> (st_graph st)) (st_node st))
      as (Hdom & Hedge & _).
    destruct (pairs_loop _ _ _) as [g1 node]. destruct node as [n1|]; [|done].
    intros [= <-]. simpl in *. split.
    + rewrite Hdom, dom_insert_L. set_solver.
    + intros a n. rewrite Hedge, anc_edge_reset. naive_solver.
Qed.

Lemma build_cluster_closed st c st' :
  build_cluster st c = Ok st' →
  ancestors_closed (st_graph st) → ancestors_closed (st_graph st').
Proof.
  intros Hc%build_cluster_Ok Hcl. destruct Hc as [Hdom Hedge].
  intros a n [[Ha _]|Ha]%Hedge; rewrite Hdom.
  - apply elem_of_union_l. by apply (Hcl a n).
  - apply elem_of_union_r, elem_of_list_to_set.
    unfold adjacent_pairs in Ha. apply elem_of_zip_l in Ha.
    clear -Ha. induction (grid_points c) as [|p [|q l] IH]; simpl in *.
    + by apply elem_of_nil in Ha.
    + by apply elem_of_nil in Ha.
    + apply elem_of_cons in Ha as [->|Ha]; [left|right; by apply IH].
Qed.

(** All the points of a batch. *)
Lemma build_clusters_Ok clusters : ∀ st st',
  build_clusters st clusters = Ok st' →
  dom (st_graph st') = dom (st_graph st) ∪ list_to_set (clusters ≫= grid_points)
  ∧ (ancestors_closed (st_graph st) → ancestors_closed (st_graph st'))
  ∧ (∀ a n, anc_edge (st_graph st') a n →
       anc_edge (st_graph st) a n ∨ cluster_edge clusters a n).
Proof.
  induction clusters as [|c cs IH]; intros st st'; simpl.
  - intros [= <-]. split_and!; [set_solver|done|by left].
  - destruct (build_cluster st c) as [st1| |] eqn:Hc; [|done..]. simpl.
    intros (Hdom & Hcl & Hedge)%IH.
    pose proof (build_cluster_Ok _ _ _ Hc) as [Hdom1 Hedge1].
    split_and!.
    + rewrite Hdom, Hdom1, list_to_set_app_L. set_solver.
    + intros ?. by eapply Hcl, build_cluster_closed.
    + intros a n [[[? _]|?]%Hedge1|(c' & Hc' & ?)]%Hedge.
      * by left.
      * right. exists c. split; [left|done].
      * right. exists c'. split; [by right|done].
Qed.
End build_facts.

(** ** [Graph.__init__] as a whole *)

Section graph_facts.
Context (order : set_order) (numpy_mean numpy_std : list Q → Q).
Local Abbreviation init := (Graph_init order numpy_mean numpy_std).

(** Once the loop over the clusters completes, the constructor returns. *)
Lemma Graph_init_of_build clusters st :
  build_clusters init_state clusters = Ok st →
  ∃ g, init clusters = Ok g
    ∧ graph g = st_graph st
    ∧ point_info g =
        (λ vs, mkGraphInfo (numpy_mean vs) (numpy_std vs)) <$> st_values st
    ∧ head_nodes g = st_head_nodes st
    ∧ _topological_sorting order (graph g) = Ok (sorted_list g).
Proof.
  intros Hst. unfold Graph_init. rewrite Hst. simpl.
  destruct (topological_sorting_total order (st_graph st)) as (l & Hl & _).
  rewrite Hl. simpl. eexists. split; [done|]. by simpl.
Qed.

Lemma build_cluster_Raise st c e :
  build_cluster st c = Raise e → e = UnboundLocalError.
Proof.
  unfold build_cluster. destruct (grid_points c); [done|].
  destruct (pairs_loop _ _ _) as [g1 [n|]]; [done|]. by intros [= <-].
Qed.

Lemma build_cluster_fuel st c : build_cluster st c ≠ OutOfFuel.
Proof.
  unfold build_cluster. destruct (grid_points c); [done|].
  by destruct (pairs_loop _ _ _) as [g1 [n|]].
Qed.

Lemma build_clusters_outcome clusters : ∀ st,
  match build_clusters st clusters with
  | Ok _ => True
  | Raise e => e = UnboundLocalError
  | OutOfFuel => False
  end.
Proof.
  induction clusters as [|c cs IH]; intros st; simpl; [done|].
  destruct (build_cluster st c) as [st1|e|] eqn:Hc; simpl.
  - apply IH.
  - by apply build_cluster_Raise in Hc.
  - by apply build_cluster_fuel in Hc.
Qed.

Lemma Graph_init_inv clusters g :
  init clusters = Ok g →
  ∃ st, build_clusters init_state clusters = Ok st
    ∧ graph g = st_graph st
    ∧ point_info g =
        (λ vs, mkGraphInfo (numpy_mean vs) (numpy_std vs)) <$> st_values st
    ∧ head_nodes g = st_head_nodes st
    ∧ _topological_sorting order (graph g) = Ok (sorted_list g).
Proof.
  intros Hg. destruct (build_clusters init_state clusters) as [st| |] eqn:Hst.
  - exists st. split; [done|].
    destruct (Graph_init_of_build _ _ Hst) as (g' & Hg' & ?).
    rewrite Hg in Hg'. by injection Hg' as <-.
  - unfold Graph_init in Hg. by rewrite Hst in Hg.
  - unfold Graph_init in Hg. by rewrite Hst in Hg.
Qed.

(** The only exception of the constructor is the unbound local [node];
    the sort never fails. *)
Lemma Graph_init_outcome clusters :
  match init clusters with
  | Ok g => lists_nodes_once (graph g) (sorted_list g)
  | Raise e => e = UnboundLocalError
  | OutOfFuel => False
  end.
Proof.
  pose proof (build_clusters_outcome clusters init_state) as Hb.
  destruct (build_clusters init_state clusters) as [st|e|] eqn:Hst.
  - destruct (Graph_init_of_build _ _ Hst) as (g & -> & Hg & _ & _ & Hl).
    destruct (topological_sorting_total order (graph g)) as (l & Hl' & ?).
    rewrite Hl in Hl'. by injection Hl' as <-.
  - unfold Graph_init. by rewrite Hst.
  - done.
Qed.

Lemma Graph_init_graph {A} (f : gmap GridPoint (gset GridPoint) → A) clusters :
  (λ g, f (graph g)) <$> init clusters
  = (λ st, f (st_graph st)) <$> build_clusters init_state clusters.
Proof.
  destruct (build_clusters init_state clusters) as [st|e|] eqn:Hst.
  - destruct (Graph_init_of_build _ _ Hst) as (g & -> & Hg & _). simpl. by rewrite Hg.
  - unfold Graph_init. by rewrite Hst.
  - unfold Graph_init. by rewrite Hst.
Qed.

Lemma Graph_init_head_nodes clusters :
  head_nodes <$> init clusters
  = st_head_nodes <$> build_clusters init_state clusters.
Proof.
  destruct (build_clusters init_state clusters) as [st|e|] eqn:Hst.
  - destruct (Graph_init_of_build _ _ Hst) as (g & -> & _ & _ & Hh & _). simpl. by rewrite Hh.
  - unfold Graph_init. by rewrite Hst.
  - unfold Graph_init. by rewrite Hst.
Qed.
End graph_facts.

(** ** Cycles and orders *)

Section orders.
Context (E : relation GridPoint).

Lemma acyclic_by_rank (rank : GridPoint → Z) :
  (∀ a n, E a n → rank a < rank n) → acyclic E.
Proof.
  intros Hrank x Hx.
  assert (∀ a b, tc E a b → rank a < rank b) as Htc.
  { induction 1 as [a b Hab|a b c Hab _ IH]; [by apply Hrank|].
    apply Hrank in Hab. lia. }
  apply Htc in Hx. lia.
Qed.

Lemma acyclic_subrel (E' : relation GridPoint) :
  (∀ a n, E' a n → E a n) → acyclic E → acyclic E'.
Proof.
  intros Hsub Hacyc x Hx. apply (Hacyc x).
  assert (∀ a b, tc E' a b → tc E a b) as Htc; [|by apply Htc].
  induction 1 as [a b Hab|a b c Hab _ IH]; [by apply tc_once, Hsub|].
  eapply tc_l; [by apply Hsub|done].
Qed.

Lemma tc_last_edge x y : tc E x y → ∃ z, E z y.
Proof. induction 1 as [a b Hab|a b c _ _ IH]; [by exists a|done]. Qed.

Lemma topological_order_tc l a n j :
  topological_order E l → tc E a n → l !! j = Some n →
  ∃ i, (i < j)%nat ∧ l !! i = Some a.
Proof.
  intros Htopo Htc. revert j.
  induction Htc as [a b Hab|a b c Hab _ IH]; intros j Hj.
  - by apply (Htopo j b a).
  - destruct (IH j Hj) as (i & Hi & Hbi).
    destruct (Htopo i b a Hbi Hab) as (k & Hk & Hak).
    exists k. split; [lia|done].
Qed.

(** No list is a topological order of a cycle it meets. *)
Lemma cyclic_not_topological l x :
  tc E x x → x ∈ l → ¬ topological_order E l.
Proof.
  intros Hx [j Hj]%list_elem_of_lookup Htopo.
  induction (lt_wf j) as [j _ IH].
  destruct (topological_order_tc l x x j Htopo Hx Hj) as (i & Hi & Hxi).
  by apply (IH i).
Qed.
End orders.

Lemma ancestors_closed_empty : ancestors_closed ∅.
Proof. intros a n. unfold anc_edge, ancestors_of. rewrite lookup_empty. set_solver. Qed.

Lemma build_graph_edges clusters st :
  build_clusters init_state clusters = Ok st →
  ancestors_closed (st_graph st)
  ∧ (∀ a n, anc_edge (st_graph st) a n → cluster_edge clusters a n)
  ∧ (∀ a n, cluster_edge clusters a n → n ∈ dom (st_graph st)).
Proof.
  intros (Hdom & Hcl & Hedge)%build_clusters_Ok. split_and!.
  - by apply Hcl, ancestors_closed_empty.
  - intros a n [Ha|?]%Hedge; [|done]. by apply ancestors_closed_empty in Ha.
  - intros a n (c & Hc & Hp). rewrite Hdom. apply elem_of_union_r.
    apply elem_of_list_to_set, list_elem_of_bind. exists c.
    split; [|done]. by eapply adjacent_pairs_snd.
Qed.

(** ** The claims about the topological sort *)

(** C9: [_topological_sorting] terminates on every ancestor map, cyclic or
    not, and returns a list that holds each key of the map exactly once; so
    for every batch of clusters the constructor either stops at the unbound
    local [node] or returns a graph whose [sorted_list] is a permutation of
    its nodes. *)
Theorem topological_sorting_permutation
    (order : set_order) (numpy_mean numpy_std : list Q → Q) :
  (∀ g : gmap GridPoint (gset GridPoint),
     ∃ l, _topological_sorting order g = Ok l
       ∧ NoDup l ∧ (∀ x, x ∈ l ↔ x ∈ dom g) ∧ length l = size (dom g))
  ∧ (∀ clusters,
       match Graph_init order numpy_mean numpy_std clusters with
       | Ok g => lists_nodes_once (graph g) (sorted_list g)
       | Raise e => e = UnboundLocalError
       | OutOfFuel => False
       end).
Proof.
  split.
  - intros g. apply topological_sorting_total.
  - apply Graph_init_outcome.
Qed.

(** C3: when the unioned adjacent-pair edges of the batch are acyclic, the
    [sorted_list] of the graph that is built is a topological order (every
    element of [graph[node]] occurs earlier than [node]) and holds every key
    of the ancestor map exactly once. *)
Theorem sorted_list_topological
    (order : set_order) (numpy_mean numpy_std : list Q → Q)
    (clusters : list Cluster) (g : Graph) :
  acyclic (cluster_edge clusters) →
  Graph_init order numpy_mean numpy_std clusters = Ok g →
  topological_order (anc_edge (graph g)) (sorted_list g)
  ∧ NoDup (sorted_list g)
  ∧ (∀ x, x ∈ sorted_list g ↔ x ∈ dom (graph g))
  ∧ length (sorted_list g) = size (dom (graph g)).
Proof.
  intros Hacyc Hg.
  pose proof (Graph_init_outcome order numpy_mean numpy_std clusters) as Hout.
  rewrite Hg in Hout. split; [|done].
  apply Graph_init_inv in Hg as (st & Hst & Hgraph & _ & _ & Hsort).
  apply build_graph_edges in Hst as (Hcl & Hedge & _). rewrite <- Hgraph in *.
  apply (topological_sorting_ordered order); [|done..].
  by apply (acyclic_subrel (cluster_edge clusters)).
Qed.

Lemma example_acyclic : acyclic (cluster_edge [cluster_ABC; cluster_ABD]).
Proof.
  apply (acyclic_by_rank _ time_index). intros a n (c & Hc & Hp).
  repeat (apply elem_of_cons in Hc as [->|Hc]); [..|by apply elem_of_nil in Hc];
    cbn in Hp;
    repeat (apply elem_of_cons in Hp as [[= -> ->]|Hp]); try done;
    by apply elem_of_nil in Hp.
Qed.

Lemma sorted_list_topological_witness :
  ∃ g, Graph_init elements_order Qmean Qstd [cluster_ABC; cluster_ABD] = Ok g
    ∧ topological_order (anc_edge (graph g)) (sorted_list g)
    ∧ NoDup (sorted_list g)
    ∧ (∀ x, x ∈ sorted_list g ↔ x ∈ dom (graph g))
    ∧ length (sorted_list g) = size (dom (graph g)).
Proof.
  eexists. split; [vm_compute; reflexivity|].
  apply (sorted_list_topological elements_order Qmean Qstd [cluster_ABC; cluster_ABD]).
  - exact example_acyclic.
  - vm_compute; reflexivity.
Defined.

(** C1, as the specification states it, fails: the sort has no cycle
    detection.  On the specification's own example (cluster1 [[A,B]],
    cluster2 [[B,A]]) and on the one-cluster loop [[A,B,A]] the unioned
    edges contain a cycle and the constructor returns normally. *)
Lemma cycle_not_reported :
  cyclic (cluster_edge [cluster_AB; cluster_BA])
  ∧ sorted_list <$> Graph_init elements_order Qmean Qstd [cluster_AB; cluster_BA]
    = Ok [pB; pA]
  ∧ cyclic (cluster_edge [cluster_ABA])
  ∧ sorted_list <$> Graph_init elements_order Qmean Qstd [cluster_ABA]
    = Ok [pB; pA]
  ∧ sorted_list <$> Graph_init reversed_order Qmean Qstd [cluster_ABA]
    = Ok [pA; pB].
Proof.
  split_and!.
  - exists pA. apply (tc_l _ _ pB); [|apply tc_once].
    + exists cluster_AB. split; [left|]. cbn. left.
    + exists cluster_BA. split; [right; left|]. cbn. left.
  - vm_compute; reflexivity.
  - exists pA. apply (tc_l _ _ pB); [|apply tc_once];
      (exists cluster_ABA; split; [left|]; cbn); [left|right; left].
  - vm_compute; reflexivity.
  - vm_compute; reflexivity.
Qed.

(** C1, amended: when the unioned adjacent-pair edges of the batch contain
    a cycle, the topological sort raises no error.  The constructor does not
    hang and drops no node: it returns a graph whose [sorted_list] holds
    every key of the ancestor map exactly once, and that list is not a
    topological order of the unioned edges.  (The only exception the
    constructor can raise is the unbound local [node], before the sort.) *)
Theorem cycle_yields_non_topological_order
    (order : set_order) (numpy_mean numpy_std : list Q → Q)
    (clusters : list Cluster) :
  cyclic (cluster_edge clusters) →
  match Graph_init order numpy_mean numpy_std clusters with
  | Ok g =>
      NoDup (sorted_list g)
      ∧ (∀ x, x ∈ sorted_list g ↔ x ∈ dom (graph g))
      ∧ ¬ topological_order (cluster_edge clusters) (sorted_list g)
  | Raise e => e = UnboundLocalError
  | OutOfFuel => False
  end.
Proof.
  intros [x Hx].
  pose proof (Graph_init_outcome order numpy_mean numpy_std clusters) as Hout.
  destruct (Graph_init _ _ _ _) as [g|e|] eqn:Hg; [|done..].
  destruct Hout as (Hnd & Hin & _). split_and!; [done..|].
  apply Graph_init_inv in Hg as (st & Hst & Hgraph & _).
  apply build_graph_edges in Hst as (_ & _ & Hdom).
  apply (cyclic_not_topological _ _ x); [done|].
  destruct (tc_last_edge _ _ _ Hx) as [z Hz].
  apply Hin. rewrite Hgraph. by apply (Hdom z).
Qed.

Lemma cycle_yields_non_topological_order_witness :
  cyclic (cluster_edge [cluster_ABA])
  ∧ match Graph_init elements_order Qmean Qstd [cluster_ABA] with
    | Ok g =>
        NoDup (sorted_list g)
        ∧ (∀ x, x ∈ sorted_list g ↔ x ∈ dom (graph g))
        ∧ ¬ topological_order (cluster_edge [cluster_ABA]) (sorted_list g)
    | Raise e => e = UnboundLocalError
    | OutOfFuel => False
    end.
Proof.
  assert (cyclic (cluster_edge [cluster_ABA])) as Hcyc.
  { exists pA. apply (tc_l _ _ pB); [|apply tc_once];
      (exists cluster_ABA; split; [left|]; cbn); [left|right; left]. }
  split; [exact Hcyc|].
  exact (cycle_yields_non_topological_order elements_order Qmean Qstd
           [cluster_ABA] Hcyc).
Defined.

(** ** The claims about the loop over the clusters *)

(** C2 fails on the code: registering the first point of a cluster assigns a
    fresh empty set, which discards the ancestors that the point received
    from earlier clusters.  With cluster1 [[A,B]] and cluster2 [[B,C]], [A]
    precedes [B] in cluster1, yet the built map has [graph[B] = set()]; with
    the two clusters in the other order [graph[B] = {A}]. *)
Theorem first_point_resets_ancestors
    (order : set_order) (numpy_mean numpy_std : list Q → Q) :
  (pA, pB) ∈ adjacent_pairs (grid_points cluster_AB)
  ∧ (λ g, graph g !! pB)
      <$> Graph_init order numpy_mean numpy_std [cluster_AB; cluster_BC]
    = Ok (Some ∅)
  ∧ (λ g, graph g !! pB)
      <$> Graph_init order numpy_mean numpy_std [cluster_BC; cluster_AB]
    = Ok (Some {[pA]}).
Proof.
  split; [cbn; left|].
  split.
  - rewrite (Graph_init_graph _ _ _ (λ m, m !! pB)). vm_compute. reflexivity.
  - rewrite (Graph_init_graph _ _ _ (λ m, m !! pB)). vm_compute. reflexivity.
Qed.

(** C4 fails on the code: for a batch made of one cluster with one point the
    loop over adjacent pairs never runs, the local variable [node] is still
    unbound when [self.head_nodes.add(node)] reads it, and the constructor
    raises instead of returning a one-node graph. *)
Theorem single_point_cluster_raises
    (order : set_order) (numpy_mean numpy_std : list Q → Q)
    (p : GridPoint) (vs : list Q) (md : string) :
  Graph_init order numpy_mean numpy_std [mkCluster [p] vs md]
  = Raise UnboundLocalError.
Proof. reflexivity. Qed.

(** After a cluster with several points, a one-point cluster registers the
    stale [node] of the previous cluster as head node, not its own point. *)
Lemma single_point_cluster_stale_head
    (order : set_order) (numpy_mean numpy_std : list Q → Q) :
  head_nodes <$> Graph_init order numpy_mean numpy_std
      [cluster_AB; mkCluster [pC] [5%Q] "single"]
  = Ok {[pB]}.
Proof.
  rewrite Graph_init_head_nodes. vm_compute. reflexivity.
Qed.

(** ** The values and the statistics *)

Section values_facts.
Implicit Types (vs : gmap GridPoint (list Q)) (P : GridPoint).

Lemma extend_app o r1 r2 : extend (extend o r1) r2 = extend o (r1 ++ r2).
Proof.
  destruct r1 as [|v1 r1]; [done|]. destruct r2 as [|v2 r2]; simpl.
  - by rewrite app_nil_r.
  - by rewrite <- app_assoc.
Qed.

Lemma received_in_cons P p v pvs :
  received_in P ((p, v) :: pvs)
  = if decide (p = P) then v :: received_in P pvs else received_in P pvs.
Proof.
  unfold received_in. rewrite filter_cons. simpl. by destruct (decide (p = P)).
Qed.

Lemma values_loop_lookup pvs : ∀ vs P,
  values_loop pvs vs !! P = extend (vs !! P) (received_in P pvs).
Proof.
  induction pvs as [|[p v] pvs IH]; intros vs P; [done|].
  unfold values_loop in *. simpl. rewrite IH, received_in_cons.
  unfold append_value. destruct (decide (p = P)) as [->|Hne].
  - rewrite lookup_insert_eq.
    change (v :: received_in P pvs) with ([v] ++ received_in P pvs).
    by rewrite <- extend_app.
  - by rewrite lookup_insert_ne.
Qed.

Lemma build_cluster_values st c st' P :
  build_cluster st c = Ok st' →
  st_values st' !! P
  = extend (st_values st !! P) (received_in P (zip (grid_points c) (values c))).
Proof.
  unfold build_cluster. destruct (grid_points c) as [|p l] eqn:Hpts.
  - by intros [= <-].
  - destruct (pairs_loop _ _ _) as [g1 [n|]]; [|done].
    intros [= <-]. simpl. apply values_loop_lookup.
Qed.

Lemma build_clusters_values clusters : ∀ st st' P,
  build_clusters st clusters = Ok st' →
  st_values st' !! P = extend (st_values st !! P) (received_values clusters P).
Proof.
  induction clusters as [|c cs IH]; intros st st' P; simpl.
  - by intros [= <-].
  - destruct (build_cluster st c) as [st1| |] eqn:Hc; [|done..]. simpl.
    intros Hcs. rewrite (IH _ _ _ Hcs), (build_cluster_values _ _ _ _ Hc).
    apply extend_app.
Qed.

Lemma zip_take_values (pts : list GridPoint) (vals : list Q) :
  zip pts (take (length pts) vals) = zip pts vals.
Proof.
  revert vals. induction pts as [|p pts IH]; intros [|v vals]; simpl; [done..|].
  by rewrite IH.
Qed.

Lemma zip_take_points (pts : list GridPoint) (vals : list Q) :
  zip (take (length vals) pts) vals = zip pts vals.
Proof.
  revert vals. induction pts as [|p pts IH]; intros [|v vals]; simpl; [done..|].
  by rewrite IH.
Qed.

(** The loop body reads a cluster through its points and the pairing of
    points and values only. *)
Lemma build_cluster_ext st c c' :
  grid_points c = grid_points c' →
  zip (grid_points c) (values c) = zip (grid_points c') (values c') →
  build_cluster st c = build_cluster st c'.
Proof. unfold build_cluster. by intros <- <-. Qed.

Lemma build_clusters_ext pre c c' post : ∀ st,
  grid_points c = grid_points c' →
  zip (grid_points c) (values c) = zip (grid_points c') (values c') →
  build_clusters st (pre ++ c :: post) = build_clusters st (pre ++ c' :: post).
Proof.
  induction pre as [|c0 pre IH]; intros st Hp Hz; simpl.
  - by rewrite (build_cluster_ext st c c').
  - destruct (build_cluster st c0); simpl; [by apply IH|done..].
Qed.
End values_facts.

(** C5: in the graph that is built, the statistics of a point are numpy's
    mean and standard deviation ([ddof=0]: the population one) of all the
    values the point received, over all clusters and all its occurrences
    within a cluster; a point that received no value has no statistics. *)
Theorem statistics_aggregate_received_values
    (order : set_order) (numpy_mean numpy_std : list Q → Q)
    (clusters : list Cluster) (g : Graph) (P : GridPoint) :
  Graph_init order numpy_mean numpy_std clusters = Ok g →
  point_info g !! P =
    match received_values clusters P with
    | [] => None
    | vs => Some (mkGraphInfo (numpy_mean vs) (numpy_std vs))
    end.
Proof.
  intros (st & Hst & _ & -> & _)%Graph_init_inv.
  rewrite lookup_fmap, (build_clusters_values _ _ _ P Hst). simpl.
  rewrite lookup_empty. by destruct (received_values clusters P).
Qed.

Lemma statistics_aggregate_received_values_witness :
  received_values [cluster_ABC; cluster_ABD] pA = [1; 5]%Q
  ∧ ∃ g, Graph_init elements_order Qmean Qstd [cluster_ABC; cluster_ABD] = Ok g
    ∧ point_info g !! pA =
        match received_values [cluster_ABC; cluster_ABD] pA with
        | [] => None
        | vs => Some (mkGraphInfo (Qmean vs) (Qstd vs))
        end.
Proof.
  split; [reflexivity|].
  eexists. split; [vm_compute; reflexivity|].
  apply (statistics_aggregate_received_values elements_order Qmean Qstd
           [cluster_ABC; cluster_ABD]).
  vm_compute; reflexivity.
Defined.

(** C8, as the specification states it, fails: clusters whose two sequences
    differ in length are constructed and built into a graph without any
    error.  With two points and one value the second point is a node
    without statistics; with two points and three values the third value
    is dropped. *)
Lemma mismatched_cluster_accepted :
  length (grid_points cluster_short) ≠ length (values cluster_short)
  ∧ Cluster_new [pA; pB] [1]%Q (Some "short") = Ok cluster_short
  ∧ (λ g, (sorted_list g, dom (point_info g)))
      <$> Graph_init elements_order Qmean Qstd [cluster_short]
    = Ok ([pA; pB], {[pA]})
  ∧ length (grid_points cluster_long) ≠ length (values cluster_long)
  ∧ Cluster_new [pA; pB] [1; 2; 3]%Q (Some "long") = Ok cluster_long
  ∧ (λ g, (sorted_list g, dom (point_info g)))
      <$> Graph_init elements_order Qmean Qstd [cluster_long]
    = Ok ([pA; pB], {[pA; pB]}).
Proof.
  split_and!; [done|done|vm_compute; reflexivity|done|done|vm_compute; reflexivity].
Qed.

(** C8, amended: a cluster whose [grid_points] and [values] differ in
    length is accepted.  [Cluster.__new__] stores both sequences unchecked,
    and the graph constructor pairs them position by position up to the
    shorter one: values beyond the last point are ignored, points beyond
    the last value receive nothing, and no error is raised for the
    mismatch. *)
Theorem mismatched_lengths_are_truncated
    (order : set_order) (numpy_mean numpy_std : list Q → Q)
    (pts : list GridPoint) (vals : list Q) (md : string)
    (pre post : list Cluster) (P : GridPoint) :
  Cluster_new pts vals (Some md) = Ok (mkCluster pts vals md)
  ∧ Graph_init order numpy_mean numpy_std (pre ++ mkCluster pts vals md :: post)
    = Graph_init order numpy_mean numpy_std
        (pre ++ mkCluster pts (take (length pts) vals) md :: post)
  ∧ received_values [mkCluster pts vals md] P
    = received_values [mkCluster (take (length vals) pts) vals md] P
  ∧ (∀ e, Graph_init order numpy_mean numpy_std (pre ++ mkCluster pts vals md :: post)
          = Raise e → e = UnboundLocalError).
Proof.
  split_and!.
  - done.
  - unfold Graph_init.
    rewrite (build_clusters_ext pre (mkCluster pts vals md)
               (mkCluster pts (take (length pts) vals) md) post); [done..|].
    simpl. by rewrite zip_take_values.
  - unfold received_values. simpl. by rewrite zip_take_points.
  - intros e He.
    pose proof (Graph_init_outcome order numpy_mean numpy_std
                  (pre ++ mkCluster pts vals md :: post)) as Hout.
    by rewrite He in Hout.
Qed.

(** ** Binary64 arithmetic: digits, shifts and rounding *)

Section float_facts.
Implicit Types (m e n : Z) (mrs : shr_record) (l : location) (x y z : float64).

Lemma digits2_pos_size p : digits2_pos p = Pos.size p.
Proof. induction p; simpl; congruence. Qed.

Lemma Zdigits2_log2 m : 0 < m → Zdigits2 m = Z.log2 m + 1.
Proof.
  destruct m as [|p|p]; [lia| |lia]. intros _. simpl. rewrite digits2_pos_size.
  destruct p; simpl; lia.
Qed.

Lemma Zdigits2_bounds m : 0 < m → 2 ^ (Zdigits2 m - 1) ≤ m < 2 ^ Zdigits2 m.
Proof.
  intros Hm. rewrite Zdigits2_log2 by done.
  pose proof (Z.log2_spec m Hm). replace (Z.log2 m + 1 - 1) with (Z.log2 m) by lia.
  by rewrite <- Z.add_1_r in H.
Qed.

Lemma Zdigits2_nonneg m : 0 ≤ Zdigits2 m.
Proof. by destruct m. Qed.

Lemma Zdigits2_lt_pow m k : 0 ≤ m < 2 ^ k → 0 ≤ k → Zdigits2 m ≤ k.
Proof.
  intros [H0 Hlt] Hk. destruct (decide (m = 0)) as [->|Hne]; [done|].
  rewrite Zdigits2_log2 by lia.
  assert (Z.log2 m < k); [|lia]. apply Z.log2_lt_pow2; lia.
Qed.

Lemma Zdigits2_ge_pow m k : 0 ≤ k → 2 ^ k ≤ m → k + 1 ≤ Zdigits2 m.
Proof.
  intros Hk Hle. assert (0 < m) by (pose proof (Z.pow_pos_nonneg 2 k); lia).
  rewrite Zdigits2_log2 by done.
  assert (k ≤ Z.log2 m); [|lia]. by apply Z.log2_le_pow2.
Qed.

Lemma Zdigits2_le m m' : 0 ≤ m ≤ m' → Zdigits2 m ≤ Zdigits2 m'.
Proof.
  intros [H0 Hle]. destruct (decide (m = 0)) as [->|Hne]; [apply Zdigits2_nonneg|].
  rewrite !Zdigits2_log2 by lia. pose proof (Z.log2_le_mono m m' Hle). lia.
Qed.

(** Shifting a record right drops the low bits of the mantissa. *)
Lemma shr_1_m mrs : 0 ≤ shr_m mrs → shr_m (shr_1 mrs) = shr_m mrs / 2.
Proof.
  destruct mrs as [m r s]. simpl. intros Hm.
  destruct m as [|[p|p|]|p]; simpl; [done| | |done|lia].
  - rewrite (Pos2Z.inj_xI p). apply Z.div_unique with 1; lia.
  - rewrite (Pos2Z.inj_xO p). apply Z.div_unique with 0; lia.
Qed.

Lemma iter_pos_shr_1_m p : ∀ mrs, 0 ≤ shr_m mrs →
  shr_m (SpecFloat.iter_pos shr_1 p mrs) = shr_m mrs / 2 ^ Zpos p.
Proof.
  assert (∀ a k, 0 ≤ a → 0 ≤ a / 2 ^ Zpos k) as Hpow
    by (intros; apply Z.div_pos; [done|by apply Z.pow_pos_nonneg]).
  assert (∀ k, 0 < 2 ^ Zpos k) as Hk by (intros; by apply Z.pow_pos_nonneg).
  induction p as [p IH|p IH|]; intros mrs Hm; simpl.
  - assert (0 ≤ shr_m (shr_1 mrs)) as H1
      by (rewrite shr_1_m by done; apply Z.div_pos; lia).
    assert (0 ≤ shr_m (SpecFloat.iter_pos shr_1 p (shr_1 mrs))) as H2
      by (rewrite IH by done; by apply Hpow).
    rewrite (IH _ H2), (IH _ H1), shr_1_m by done.
    rewrite !Z.div_div by (first [apply Hk|lia]).
    f_equal. rewrite (Pos2Z.inj_xI p).
    replace (2 * Z.pos p + 1) with (Z.succ (Z.pos p + Z.pos p)) by lia.
    rewrite Z.pow_succ_r, Z.pow_add_r by lia. lia.
  - assert (0 ≤ shr_m (SpecFloat.iter_pos shr_1 p mrs)) as H2
      by (rewrite IH by done; by apply Hpow).
    rewrite (IH _ H2), (IH _ Hm).
    rewrite !Z.div_div by (first [apply Hk|lia]).
    f_equal. rewrite (Pos2Z.inj_xO p).
    replace (2 * Z.pos p) with (Z.pos p + Z.pos p) by lia.
    rewrite Z.pow_add_r by lia. lia.
  - by rewrite shr_1_m.
Qed.

Lemma shr_split mrs e n : shr mrs e n = (fst (shr mrs 0 n), e + Z.max 0 n).
Proof. destruct n; simpl; f_equal; lia. Qed.

Lemma shr_m_shift mrs n :
  0 ≤ shr_m mrs → shr_m (fst (shr mrs 0 n)) = shr_m mrs / 2 ^ Z.max 0 n.
Proof.
  intros Hm. destruct n as [|p|p]; simpl.
  - by rewrite Z.div_1_r.
  - by apply iter_pos_shr_1_m.
  - by rewrite Z.div_1_r.
Qed.

Lemma shr_m_record_of_loc m l : shr_m (shr_record_of_loc m l) = m.
Proof. by destruct l as [|[]]. Qed.

Lemma round_nearest_even_bounds m l :
  m ≤ round_nearest_even m l ≤ m + 1.
Proof. destruct l as [|[]]; simpl; [lia| |lia..]. destruct (Z.even m); lia. Qed.
(** Rounding away from underflow *)
Lemma shr_fexp_normal m e l :
  -1074 ≤ Zdigits2 m + e - 53 →
  shr_fexp 53 1024 m e l
  = ((shr (shr_record_of_loc m l) 0 (Zdigits2 m - 53)).1,
     e + Z.max 0 (Zdigits2 m - 53)).
Proof.
  intros He. unfold shr_fexp, fexp, emin.
  rewrite Z.max_l by lia.
  replace (Zdigits2 m + e - 53 - e) with (Zdigits2 m - 53) by lia.
  apply shr_split.
Qed.

Lemma shifted_mantissa_bounds m :
  0 < m →
  let m1 := m / 2 ^ Z.max 0 (Zdigits2 m - 53) in
  2 ^ (Z.min (Zdigits2 m) 53 - 1) ≤ m1 < 2 ^ Z.min (Zdigits2 m) 53.
Proof.
  intros Hm. pose proof (Zdigits2_bounds m Hm) as [Hlo Hhi].
  assert (1 ≤ Zdigits2 m) as Hd.
  { rewrite Zdigits2_log2 by done. pose proof (Z.log2_nonneg m). lia. }
  destruct (Z.le_gt_cases (Zdigits2 m) 53) as [Hle|Hgt]; simpl.
  - rewrite Z.max_l, Z.min_l by lia. change (2 ^ 0) with 1. rewrite Z.div_1_r. lia.
  - rewrite Z.max_r, Z.min_r by lia.
    set (k := Zdigits2 m - 53) in *.
    assert (0 < 2 ^ k) as Hk by (apply Z.pow_pos_nonneg; lia).
    split.
    + apply Z.div_le_lower_bound; [done|].
      replace (Zdigits2 m - 1) with (k + (53 - 1)) in Hlo by lia.
      rewrite Z.pow_add_r in Hlo by lia. lia.
    + apply Z.div_lt_upper_bound; [done|].
      replace (Zdigits2 m) with (k + 53) in Hhi by lia.
      rewrite Z.pow_add_r in Hhi by lia. lia.
Qed.

Lemma binary_round_aux_normal s m e l :
  0 < m → -1074 ≤ Zdigits2 m + e - 53 →
  binary_round_aux 53 1024 s m e l
  = float_of_mantissa s (round_mantissa m l).1 (e + (round_mantissa m l).2).
Proof.
  intros Hm He. unfold binary_round_aux, round_mantissa.
  rewrite shr_fexp_normal by done.
  set (r1 := (shr (shr_record_of_loc m l) 0 (Zdigits2 m - 53)).1).
  set (m2 := round_nearest_even (shr_m r1) (loc_of_shr_record r1)).
  assert (shr_m r1 = m / 2 ^ Z.max 0 (Zdigits2 m - 53)) as Hr1.
  { unfold r1. rewrite shr_m_shift; rewrite shr_m_record_of_loc; [done|lia]. }
  pose proof (shifted_mantissa_bounds m Hm) as Hb. simpl in Hb. rewrite <- Hr1 in Hb.
  pose proof (round_nearest_even_bounds (shr_m r1) (loc_of_shr_record r1)) as Hm2.
  fold m2 in Hm2.
  assert (0 < 2 ^ (Z.min (Zdigits2 m) 53 - 1)) as Hpos.
  { apply Z.pow_pos_nonneg; [lia|]. pose proof (Zdigits2_bounds m Hm).
    assert (1 ≤ Zdigits2 m); [|lia].
    rewrite Zdigits2_log2 by done. pose proof (Z.log2_nonneg m). lia. }
  assert (Z.min (Zdigits2 m) 53 ≤ Zdigits2 m2) as Hd2.
  { assert (Z.min (Zdigits2 m) 53 - 1 + 1 ≤ Zdigits2 m2); [|lia].
    apply Zdigits2_ge_pow; [|lia].
    pose proof (Zdigits2_bounds m Hm).
    assert (1 ≤ Zdigits2 m); [|lia].
    rewrite Zdigits2_log2 by done. pose proof (Z.log2_nonneg m). lia. }
  rewrite shr_fexp_normal by lia.
  simpl. unfold float_of_mantissa.
  replace (e + Z.max 0 (Zdigits2 m - 53) + Z.max 0 (Zdigits2 m2 - 53))
    with (e + (Z.max 0 (Zdigits2 m - 53) + Z.max 0 (Zdigits2 m2 - 53))) by lia.
  done.
Qed.

(** The rounded mantissa is positive and the exponent grows by at most one
    bit more than the excess of digits. *)
Lemma round_mantissa_bounds m l :
  0 < m →
  0 < (round_mantissa m l).1
  ∧ Z.max 0 (Zdigits2 m - 53) ≤ (round_mantissa m l).2
      ≤ Z.max 0 (Zdigits2 m - 53) + 1.
Proof.
  intros Hm. unfold round_mantissa.
  set (r1 := (shr (shr_record_of_loc m l) 0 (Zdigits2 m - 53)).1).
  set (m2 := round_nearest_even (shr_m r1) (loc_of_shr_record r1)).
  assert (shr_m r1 = m / 2 ^ Z.max 0 (Zdigits2 m - 53)) as Hr1.
  { unfold r1. rewrite shr_m_shift; rewrite shr_m_record_of_loc; [done|lia]. }
  pose proof (shifted_mantissa_bounds m Hm) as Hb. simpl in Hb. rewrite <- Hr1 in Hb.
  pose proof (round_nearest_even_bounds (shr_m r1) (loc_of_shr_record r1)) as Hm2.
  fold m2 in Hm2. simpl.
  assert (1 ≤ Zdigits2 m) as Hd
    by (rewrite Zdigits2_log2 by done; pose proof (Z.log2_nonneg m); lia).
  assert (0 < 2 ^ (Z.min (Zdigits2 m) 53 - 1)) as Hpos
    by (apply Z.pow_pos_nonneg; lia).
  assert (0 < m2) as Hm2pos by lia.
  assert (Zdigits2 m2 ≤ 54) as Hd2.
  { apply Zdigits2_lt_pow; [|lia]. split; [lia|].
    assert (2 ^ Z.min (Zdigits2 m) 53 ≤ 2 ^ 53)
      by (apply Z.pow_le_mono_r; lia).
    change (2 ^ 54) with (2 * 2 ^ 53). lia. }
  split; [|lia].
  rewrite shr_m_shift by (simpl; lia). simpl shr_m.
  pose proof (shifted_mantissa_bounds m2 Hm2pos) as Hb2. simpl in Hb2.
  assert (0 < 2 ^ (Z.min (Zdigits2 m2) 53 - 1)); [|lia].
  apply Z.pow_pos_nonneg; [lia|].
  assert (1 ≤ Zdigits2 m2); [|lia].
  rewrite Zdigits2_log2 by done. pose proof (Z.log2_nonneg m2). lia.
Qed.
End float_facts.

(** ** The order of the doubles *)

Section float_order.
Implicit Types (x y z : float64).

Lemma float_le_key x y :
  not_nan x → not_nan y → float_le x y = true ↔ key_le (float_key x) (float_key y).
Proof.
  intros Hx Hy. unfold float_le, SFleb, key_le.
  destruct x as [[]|[]| |[] mx ex], y as [[]|[]| |[] my ey]; try done;
    simpl; try (split; [intros _; lia|done]); try (split; [done|lia]).
  - change (Pos.compare_cont Eq mx my) with (Pos.compare mx my).
    destruct (Z.compare_spec ex ey), (Pos.compare_spec mx my); simpl;
      (split; [intros; try done; lia|intros; try done; lia]).
  - change (Pos.compare_cont Eq mx my) with (Pos.compare mx my).
    destruct (Z.compare_spec ex ey), (Pos.compare_spec mx my); simpl;
      (split; [intros; try done; lia|intros; try done; lia]).
Qed.

Lemma float_lt_key x y :
  not_nan x → not_nan y → float_lt x y = true ↔ key_lt (float_key x) (float_key y).
Proof.
  intros Hx Hy. unfold float_lt, SFltb, key_lt.
  destruct x as [[]|[]| |[] mx ex], y as [[]|[]| |[] my ey]; try done;
    simpl; try (split; [intros _; lia|done]); try (split; [done|lia]).
  - change (Pos.compare_cont Eq mx my) with (Pos.compare mx my).
    destruct (Z.compare_spec ex ey), (Pos.compare_spec mx my); simpl;
      (split; [intros; try done; lia|intros; try done; lia]).
  - change (Pos.compare_cont Eq mx my) with (Pos.compare mx my).
    destruct (Z.compare_spec ex ey), (Pos.compare_spec mx my); simpl;
      (split; [intros; try done; lia|intros; try done; lia]).
Qed.

Lemma float_key_same x y :
  not_nan x → not_nan y → float_key x = float_key y → float_same x y.
Proof.
  intros Hx Hy. unfold float_same.
  destruct x as [[]|[]| |[] mx ex], y as [[]|[]| |[] my ey]; try done;
    simpl; intros [=]; subst; auto.
  left. f_equal. lia.
Qed.

Lemma float_le_refl x : not_nan x → float_le x x = true.
Proof. intros Hx. apply float_le_key; [done..|]. unfold key_le. lia. Qed.

Lemma float_le_trans x y z :
  not_nan x → not_nan y → not_nan z →
  float_le x y = true → float_le y z = true → float_le x z = true.
Proof.
  intros Hx Hy Hz Hxy%float_le_key Hyz%float_le_key; [|done..].
  apply float_le_key; [done..|]. unfold key_le in *. lia.
Qed.

Lemma float_le_antisym x y :
  not_nan x → not_nan y →
  float_le x y = true → float_le y x = true → float_same x y.
Proof.
  intros Hx Hy Hxy%float_le_key Hyx%float_le_key; [|done..].
  apply float_key_same; [done..|].
  destruct (float_key x) as [[a b] c], (float_key y) as [[a' b'] c'].
  unfold key_le in *. simpl in *. f_equal; [f_equal|]; lia.
Qed.

Lemma float_lt_le x y :
  not_nan x → not_nan y → float_lt x y = true → float_le x y = true.
Proof.
  intros Hx Hy Hlt%float_lt_key; [|done..].
  apply float_le_key; [done..|]. unfold key_le, key_lt in *. lia.
Qed.

Lemma float_lt_false x y :
  not_nan x → not_nan y → float_lt x y = false → float_le y x = true.
Proof.
  intros Hx Hy Hlt. apply float_le_key; [done..|].
  assert (¬ key_lt (float_key x) (float_key y)) as Hn.
  { intros Hk%float_lt_key; [|done..]. congruence. }
  unfold key_le, key_lt in *. lia.
Qed.
End float_order.

(** ** Results of the operations *)

Section float_results.
Implicit Types (x y : float64) (m e : Z).

Lemma shr_nonneg (mrs : shr_record) e n : 0 ≤ shr_m mrs → 0 ≤ shr_m (shr mrs e n).1.
Proof.
  intros Hm. rewrite shr_split. simpl. rewrite shr_m_shift by done.
  apply Z.div_pos; [done|]. apply Z.pow_pos_nonneg; lia.
Qed.

(** Rounding a non-negative mantissa gives a zero, a finite double or an
    infinity of the sign requested. *)
Lemma binary_round_aux_sign s m e l :
  0 ≤ m →
  match binary_round_aux 53 1024 s m e l with
  | S754_zero s' | S754_infinity s' | S754_finite s' _ _ => s' = s
  | S754_nan => False
  end.
Proof.
  intros Hm. unfold binary_round_aux, shr_fexp.
  destruct (shr (shr_record_of_loc m l) e _) as [mrs' e'] eqn:H1.
  assert (0 ≤ shr_m mrs') as Hm'.
  { change mrs' with (mrs', e').1. rewrite <- H1. apply shr_nonneg.
    by rewrite shr_m_record_of_loc. }
  pose proof (round_nearest_even_bounds (shr_m mrs') (loc_of_shr_record mrs')) as Hr.
  destruct (shr (shr_record_of_loc _ loc_Exact) e' _) as [mrs'' e''] eqn:H2.
  assert (0 ≤ shr_m mrs'') as Hm''.
  { change mrs'' with (mrs'', e'').1. rewrite <- H2. apply shr_nonneg. simpl. lia. }
  destruct (shr_m mrs''); [done| |lia]. by destruct (_ <=? _).
Qed.

Lemma float_mul_not_nan x y :
  float_finite x = true → float_finite y = true → not_nan (float_mul x y).
Proof.
  unfold not_nan, float_mul.
  destruct x as [sx|sx| |sx mx ex], y as [sy|sy| |sy my ey]; try done. simpl.
  intros _ _ Hnan.
  pose proof (binary_round_aux_sign (xorb sx sy) (Zpos (mx * my)) (ex + ey) loc_Exact)
    as Hs.
  rewrite Hnan in Hs. apply Hs. lia.
Qed.

Lemma Pos_iter_xO (p d : positive) : Zpos (Pos.iter xO p d) = Zpos p * 2 ^ Zpos d.
Proof.
  induction d as [|d IH] using Pos.peano_ind.
  - simpl. lia.
  - rewrite Pos.iter_succ, Pos2Z.inj_xO, IH, Pos2Z.inj_succ, Z.pow_succ_r by lia. lia.
Qed.

Lemma shl_align_spec (p : positive) e e' :
  (shl_align p e e').2 = Z.min e e'
  ∧ Zpos (shl_align p e e').1 = Zpos p * 2 ^ (e - Z.min e e').
Proof.
  unfold shl_align. destruct (e' - e) as [|d|d] eqn:Hd; simpl.
  - rewrite Z.min_l by lia. rewrite Z.sub_diag. lia.
  - rewrite Z.min_l by lia. rewrite Z.sub_diag. lia.
  - rewrite Z.min_r by lia. split; [done|]. rewrite Pos_iter_xO. do 2 f_equal. lia.
Qed.

Lemma Zdigits2_mul_pow2 m k : 0 < m → 0 ≤ k → Zdigits2 (m * 2 ^ k) = Zdigits2 m + k.
Proof.
  intros Hm Hk. assert (0 < 2 ^ k) by (by apply Z.pow_pos_nonneg).
  rewrite !Zdigits2_log2 by lia. rewrite Z.log2_mul_pow2 by lia. lia.
Qed.

(** The conversion of an integer that is not too large is a number of its
    sign. *)
Lemma float_of_Z_finite z :
  float_convertible z →
  match z with
  | Z0 => float_of_Z z = S754_zero false
  | Zpos _ => ∃ (m : positive) e, float_of_Z z = S754_finite false m e
  | Zneg _ => ∃ (m : positive) e, float_of_Z z = S754_finite true m e
  end.
Proof.
  assert (∀ s (p : positive), Zpos p < 2 ^ 1023 →
            ∃ (m : positive) e, binary_round 53 1024 s p 0 = S754_finite s m e) as Hround.
  { intros s p Hp. unfold binary_round.
    set (d := Zpos (digits2_pos p)).
    assert (d = Zdigits2 (Zpos p)) as Hd by done.
    assert (1 ≤ d ≤ 1023) as Hrange.
    { split; [unfold d; lia|]. rewrite Hd. apply Zdigits2_lt_pow; lia. }
    pose proof (shl_align_spec p 0 (fexp 53 1024 (d + 0))) as [He Hmz].
    destruct (shl_align p 0 (fexp 53 1024 (d + 0))) as [mz ez]. simpl in He, Hmz.
    assert (fexp 53 1024 (d + 0) = d - 53) as Hfexp
      by (unfold fexp, emin; lia).
    rewrite Hfexp in He, Hmz.
    assert (Zdigits2 (Zpos mz) = d - ez) as Hdz.
    { rewrite Hmz, Zdigits2_mul_pow2 by lia. lia. }
    rewrite binary_round_aux_normal by lia.
    pose proof (round_mantissa_bounds (Zpos mz) loc_Exact) as [Hpos Hcarry]; [lia|].
    destruct (round_mantissa (Zpos mz) loc_Exact) as [m3 c]. simpl in *.
    unfold float_of_mantissa. destruct m3 as [|m3|m3]; [lia| |lia].
    destruct (Z.leb_spec (ez + c) 971); [by eexists _, _|lia]. }
  intros [Hlo Hhi]. destruct z as [|p|p]; [done| |].
  - apply Hround. lia.
  - apply Hround. lia.
Qed.

Lemma float_of_Z_is_finite z : float_convertible z → float_finite (float_of_Z z) = true.
Proof.
  intros Hz%float_of_Z_finite.
  destruct z; [by rewrite Hz|destruct Hz as (m & e & ->)..]; done.
Qed.

Lemma float_of_int_Ok z : float_convertible z → float_of_int z = Ok (float_of_Z z).
Proof.
  intros Hz%float_of_Z_is_finite. unfold float_of_int.
  by destruct (float_of_Z z).
Qed.

(** The operations do not see the sign of a zero operand, except in the
    sign of a zero result. *)
Lemma float_same_truediv x x' y :
  float_same x x' → float_same (float_truediv x y) (float_truediv x' y).
Proof.
  intros [->|[Hx Hx']]; [by left|].
  destruct x as [sx| | |]; try done. destruct x' as [sx'| | |]; try done.
  destruct y as [sy|sy| |sy my ey]; simpl; (by left) || (by right).
Qed.

Lemma float_same_floor x x' :
  float_same x x' → float_same (numpy_floor x) (numpy_floor x').
Proof.
  intros [->|[Hx Hx']]; [by left|].
  destruct x; try done. destruct x'; try done. by right.
Qed.

Lemma float_same_add_one x x' :
  float_same x x' → float_add x (float_of_Z 1) = float_add x' (float_of_Z 1).
Proof.
  intros [->|[Hx Hx']]; [done|].
  destruct x; try done. by destruct x'.
Qed.

Lemma float_same_py_int x x' : float_same x x' → py_int x = py_int x'.
Proof.
  intros [->|[Hx Hx']]; [done|].
  destruct x; try done. by destruct x'.
Qed.
End float_results.

(** ** Maxima, minima and array indexing *)

Section numeric_facts.
Lemma mapM_Ok {A B} (f : A → result B) (h : A → B) (l : list A) :
  (∀ x, x ∈ l → f x = Ok (h x)) → mapM f l = Ok (h <$> l).
Proof.
  induction l as [|a l IH]; intros Hf; simpl; [done|].
  rewrite (Hf a) by left. simpl. rewrite IH; [done|].
  intros x Hx. apply Hf. by right.
Qed.

Lemma numpy_getitem_in_range (a : list float64) (i : Z) :
  0 ≤ i < Z.of_nat (length a) →
  numpy_getitem a i = Ok (nth (Z.to_nat i) a S754_nan).
Proof.
  intros Hi. unfold numpy_getitem.
  destruct (Z.ltb_spec i 0) as [?|_]; [lia|].
  destruct (Z.leb_spec 0 i) as [_|?]; [|lia].
  destruct (Z.ltb_spec i (Z.of_nat (length a))) as [_|?]; [|lia]. simpl.
  destruct (a !! Z.to_nat i) as [t|] eqn:Ht.
  - simpl. f_equal. symmetry. by apply nth_lookup_Some with (d := S754_nan) in Ht.
  - apply lookup_ge_None in Ht. lia.
Qed.

Lemma nth_in_range (a : list float64) (i : Z) :
  0 ≤ i < Z.of_nat (length a) → nth (Z.to_nat i) a S754_nan ∈ a.
Proof.
  intros Hi. apply list_elem_of_In, nth_In. lia.
Qed.

Lemma fold_max_Z (l : list Z) (x : Z) :
  is_max_Z (fold_left (λ m y, if m <? y then y else m) l x) (x :: l).
Proof.
  revert x. induction l as [|y l IH]; intros x; simpl.
  - split; [left|]. intros z ->%list_elem_of_singleton. lia.
  - destruct (IH (if x <? y then y else x)) as [Hin Hmax]. split.
    + apply elem_of_cons in Hin as [->|Hin].
      * destruct (x <? y); [right; left|left].
      * right. by right.
    + intros z Hz.
      assert ((if x <? y then y else x) ≤
              fold_left (λ m y0, if m <? y0 then y0 else m) l
                (if x <? y then y else x)) as Hfirst by (apply Hmax; left).
      apply elem_of_cons in Hz as [->|[->|Hz]%elem_of_cons].
      * destruct (Z.ltb_spec x y); lia.
      * destruct (Z.ltb_spec x y); lia.
      * apply Hmax. by right.
Qed.

Lemma py_max_Z_spec (l : list Z) (m : Z) :
  is_max_Z m l → py_max_Z l = Ok m.
Proof.
  intros [Hin Hmax]. destruct l as [|x l]; [by apply elem_of_nil in Hin|].
  simpl. f_equal. destruct (fold_max_Z l x) as [Hin' Hmax'].
  apply Hmax in Hin'. apply Hmax' in Hin. lia.
Qed.

(** On doubles none of which is NaN, [max] and [min] return a greatest and
    a least element. *)
Lemma fold_max_float (l : list float64) (x : float64) :
  Forall not_nan (x :: l) →
  is_max_float (fold_left (λ m y, if float_lt m y then y else m) l x) (x :: l).
Proof.
  revert x. induction l as [|y l IH]; intros x Hnan; simpl.
  - apply Forall_cons in Hnan as [Hx _]. split; [left|].
    intros z ->%list_elem_of_singleton. by apply float_le_refl.
  - apply Forall_cons in Hnan as [Hx [Hy Hl]%Forall_cons].
    set (c := if float_lt x y then y else x).
    assert (not_nan c ∧ float_le x c = true ∧ float_le y c = true ∧ (c = x ∨ c = y))
      as (Hc & Hxc & Hyc & Hcxy).
    { unfold c. destruct (float_lt x y) eqn:Hxy.
      - split_and!; [done|by apply float_lt_le|by apply float_le_refl|by right].
      - split_and!; [done|by apply float_le_refl|by apply float_lt_false|by left]. }
    destruct (IH c) as [Hin Hmax]; [by constructor|]. split.
    + apply elem_of_cons in Hin as [->|Hin]; [|right; by right].
      destruct Hcxy as [->| ->]; [left|right; left].
    + set (r := fold_left _ l c) in *.
      assert (r ∈ c :: l) as Hrin by done.
      assert (not_nan r) as Hr.
      { apply elem_of_cons in Hrin as [->|Hrin]; [done|].
        by apply (proj1 (Forall_forall _ _) Hl). }
      assert (float_le c r = true) as Hfirst by (apply Hmax; left).
      intros z [->|[->|Hz]%elem_of_cons]%elem_of_cons.
      * by apply float_le_trans with c.
      * by apply float_le_trans with c.
      * apply Hmax. by right.
Qed.

Lemma fold_min_float (l : list float64) (x : float64) :
  Forall not_nan (x :: l) →
  is_min_float (fold_left (λ m y, if float_lt y m then y else m) l x) (x :: l).
Proof.
  revert x. induction l as [|y l IH]; intros x Hnan; simpl.
  - apply Forall_cons in Hnan as [Hx _]. split; [left|].
    intros z ->%list_elem_of_singleton. by apply float_le_refl.
  - apply Forall_cons in Hnan as [Hx [Hy Hl]%Forall_cons].
    set (c := if float_lt y x then y else x).
    assert (not_nan c ∧ float_le c x = true ∧ float_le c y = true ∧ (c = x ∨ c = y))
      as (Hc & Hxc & Hyc & Hcxy).
    { unfold c. destruct (float_lt y x) eqn:Hyx.
      - split_and!; [done|by apply float_lt_le|by apply float_le_refl|by right].
      - split_and!; [done|by apply float_le_refl|by apply float_lt_false|by left]. }
    destruct (IH c) as [Hin Hmin]; [by constructor|]. split.
    + apply elem_of_cons in Hin as [->|Hin]; [|right; by right].
      destruct Hcxy as [->| ->]; [left|right; left].
    + set (r := fold_left _ l c) in *.
      assert (r ∈ c :: l) as Hrin by done.
      assert (not_nan r) as Hr.
      { apply elem_of_cons in Hrin as [->|Hrin]; [done|].
        by apply (proj1 (Forall_forall _ _) Hl). }
      assert (float_le r c = true) as Hfirst by (apply Hmin; left).
      intros z [->|[->|Hz]%elem_of_cons]%elem_of_cons.
      * by apply float_le_trans with c.
      * by apply float_le_trans with c.
      * apply Hmin. by right.
Qed.

Lemma py_max_float_spec (l : list float64) (m : float64) :
  Forall not_nan l → is_max_float m l →
  ∃ m', py_max_float l = Ok m' ∧ float_same m' m.
Proof.
  intros Hnan [Hin Hmax]. destruct l as [|x l]; [by apply elem_of_nil in Hin|].
  eexists. split; [done|]. destruct (fold_max_float l x Hnan) as [Hin' Hmax'].
  apply float_le_antisym; [by apply (proj1 (Forall_forall _ _) Hnan)..| |].
  - by apply Hmax.
  - by apply Hmax'.
Qed.

Lemma py_min_float_spec (l : list float64) (m : float64) :
  Forall not_nan l → is_min_float m l →
  ∃ m', py_min_float l = Ok m' ∧ float_same m' m.
Proof.
  intros Hnan [Hin Hmin]. destruct l as [|x l]; [by apply elem_of_nil in Hin|].
  eexists. split; [done|]. destruct (fold_min_float l x Hnan) as [Hin' Hmin'].
  apply float_le_antisym; [by apply (proj1 (Forall_forall _ _) Hnan)..| |].
  - by apply Hmin'.
  - by apply Hmin.
Qed.

Lemma numpy_getitem_closed (a : list float64) (i : Z) :
  numpy_getitem a i
  = if valid_index (length a) i then Ok (item_at a i) else Raise IndexError.
Proof.
  unfold numpy_getitem, valid_index, item_at.
  set (k := if i <? 0 then Z.of_nat (length a) + i else i).
  destruct (Z.leb_spec 0 k) as [H0|?]; [|done].
  destruct (Z.ltb_spec k (Z.of_nat (length a))) as [Hn|?]; [|done]. simpl.
  destruct (a !! Z.to_nat k) as [t|] eqn:Ht.
  - simpl. f_equal. symmetry. by apply nth_lookup_Some with (d := S754_nan) in Ht.
  - apply lookup_ge_None in Ht. lia.
Qed.

Lemma item_at_elem_of (a : list float64) (i : Z) :
  valid_index (length a) i = true → item_at a i ∈ a.
Proof.
  unfold valid_index, item_at.
  set (k := if i <? 0 then Z.of_nat (length a) + i else i).
  intros [H0%Z.leb_le Hn%Z.ltb_lt]%andb_true_iff.
  apply list_elem_of_In, nth_In. lia.
Qed.

Lemma phys_time_in_grid grid p :
  in_grid grid p → float_convertible (time_index p) →
  phys_time grid p = Ok (float_time grid p).
Proof.
  intros Hp Ht. unfold phys_time, float_time, timescale.
  rewrite numpy_getitem_in_range by done. simpl.
  by rewrite float_of_int_Ok.
Qed.

(** On a grid of finite time scales no computed time is NaN. *)
Lemma float_time_not_nan grid p :
  grid_finite grid → in_grid grid p → float_convertible (time_index p) →
  not_nan (float_time grid p).
Proof.
  intros Hfin Hp Ht. apply float_mul_not_nan.
  - by apply float_of_Z_is_finite.
  - by apply Hfin, nth_in_range.
Qed.
End numeric_facts.

(** The common part of [span] and [shift_clusters_to_zero_index]. *)
Lemma max_scale_in_grid grid (pts : list GridPoint) (smax : Z) :
  (∀ p, p ∈ pts → in_grid grid p) →
  is_max_Z smax (scale_index <$> pts) →
  0 ≤ smax < Z.of_nat (length (timescales grid)).
Proof.
  intros Hgrid [(p & -> & Hp)%list_elem_of_fmap _]. by apply Hgrid.
Qed.

Lemma times_not_nan grid (pts : list GridPoint) :
  grid_finite grid →
  (∀ p, p ∈ pts → in_grid grid p ∧ float_convertible (time_index p)) →
  Forall not_nan (float_time grid <$> pts).
Proof.
  intros Hfin Hpts. apply Forall_fmap, Forall_forall. intros p Hp.
  destruct (Hpts p Hp). by apply float_time_not_nan.
Qed.

(** ** The claims about span and the time-zero shift *)

(** The end of [span] and of the shift do not see the sign of a zero. *)
Lemma span_end_same (x x' ts : float64) :
  float_same x x' →
  py_int (float_add (numpy_floor (float_truediv x ts)) (float_of_Z 1))
  = py_int (float_add (numpy_floor (float_truediv x' ts)) (float_of_Z 1)).
Proof.
  intros Hx. f_equal. by apply float_same_add_one, float_same_floor, float_same_truediv.
Qed.

Lemma floor_div_same (x x' ts : float64) :
  float_same x x' → floor_div x ts = floor_div x' ts.
Proof.
  intros Hx. by apply float_same_py_int, float_same_floor, float_same_truediv.
Qed.

(** [span] and the shift, once the extrema are known. *)
Lemma span_of_extrema (g : Graph) (grid : CoherentWaveBurstGrid)
    (smax : Z) (tmax : float64) :
  grid_finite grid →
  (∀ p, p ∈ sorted_list g → in_grid grid p ∧ float_convertible (time_index p)) →
  is_max_Z smax (scale_index <$> sorted_list g) →
  is_max_float tmax (float_time grid <$> sorted_list g) →
  span g grid
  = py_int (float_add (numpy_floor (float_truediv tmax (timescale grid smax)))
              (float_of_Z 1)).
Proof.
  intros Hfin Hgrid Hsmax Htmax. unfold span.
  assert (∀ p, p ∈ sorted_list g → in_grid grid p) as Hin
    by (intros p Hp; by apply Hgrid).
  pose proof (max_scale_in_grid _ _ _ Hin Hsmax) as Hrange.
  rewrite (py_max_Z_spec _ _ Hsmax). simpl.
  rewrite (mapM_Ok _ (float_time grid));
    [|intros p Hp; destruct (Hgrid p Hp); by apply phys_time_in_grid]. simpl.
  destruct (py_max_float_spec _ _ (times_not_nan _ _ Hfin Hgrid) Htmax)
    as (t & -> & Ht). simpl.
  rewrite numpy_getitem_in_range by done. simpl.
  by apply span_end_same.
Qed.

Lemma shift_of_extrema (clusters : list Cluster) (grid : CoherentWaveBurstGrid)
    (smax : Z) (tmin : float64) :
  grid_finite grid →
  (∀ p, p ∈ all_points clusters → in_grid grid p ∧ float_convertible (time_index p)) →
  is_max_Z smax (scale_index <$> all_points clusters) →
  is_min_float tmin (float_time grid <$> all_points clusters) →
  shift_clusters_to_zero_index clusters grid
  = index_shift ← floor_div tmin (timescale grid smax);
    Ok ((λ c, mkCluster (shift_point index_shift smax <$> grid_points c)
                (values c) (metadata c)) <$> clusters).
Proof.
  intros Hfin Hgrid Hsmax Htmin.
  assert (∀ p, p ∈ all_points clusters → in_grid grid p) as Hin
    by (intros p Hp; by apply Hgrid).
  pose proof (max_scale_in_grid _ _ _ Hin Hsmax) as Hrange.
  unfold shift_clusters_to_zero_index.
  rewrite (py_max_Z_spec _ _ Hsmax). simpl.
  rewrite (mapM_Ok _ (float_time grid));
    [|intros p Hp; destruct (Hgrid p Hp); by apply phys_time_in_grid]. simpl.
  destruct (py_min_float_spec _ _ (times_not_nan _ _ Hfin Hgrid) Htmin)
    as (t & -> & Ht). simpl.
  rewrite numpy_getitem_in_range by done. simpl.
  fold (timescale grid smax).
  rewrite (floor_div_same t tmin) by done.
  destruct (floor_div tmin _) as [sh| |]; [simpl|done..].
  by apply mapM_Ok.
Qed.



(** The rounding of the doubles shows in the result: with the time scale
    1/3 the node of time index 7 is found at [floor((7 * ts) / ts) = 6],
    so that [span] is 7 where the quotient of the exact product is 7 and
    its floor plus one is 8. *)
Lemma span_of_thirds :
  span (mkGraph ∅ ∅ ∅ [pG; pH]) third_grid = Ok 7
  ∧ Qfloor (time_of third_grid pH / timescale_at third_grid 0) + 1 = 8.
Proof. split; by vm_compute. Qed.

(** C7, as the specification states it, fails: a non-empty batch made of
    empty clusters has no point, and [max] of the empty sequence raises. *)
Lemma shift_of_empty_clusters_raises :
  [cluster_empty] ≠ []
  ∧ shift_clusters_to_zero_index [cluster_empty] dyadic_grid = Raise ValueError.
Proof. split; [done|reflexivity]. Qed.

(** C7, amended: for every batch that holds at least one point, all points
    indexing the grid's (finite) time scales,
    [shift_clusters_to_zero_index] returns the clusters with identical
    values and metadata, every point keeping its scale and frequency
    indices and having its [time_index] decreased by exactly
    [shift * 2^(scale_index_max - scale_index)], where
    [shift = floor(time_min / timescales[scale_index_max])], product and
    quotient being those of the doubles; when the shift is 0 the clusters
    are returned unchanged; when the quotient is not a number the
    conversion of its floor fails, and the function with it. *)
Theorem shift_formula (clusters : list Cluster) (grid : CoherentWaveBurstGrid)
    (scale_index_max : Z) (time_min : float64) :
  all_points clusters ≠ [] →
  grid_finite grid →
  (∀ p, p ∈ all_points clusters → in_grid grid p ∧ float_convertible (time_index p)) →
  is_max_Z scale_index_max (scale_index <$> all_points clusters) →
  is_min_float time_min (float_time grid <$> all_points clusters) →
  (∀ shift, floor_div time_min (timescale grid scale_index_max) = Ok shift →
     shift_clusters_to_zero_index clusters grid
     = Ok ((λ c,
              mkCluster
                ((λ p, mkGridPoint (scale_index p)
                         (time_index p - shift * 2 ^ (scale_index_max - scale_index p))
                         (freq_index p)) <$> grid_points c)
                (values c) (metadata c)) <$> clusters)
     ∧ (shift = 0 → shift_clusters_to_zero_index clusters grid = Ok clusters))
  ∧ (∀ e, floor_div time_min (timescale grid scale_index_max) = Raise e →
       shift_clusters_to_zero_index clusters grid = Raise e).
Proof.
  intros _ Hfin Hgrid Hsmax Htmin.
  pose proof (shift_of_extrema _ _ _ _ Hfin Hgrid Hsmax Htmin) as Heq.
  split.
  - intros shift Hshift. rewrite Heq, Hshift. simpl. split; [done|].
    intros ->. f_equal.
    rewrite <- (list_fmap_id clusters) at 2. apply list_fmap_ext.
    intros _ [pts vals md] _. simpl. f_equal.
    rewrite <- (list_fmap_id pts) at 2. apply list_fmap_ext.
    intros _ [s t f] _. unfold shift_point, replace_time_index. simpl.
    f_equal. lia.
  - intros e He. by rewrite Heq, He.
Qed.

Lemma shift_formula_witness :
  (∀ shift, floor_div (float_time dyadic_grid pF) (timescale dyadic_grid 2) = Ok shift →
     shift_clusters_to_zero_index [cluster_EF] dyadic_grid
     = Ok ((λ c,
              mkCluster
                ((λ p, mkGridPoint (scale_index p)
                         (time_index p - shift * 2 ^ (2 - scale_index p))
                         (freq_index p)) <$> grid_points c)
                (values c) (metadata c)) <$> [cluster_EF])
     ∧ (shift = 0 → shift_clusters_to_zero_index [cluster_EF] dyadic_grid
                    = Ok [cluster_EF]))
  ∧ (∀ e, floor_div (float_time dyadic_grid pF) (timescale dyadic_grid 2) = Raise e →
       shift_clusters_to_zero_index [cluster_EF] dyadic_grid = Raise e).
Proof.
  apply (shift_formula [cluster_EF] dyadic_grid 2 (float_time dyadic_grid pF)).
  - done.
  - intros t Ht. simpl in Ht.
    repeat (apply elem_of_cons in Ht as [->|Ht]); [done..|by apply elem_of_nil in Ht].
  - intros p Hp. simpl in Hp.
    repeat (apply elem_of_cons in Hp as [->|Hp]); [| |by apply elem_of_nil in Hp];
      unfold in_grid, float_convertible; simpl; lia.
  - split; [right; left|]. intros x Hx. simpl in Hx.
    repeat (apply elem_of_cons in Hx as [->|Hx]); [..|by apply elem_of_nil in Hx];
      simpl; lia.
  - split; [left|]. intros x Hx. simpl in Hx.
    repeat (apply elem_of_cons in Hx as [->|Hx]); [..|by apply elem_of_nil in Hx];
      by vm_compute.
Defined.

(** With the time scale 1/3 the shift of a cluster that starts at time
    index 7 is 6, not 7: the cluster is left at the time indices 1 and 2. *)
Lemma shift_of_thirds :
  shift_clusters_to_zero_index
    [mkCluster [pH; mkGridPoint 0 8 0] [1; 2]%Q "thirds"] third_grid
  = Ok [mkCluster [mkGridPoint 0 1 0; mkGridPoint 0 2 0] [1; 2]%Q "thirds"].
Proof. by vm_compute. Qed.

(** An array is built when every index of the tuples fits its field. *)
Lemma to_numpyarray_closed (c : Cluster) :
  to_numpyarray c
  = if forallb (λ pv, point_int64 pv.1) (zip (grid_points c) (values c))
    then Ok ((λ pv : GridPoint * Q,
                mkRow (scale_index pv.1) (time_index pv.1) (freq_index pv.1) pv.2)
               <$> zip (grid_points c) (values c))
    else Raise OverflowError.
Proof.
  unfold to_numpyarray. induction (zip (grid_points c) (values c)) as [|pv l IH];
    [done|].
  simpl. rewrite IH. unfold to_row. destruct (point_int64 pv.1); simpl; [|done].
  by destruct (forallb _ l).
Qed.

(** C10: [reject_pixels_at_zero_freq] never returns a cluster.  Indexing
    the tuple [self.grid_points] with the boolean array raises [TypeError]
    (and the call of [Cluster] that would follow lacks [metadata]); when an
    index of the cluster does not fit the 64-bit array, building the array
    has raised [OverflowError] before that. *)
Theorem reject_pixels_always_raises (self : Cluster) :
  reject_pixels_at_zero_freq self
  = Raise (if forallb (λ pv, point_int64 pv.1) (zip (grid_points self) (values self))
           then TypeError else OverflowError)
  ∧ (∀ pts vals, Cluster_new pts vals None = Raise TypeError).
Proof.
  split; [|done]. unfold reject_pixels_at_zero_freq.
  rewrite to_numpyarray_closed. by destruct (forallb _ _).
Qed.

(** ** Further properties of [Graph.__init__] *)

Section init_facts.
Implicit Types (st : build_state) (c : Cluster).

Lemma build_cluster_node_head st c st' :
  build_cluster st c = Ok st' →
  st_node st' = match tail (grid_points c) with
                | [] => st_node st
                | l => last l
                end
  ∧ st_head_nodes st' =
      st_head_nodes st ∪ match grid_points c, st_node st' with
                         | _ :: _, Some n => {[n]}
                         | _, _ => ∅
                         end.
Proof.
  unfold build_cluster. destruct (grid_points c) as [|p l] eqn:Hpts.
  - intros [= <-]. simpl. split; [done|]. by rewrite union_empty_r_L.
  - destruct (pairs_loop_chain l p (<[p:=∅]> (st_graph st)) (st_node st))
      as (_ & _ & Hnode).
    destruct (pairs_loop _ _ _) as [g1 node]. simpl in Hnode.
    destruct node as [n|]; [|done]. intros [= <-]. simpl. split; [by destruct l|done].
Qed.

Lemma build_cluster_bound_node st c n :
  st_node st = Some n → ∃ st', build_cluster st c = Ok st' ∧ is_Some (st_node st').
Proof.
  intros Hn. unfold build_cluster. destruct (grid_points c) as [|p l].
  - exists st. by rewrite Hn.
  - destruct (pairs_loop_chain l p (<[p:=∅]> (st_graph st)) (st_node st))
      as (_ & _ & Hnode).
    destruct (pairs_loop _ _ _) as [g1 node]. simpl in Hnode.
    assert (is_Some node) as [n' ->].
    { rewrite Hnode. destruct l as [|q l]; [by rewrite Hn|].
      destruct (last_is_Some (q :: l)) as [_ H]. by apply H. }
    by eexists.
Qed.

Lemma build_clusters_bound_node clusters : ∀ st n,
  st_node st = Some n → ∃ st', build_clusters st clusters = Ok st'.
Proof.
  induction clusters as [|c cs IH]; intros st n Hn; simpl; [by eexists|].
  destruct (build_cluster_bound_node st c n Hn) as (st1 & -> & [n1 Hn1]).
  simpl. by apply (IH st1 n1).
Qed.

Lemma build_clusters_unbound_node clusters : ∀ st,
  st_node st = None →
  if starts_with_single_point clusters
  then build_clusters st clusters = Raise UnboundLocalError
  else ∃ st', build_clusters st clusters = Ok st'.
Proof.
  induction clusters as [|c cs IH]; intros st Hn; simpl; [by eexists|].
  unfold build_cluster. destruct (grid_points c) as [|p [|q l]] eqn:Hpts.
  - simpl. by apply IH.
  - simpl. by rewrite Hn.
  - destruct (pairs_loop_chain (q :: l) p (<[p:=∅]> (st_graph st)) (st_node st))
      as (_ & _ & Hnode).
    destruct (pairs_loop _ _ _) as [g1 node]. simpl in Hnode.
    assert (is_Some node) as [n' ->].
    { rewrite Hnode. destruct (last_is_Some (q :: l)) as [_ H]. by apply H. }
    simpl. by eapply build_clusters_bound_node.
Qed.

Lemma build_cluster_heads st c st' :
  build_cluster st c = Ok st' → node_is_head st →
  node_is_head st'
  ∧ ∀ h, h ∈ st_head_nodes st' ↔
      h ∈ st_head_nodes st
      ∨ ((2 ≤ length (grid_points c))%nat ∧ last (grid_points c) = Some h).
Proof.
  intros [Hnode Hheads]%build_cluster_node_head Hinv. unfold node_is_head in *.
  destruct (grid_points c) as [|p [|q l]] eqn:Hpts; simpl in *.
  - rewrite union_empty_r_L in Hheads. rewrite Hheads, Hnode. split; [done|].
    intros h. split; [by left|]. intros [?|[? _]]; [done|lia].
  - rewrite Hnode in Hheads. rewrite Hnode, Hheads.
    destruct (st_node st) as [n0|] eqn:Hn0.
    + split.
      * intros n [= <-]. apply elem_of_union_l. by apply Hinv.
      * intros h. rewrite elem_of_union, elem_of_singleton. split.
        -- intros [?| ->]; left; [done|by apply Hinv].
        -- intros [?|[? _]]; [by left|lia].
    + rewrite union_empty_r_L. split; [done|].
      intros h. split; [by left|]. intros [?|[? _]]; [done|lia].
  - destruct (last_is_Some (q :: l)) as [_ [n Hlast]]; [done|].
    change (last (p :: q :: l)) with (last (q :: l)).
    rewrite Hnode in Hheads. rewrite Hnode, Hheads, Hlast. split.
    + intros n' [= <-]. apply elem_of_union_r. by apply elem_of_singleton.
    + intros h. rewrite elem_of_union, elem_of_singleton. split.
      * intros [?| ->]; [by left|right]. split; [lia|done].
      * intros [?|[_ [= ->]]]; [by left|by right].
Qed.

Lemma build_clusters_heads clusters : ∀ st st',
  build_clusters st clusters = Ok st' → node_is_head st →
  ∀ h, h ∈ st_head_nodes st' ↔ h ∈ st_head_nodes st ∨ ends_long_cluster clusters h.
Proof.
  induction clusters as [|c cs IH]; intros st st'; simpl.
  - intros [= <-] _ h. split; [by left|].
    intros [?|(c & Hc & _)]; [done|by apply elem_of_nil in Hc].
  - destruct (build_cluster st c) as [st1| |] eqn:Hc; [|done..]. simpl.
    intros Hcs Hinv h.
    destruct (build_cluster_heads _ _ _ Hc Hinv) as [Hinv1 Hh1].
    rewrite (IH _ _ Hcs Hinv1), Hh1. unfold ends_long_cluster. split.
    + intros [[?|[? ?]]|(c' & Hc' & ?)]; [by left| |].
      * right. exists c. split; [left|done].
      * right. exists c'. split; [by right|done].
    + intros [?|(c' & [->|Hc']%elem_of_cons & ?)].
      * left. by left.
      * left. by right.
      * right. by exists c'.
Qed.

Lemma build_clusters_edges clusters : ∀ st st' a n,
  build_clusters st clusters = Ok st' →
  anc_edge (st_graph st') a n ↔
    (anc_edge (st_graph st) a n
     ∧ ∀ c, c ∈ clusters → head (grid_points c) ≠ Some n)
    ∨ surviving_edge clusters a n.
Proof.
  induction clusters as [|c cs IH]; intros st st' a n; simpl.
  - intros [= <-]. split.
    + intros ?. left. split; [done|]. by intros c ?%elem_of_nil.
    + intros [[? _]|(pre & c & post & Heq & _)]; [done|]. by destruct pre.
  - destruct (build_cluster st c) as [st1| |] eqn:Hc; [|done..]. simpl.
    intros Hcs. rewrite (IH _ _ _ _ Hcs).
    destruct (build_cluster_Ok _ _ _ Hc) as [_ Hedge]. rewrite Hedge. split.
    + intros [[[[Ha Hn]|Hp] Hcs']|(pre & c' & post & -> & Hp & Hpost)].
      * left. split; [done|]. intros c' [->|?]%elem_of_cons; [congruence|by apply Hcs'].
      * right. by exists [], c, cs.
      * right. by exists (c :: pre), c', post.
    + intros [[Ha Hall]|(pre & c' & post & Heq & Hp & Hpost)].
      * left. split; [|intros c' ?; apply Hall; by right].
        left. split; [done|]. intros Hh. by apply (Hall c); [left|].
      * destruct pre as [|c0 pre]; simpl in Heq; injection Heq as -> ->.
        -- left. split; [by right|done].
        -- right. by exists pre, c', post.
Qed.
End init_facts.

(** X1: the constructor returns a graph unless the first cluster that holds
    a point holds exactly one; in that case it raises [UnboundLocalError],
    whatever follows. *)
Theorem Graph_init_returns_iff
    (order : set_order) (numpy_mean numpy_std : list Q → Q)
    (clusters : list Cluster) :
  if starts_with_single_point clusters
  then Graph_init order numpy_mean numpy_std clusters = Raise UnboundLocalError
  else ∃ g, Graph_init order numpy_mean numpy_std clusters = Ok g.
Proof.
  pose proof (build_clusters_unbound_node clusters init_state eq_refl) as Hb.
  destruct (starts_with_single_point clusters).
  - unfold Graph_init. by rewrite Hb.
  - destruct Hb as [st Hst].
    destruct (Graph_init_of_build order numpy_mean numpy_std _ _ Hst) as (g & ? & _).
    by exists g.
Qed.

(** X2: the head nodes of the graph are exactly the last points of the
    clusters that have at least two points.  (A one-point cluster never
    contributes its own point: it re-registers the last point of the
    previous longer cluster.) *)
Theorem head_nodes_are_last_points
    (order : set_order) (numpy_mean numpy_std : list Q → Q)
    (clusters : list Cluster) (g : Graph) (h : GridPoint) :
  Graph_init order numpy_mean numpy_std clusters = Ok g →
  h ∈ head_nodes g ↔ ends_long_cluster clusters h.
Proof.
  intros (st & Hst & _ & _ & -> & _)%Graph_init_inv.
  rewrite (build_clusters_heads _ _ _ Hst); [|by intros n [=]].
  simpl. split; [intros [?%not_elem_of_empty|?]; done|by right].
Qed.

Lemma head_nodes_are_last_points_witness :
  ∃ g, Graph_init elements_order Qmean Qstd
         [cluster_AB; mkCluster [pC] [5%Q] "single"] = Ok g
    ∧ (pB ∈ head_nodes g ↔
       ends_long_cluster [cluster_AB; mkCluster [pC] [5%Q] "single"] pB).
Proof.
  eexists. split; [vm_compute; reflexivity|].
  apply (head_nodes_are_last_points elements_order Qmean Qstd).
  vm_compute; reflexivity.
Defined.

(** X3: the keys of the ancestor map, and the elements of [sorted_list],
    are exactly the points that occur in the clusters, and every ancestor
    of a node is itself a key. *)
Theorem graph_nodes_are_cluster_points
    (order : set_order) (numpy_mean numpy_std : list Q → Q)
    (clusters : list Cluster) (g : Graph) :
  Graph_init order numpy_mean numpy_std clusters = Ok g →
  dom (graph g) = list_to_set (all_points clusters)
  ∧ (∀ p, p ∈ sorted_list g ↔ ∃ c, c ∈ clusters ∧ p ∈ grid_points c)
  ∧ (∀ a n, a ∈ ancestors_of (graph g) n → a ∈ dom (graph g)).
Proof.
  intros Hg.
  pose proof (Graph_init_outcome order numpy_mean numpy_std clusters) as Hout.
  rewrite Hg in Hout. destruct Hout as (_ & Hin & _).
  apply Graph_init_inv in Hg as (st & Hst & Hgraph & _).
  destruct (build_clusters_Ok _ _ _ Hst) as (Hdom & _).
  apply build_graph_edges in Hst as (Hcl & _). rewrite <- Hgraph in *.
  assert (dom (graph g) = list_to_set (all_points clusters)) as Hkeys.
  { rewrite Hdom. simpl. rewrite dom_empty_L. by rewrite union_empty_l_L. }
  split_and!; [done| |done].
  intros p. rewrite Hin, Hkeys, elem_of_list_to_set. unfold all_points.
  rewrite list_elem_of_bind. naive_solver.
Qed.

Lemma graph_nodes_are_cluster_points_witness :
  ∃ g, Graph_init elements_order Qmean Qstd [cluster_ABC; cluster_ABD] = Ok g
    ∧ dom (graph g) = list_to_set (all_points [cluster_ABC; cluster_ABD])
    ∧ (∀ p, p ∈ sorted_list g ↔
         ∃ c, c ∈ [cluster_ABC; cluster_ABD] ∧ p ∈ grid_points c)
    ∧ (∀ a n, a ∈ ancestors_of (graph g) n → a ∈ dom (graph g)).
Proof.
  eexists. split; [vm_compute; reflexivity|].
  apply (graph_nodes_are_cluster_points elements_order Qmean Qstd).
  vm_compute; reflexivity.
Defined.

(** X4: [a] is an ancestor of [n] in the built map exactly when [a]
    directly precedes [n] in some cluster and no later cluster starts with
    [n] (a later cluster that starts with [n] resets the set of [n]). *)
Theorem ancestors_are_surviving_edges
    (order : set_order) (numpy_mean numpy_std : list Q → Q)
    (clusters : list Cluster) (g : Graph) (a n : GridPoint) :
  Graph_init order numpy_mean numpy_std clusters = Ok g →
  a ∈ ancestors_of (graph g) n ↔ surviving_edge clusters a n.
Proof.
  intros (st & Hst & -> & _)%Graph_init_inv.
  change (a ∈ ancestors_of (st_graph st) n) with (anc_edge (st_graph st) a n).
  rewrite (build_clusters_edges _ _ _ a n Hst). split; [|by right].
  intros [[Ha _]|?]; [|done]. by apply ancestors_closed_empty in Ha.
Qed.

Lemma ancestors_are_surviving_edges_witness :
  ∃ g, Graph_init elements_order Qmean Qstd [cluster_AB; cluster_BC] = Ok g
    ∧ (pA ∈ ancestors_of (graph g) pB ↔
       surviving_edge [cluster_AB; cluster_BC] pA pB).
Proof.
  eexists. split; [vm_compute; reflexivity|].
  apply (ancestors_are_surviving_edges elements_order Qmean Qstd).
  vm_compute; reflexivity.
Defined.

(** ** The serialiser [Graph.__str__] *)

Section str_facts.
Context (order : set_order) (g : Graph) (grid : CoherentWaveBurstGrid).

Lemma numpy_getitem_int_in_range (a : list Z) (i : Z) :
  0 ≤ i < Z.of_nat (length a) → ∃ x, numpy_getitem_int a i = Ok x.
Proof.
  intros Hi. unfold numpy_getitem_int.
  destruct (Z.ltb_spec i 0) as [?|_]; [lia|].
  destruct (Z.leb_spec 0 i) as [_|?]; [|lia].
  destruct (Z.ltb_spec i (Z.of_nat (length a))) as [_|?]; [|lia]. simpl.
  destruct (a !! Z.to_nat i) as [t|] eqn:Ht; [by eexists|].
  apply lookup_ge_None in Ht. lia.
Qed.

Lemma phys_coords_in_grid p :
  in_full_grid grid p → convertible_point p → ∃ xyz, phys_coords p grid = Ok xyz.
Proof.
  intros [Hts Hexp] [Ht Hf]. unfold phys_coords.
  destruct (numpy_getitem_int_in_range _ _ Hexp) as [s ->]. simpl.
  rewrite numpy_getitem_in_range by done. simpl.
  rewrite !float_of_int_Ok by done. simpl. by eexists.
Qed.

Lemma dict_getitem_Some {V} (d : gmap GridPoint V) k v :
  d !! k = Some v → dict_getitem d k = Returns v.
Proof. unfold dict_getitem. by intros ->. Qed.

Lemma dict_getitem_Returns {V} (d : gmap GridPoint V) k v :
  dict_getitem d k = Returns v → d !! k = Some v.
Proof. unfold dict_getitem. destruct (d !! k); [by intros [= ->]|done]. Qed.

Lemma mapO_getitem_Returns (node_IDs : gmap GridPoint nat) (ancs : list GridPoint) :
  (∀ a, a ∈ ancs → is_Some (node_IDs !! a)) →
  ∃ ks, mapO (dict_getitem node_IDs) ancs = Returns ks
    ∧ Forall2 (λ k a, node_IDs !! a = Some k) ks ancs.
Proof.
  induction ancs as [|a ancs IH]; intros Hall; simpl.
  - exists []. by split.
  - destruct (Hall a) as [k Hk]; [left|]. rewrite (dict_getitem_Some _ _ _ Hk). simpl.
    destruct IH as (ks & -> & Hks); [intros; apply Hall; by right|]. simpl.
    exists (k :: ks). split; [done|]. by constructor.
Qed.

Lemma mapO_getitem_inv (node_IDs : gmap GridPoint nat) (ancs : list GridPoint) ks :
  mapO (dict_getitem node_IDs) ancs = Returns ks →
  ∀ a, a ∈ ancs → is_Some (node_IDs !! a).
Proof.
  revert ks. induction ancs as [|a ancs IH]; intros ks; simpl.
  - by intros _ a ?%elem_of_nil.
  - destruct (dict_getitem node_IDs a) as [k| |] eqn:Hk; [|done..]. simpl.
    apply dict_getitem_Returns in Hk.
    destruct (mapO _ ancs) as [ks'| |] eqn:Hks; [|done..]. simpl. intros _.
    intros b [->|Hb]%elem_of_cons; [by eexists|]. by apply (IH ks').
Qed.

Lemma IDs_of_prefix_insert node_IDs pre node :
  IDs_of_prefix node_IDs pre →
  IDs_of_prefix (<[node := length pre]> node_IDs) (pre ++ [node]).
Proof.
  intros Hinv a k. destruct (decide (a = node)) as [->|Hne].
  - rewrite lookup_insert_eq. intros [= <-]. by rewrite list_lookup_middle.
  - rewrite lookup_insert_ne by done. intros Hk%Hinv.
    by apply lookup_app_l_Some.
Qed.

Lemma covers_insert (node_IDs : gmap GridPoint nat) pre node k :
  (∀ a, a ∈ pre → is_Some (node_IDs !! a)) →
  ∀ a, a ∈ pre ++ [node] → is_Some (<[node := k]> node_IDs !! a).
Proof.
  intros Hcov a Ha. destruct (decide (a = node)) as [->|Hne].
  - rewrite lookup_insert_eq. by eexists.
  - rewrite lookup_insert_ne by done. apply Hcov.
    apply elem_of_app in Ha as [?|?%list_elem_of_singleton]; done.
Qed.

(** The loop succeeds and describes every node, given statistics and grid
    coordinates for every node and a topological [sorted_list]. *)
Lemma str_loop_Returns nodes : ∀ pre node_IDs,
  sorted_list g = pre ++ nodes →
  IDs_of_prefix node_IDs pre →
  (∀ a, a ∈ pre → is_Some (node_IDs !! a)) →
  topological_order (anc_edge (graph g)) (sorted_list g) →
  (∀ p, p ∈ nodes →
     is_Some (point_info g !! p) ∧ in_full_grid grid p ∧ convertible_point p) →
  ∃ lines, str_loop order g grid nodes (length pre) node_IDs = Returns lines
    ∧ length lines = length nodes
    ∧ ∀ j node, nodes !! j = Some node →
        ∃ line, lines !! j = Some line
          ∧ describes order g (length pre + j) node line.
Proof.
  induction nodes as [|node rest IH]; intros pre node_IDs Hl Hids Hcov Htopo Hok.
  - exists []. split_and!; [done..|]. by intros j node [=].
  - simpl. destruct (Hok node) as ([info Hinfo] & Hgrid & Hconv); [left|].
    rewrite (dict_getitem_Some _ _ _ Hinfo). simpl.
    assert (sorted_list g !! length pre = Some node) as Hnode
      by (rewrite Hl; apply list_lookup_middle; done).
    destruct (mapO_getitem_Returns node_IDs (order (ancestors_of (graph g) node)))
      as (ks & -> & Hks).
    { intros a Ha%order_elem_of. apply Hcov.
      destruct (Htopo _ _ a Hnode Ha) as (i & Hi & Hai).
      rewrite Hl, lookup_app_l in Hai by done. by eapply list_elem_of_lookup_2. }
    simpl. destruct (phys_coords_in_grid node Hgrid Hconv) as [xyz ->]. simpl.
    destruct (IH (pre ++ [node]) (<[node := length pre]> node_IDs))
      as (lines & Hlines & Hlen & Hdesc).
    { by rewrite <- app_assoc. }
    { by apply IDs_of_prefix_insert. }
    { by apply covers_insert. }
    { done. }
    { intros p Hp. apply Hok. by right. }
    rewrite length_app in Hlines. simpl in Hlines.
    rewrite Nat.add_1_r in Hlines. rewrite Hlines. simpl.
    eexists. split; [done|]. split; [simpl; by rewrite Hlen|].
    intros [|j] node' Hj; simpl in Hj.
    + injection Hj as <-. eexists. split; [done|].
      rewrite Nat.add_0_r. unfold describes. simpl. split_and!; [done..| | | |].
      * by exists info.
      * by destruct (decide (node ∈ head_nodes g)).
      * by destruct (decide (node ∈ head_nodes g)).
      * eapply Forall2_impl; [exact Hks|]. intros k a Hk. simpl in Hk.
        apply Hids in Hk. split; [by eapply lookup_lt_Some|].
        rewrite Hl. by apply lookup_app_l_Some.
    + destruct (Hdesc j node' Hj) as (line & Hline & Hd).
      exists line. split; [done|].
      rewrite length_app in Hd. simpl in Hd.
      by replace (length pre + S j)%nat with (length pre + 1 + j)%nat by lia.
Qed.

(** If the loop returns, every ancestor of a node was written before it. *)
Lemma str_loop_topological nodes : ∀ pre node_IDs lines,
  sorted_list g = pre ++ nodes →
  IDs_of_prefix node_IDs pre →
  str_loop order g grid nodes (length pre) node_IDs = Returns lines →
  ∀ j node a, nodes !! j = Some node → anc_edge (graph g) a node →
    ∃ i, (i < length pre + j)%nat ∧ sorted_list g !! i = Some a.
Proof.
  induction nodes as [|node rest IH]; intros pre node_IDs lines Hl Hids Hloop;
    [by intros j node a [=]|].
  simpl in Hloop.
  destruct (dict_getitem (point_info g) node) as [info| |]; [|done..].
  simpl in Hloop.
  destruct (mapO _ _) as [ks| |] eqn:Hks; [|done..]. simpl in Hloop.
  destruct (of_result _) as [xyz| |]; [|done..]. simpl in Hloop.
  destruct (str_loop _ _ _ rest _ _) as [lines'| |] eqn:Hrest; [|done..].
  intros [|j] node' a Hj Ha; simpl in Hj.
  - injection Hj as <-.
    destruct (mapO_getitem_inv _ _ _ Hks a) as [k Hk]; [by apply order_elem_of|].
    apply Hids in Hk. exists k. split.
    + apply lookup_lt_Some in Hk. lia.
    + rewrite Hl. by apply lookup_app_l_Some.
  - destruct (IH (pre ++ [node]) (<[node := length pre]> node_IDs) lines')
      with (j := j) (node := node') (a := a) as (i & Hi & Hai);
      [by rewrite <- app_assoc|by apply IDs_of_prefix_insert| |done|done|].
    + rewrite length_app. simpl. by rewrite Nat.add_1_r.
    + exists i. split; [|done]. rewrite length_app in Hi. simpl in Hi. lia.
Qed.

Lemma Graph_str_topological lines :
  Graph_str order g grid = Returns lines →
  topological_order (anc_edge (graph g)) (sorted_list g).
Proof.
  intros Hstr j node a Hj Ha.
  by apply (str_loop_topological (sorted_list g) [] ∅ lines) with (node := node).
Qed.
End str_facts.

Lemma received_in_nonempty (P : GridPoint) (pts : list GridPoint) (vals : list Q) :
  P ∈ pts → (length pts ≤ length vals)%nat → received_in P (zip pts vals) ≠ [].
Proof.
  revert vals. induction pts as [|p pts IH]; intros vals HP Hlen;
    [by apply elem_of_nil in HP|].
  destruct vals as [|v vals]; simpl in Hlen; [lia|]. simpl.
  rewrite received_in_cons. destruct (decide (p = P)) as [->|Hne]; [done|].
  apply elem_of_cons in HP as [->|HP]; [done|]. apply IH; [done|lia].
Qed.

Lemma received_values_nonempty clusters c P :
  c ∈ clusters → P ∈ grid_points c →
  (length (grid_points c) ≤ length (values c))%nat →
  received_values clusters P ≠ [].
Proof.
  intros Hc HP Hlen Hnil.
  apply (received_in_nonempty P (grid_points c) (values c) HP Hlen).
  unfold received_values in Hnil.
  destruct (received_in P (zip (grid_points c) (values c))) as [|v r] eqn:Hr; [done|].
  assert (v ∈ clusters ≫= (λ c, received_in P (zip (grid_points c) (values c)))) as Hv.
  { apply list_elem_of_bind. exists c. split; [|done]. rewrite Hr. left. }
  rewrite Hnil in Hv. by apply elem_of_nil in Hv.
Qed.

(** X5: for a graph built from clusters whose unioned edges are acyclic,
    each cluster having a value for every point and each point indexing the
    grid with time and frequency indices that convert to doubles,
    [Graph.__str__] raises nothing and writes one line per node of
    [sorted_list], numbered from 0 in that order, with the node's indices
    and statistics, the flag 1 exactly for head nodes, and as ancestor IDs
    the IDs of earlier lines, those of the node's ancestors. *)
Theorem Graph_str_of_built_graph
    (order order' : set_order) (numpy_mean numpy_std : list Q → Q)
    (clusters : list Cluster) (g : Graph) (grid : CoherentWaveBurstGrid) :
  Graph_init order numpy_mean numpy_std clusters = Ok g →
  acyclic (cluster_edge clusters) →
  (∀ c, c ∈ clusters → (length (grid_points c) ≤ length (values c))%nat) →
  (∀ p, p ∈ all_points clusters → in_full_grid grid p ∧ convertible_point p) →
  ∃ lines, Graph_str order' g grid = Returns lines
    ∧ length lines = length (sorted_list g)
    ∧ ∀ i node, sorted_list g !! i = Some node →
        ∃ line, lines !! i = Some line ∧ describes order' g i node line.
Proof.
  intros Hg Hacyc Hvals Hgrid.
  pose proof (Graph_init_outcome order numpy_mean numpy_std clusters) as Hout.
  rewrite Hg in Hout. destruct Hout as (_ & Hin & _).
  apply Graph_init_inv in Hg as (st & Hst & Hgraph & Hinfo & _ & Hsort).
  destruct (build_clusters_Ok _ _ _ Hst) as (Hdom & _).
  pose proof (build_graph_edges _ _ Hst) as (Hcl & Hedge & _).
  rewrite <- Hgraph in *.
  assert (topological_order (anc_edge (graph g)) (sorted_list g)) as Htopo.
  { apply (topological_sorting_ordered order); [|done..].
    by apply (acyclic_subrel (cluster_edge clusters)). }
  apply (str_loop_Returns order' g grid (sorted_list g) [] ∅); [done|done| |done|].
  { by intros a ?%elem_of_nil. }
  intros p Hp%Hin. rewrite Hdom in Hp. simpl in Hp.
  rewrite dom_empty_L, union_empty_l_L, elem_of_list_to_set in Hp.
  split; [|by apply Hgrid].
  apply list_elem_of_bind in Hp as (c & Hpc & Hc).
  rewrite Hinfo, lookup_fmap, (build_clusters_values _ _ _ p Hst). simpl.
  rewrite lookup_empty.
  pose proof (received_values_nonempty clusters c p Hc Hpc (Hvals c Hc)) as Hne.
  by destruct (received_values clusters p).
Qed.

Lemma Graph_str_of_built_graph_witness :
  ∃ g, Graph_init elements_order Qmean Qstd [cluster_ABC; cluster_ABD] = Ok g
    ∧ ∃ lines, Graph_str reversed_order g dyadic_grid = Returns lines
        ∧ length lines = length (sorted_list g)
        ∧ ∀ i node, sorted_list g !! i = Some node →
            ∃ line, lines !! i = Some line ∧ describes reversed_order g i node line.
Proof.
  eexists. split; [vm_compute; reflexivity|].
  apply (Graph_str_of_built_graph elements_order reversed_order Qmean Qstd
           [cluster_ABC; cluster_ABD]).
  - vm_compute; reflexivity.
  - exact example_acyclic.
  - intros c Hc.
    repeat (apply elem_of_cons in Hc as [->|Hc]); [..|by apply elem_of_nil in Hc];
      simpl; lia.
  - intros p Hp. cbn in Hp.
    repeat (apply elem_of_cons in Hp as [->|Hp]); [..|by apply elem_of_nil in Hp];
      unfold in_full_grid, convertible_point, float_convertible; simpl; lia.
Defined.

(** X6: a built graph whose ancestor map has a cycle is never written out:
    [Graph.__str__] raises (some ancestor has no ID yet when its descendant
    is reached) for every grid and every iteration order. *)
Theorem cyclic_graph_is_never_written
    (order order' : set_order) (numpy_mean numpy_std : list Q → Q)
    (clusters : list Cluster) (g : Graph) (grid : CoherentWaveBurstGrid)
    (lines : list node_line) :
  Graph_init order numpy_mean numpy_std clusters = Ok g →
  cyclic (anc_edge (graph g)) →
  Graph_str order' g grid ≠ Returns lines.
Proof.
  intros Hg [x Hx] Hstr.
  pose proof (Graph_init_outcome order numpy_mean numpy_std clusters) as Hout.
  rewrite Hg in Hout. destruct Hout as (_ & Hin & _).
  apply Graph_str_topological in Hstr.
  apply (cyclic_not_topological _ (sorted_list g) x Hx); [|done].
  apply Hin. destruct (tc_last_edge _ _ _ Hx) as [z Hz].
  unfold anc_edge, ancestors_of in Hz. apply elem_of_dom.
  destruct (graph g !! x); [done|]. by apply not_elem_of_empty in Hz.
Qed.

Lemma cyclic_graph_is_never_written_witness :
  ∃ g, Graph_init elements_order Qmean Qstd [cluster_ABA] = Ok g
    ∧ cyclic (anc_edge (graph g))
    ∧ Graph_str elements_order g dyadic_grid ≠ Returns [].
Proof.
  eexists. split; [vm_compute; reflexivity|].
  assert (cyclic (anc_edge (graph
    {| graph := {[pA := {[pB]}; pB := {[pA]}]};
       point_info := ∅; head_nodes := ∅; sorted_list := [] |}))) as Hcyc.
  { exists pA. apply (tc_l _ _ pB); [|apply tc_once];
      unfold anc_edge, ancestors_of; simpl; by vm_compute. }
  split.
  - destruct Hcyc as [x Hx]. exists x. revert Hx. apply tc_congruence with (f := id).
    intros a n. unfold anc_edge, ancestors_of. simpl. by vm_compute.
  - apply (cyclic_graph_is_never_written elements_order elements_order Qmean Qstd
             [cluster_ABA]).
    + vm_compute; reflexivity.
    + destruct Hcyc as [x Hx]. exists x. revert Hx. apply tc_congruence with (f := id).
      intros a n. unfold anc_edge, ancestors_of. simpl. by vm_compute.
Defined.

(** ** [span] does not depend on the order of the nodes *)

Section span_facts.
Context (grid : CoherentWaveBurstGrid).

Lemma mapM_phys_time_closed (l : list GridPoint) :
  (∀ p, p ∈ l → float_convertible (time_index p)) →
  mapM (phys_time grid) l
  = if forallb (λ p, valid_index (length (timescales grid)) (scale_index p)) l
    then Ok ((λ p, float_mul (float_of_Z (time_index p))
                     (item_at (timescales grid) (scale_index p))) <$> l)
    else Raise IndexError.
Proof.
  induction l as [|p l IH]; intros Hconv; [done|]. simpl.
  rewrite IH by (intros q Hq; apply Hconv; by right).
  unfold phys_time. rewrite numpy_getitem_closed.
  destruct (valid_index _ (scale_index p)); [|done]. simpl.
  rewrite float_of_int_Ok by (apply Hconv; left). simpl.
  by destruct (forallb _ l).
Qed.

Lemma forallb_Permutation {A} (f : A → bool) (l l' : list A) :
  l ≡ₚ l' → forallb f l = forallb f l'.
Proof.
  induction 1 as [|x l l' _ IH|x y l|l l' l'' _ IH1 _ IH2]; simpl.
  - done.
  - by rewrite IH.
  - destruct (f x), (f y); done.
  - by rewrite IH1.
Qed.

Lemma is_max_Z_Permutation m (l l' : list Z) :
  l ≡ₚ l' → is_max_Z m l → is_max_Z m l'.
Proof.
  intros Hp [Hin Hmax]. split; [by rewrite <- Hp|].
  intros x Hx. apply Hmax. by rewrite Hp.
Qed.

Lemma py_max_Z_Permutation (l l' : list Z) :
  l ≡ₚ l' → py_max_Z l = py_max_Z l'.
Proof.
  intros Hp. destruct l as [|x l].
  - apply Permutation_nil_l in Hp. by subst.
  - pose proof (fold_max_Z l x) as Hmax.
    rewrite (py_max_Z_spec l' _ (is_max_Z_Permutation _ _ _ Hp Hmax)). done.
Qed.

Lemma is_max_float_Permutation m (l l' : list float64) :
  l ≡ₚ l' → is_max_float m l → is_max_float m l'.
Proof.
  intros Hp [Hin Hmax]. split; [by rewrite <- Hp|].
  intros x Hx. apply Hmax. by rewrite Hp.
Qed.

Lemma py_max_float_Permutation (l l' : list float64) :
  Forall not_nan l → l ≡ₚ l' →
  match py_max_float l, py_max_float l' with
  | Ok m, Ok m' => float_same m' m
  | Raise e, Raise e' => e = e'
  | _, _ => False
  end.
Proof.
  intros Hnan Hp. destruct l as [|x l].
  - apply Permutation_nil_l in Hp. by subst.
  - pose proof (fold_max_float l x Hnan) as Hmax.
    assert (Forall not_nan l') as Hnan' by (by rewrite <- Hp).
    destruct (py_max_float_spec l' _ Hnan' (is_max_float_Permutation _ _ _ Hp Hmax))
      as (m' & -> & Hm'). done.
Qed.

Lemma span_Permutation (g g' : Graph) :
  grid_finite grid →
  (∀ p, p ∈ sorted_list g → float_convertible (time_index p)) →
  sorted_list g ≡ₚ sorted_list g' → span g grid = span g' grid.
Proof.
  intros Hfin Hconv Hp. unfold span.
  rewrite (py_max_Z_Permutation (scale_index <$> sorted_list g)
             (scale_index <$> sorted_list g')) by (by apply fmap_Permutation).
  destruct (py_max_Z _) as [smax| |]; [simpl|done..].
  rewrite (mapM_phys_time_closed (sorted_list g)) by done.
  rewrite (mapM_phys_time_closed (sorted_list g'))
    by (intros p Hp'; apply Hconv; by rewrite Hp).
  rewrite <- (forallb_Permutation _ _ _ Hp).
  destruct (forallb _ (sorted_list g)) eqn:Hvalid; [simpl|done].
  set (time := λ p, float_mul (float_of_Z (time_index p))
                      (item_at (timescales grid) (scale_index p))).
  assert (Forall not_nan (time <$> sorted_list g)) as Hnan.
  { apply Forall_fmap, Forall_forall. intros p Hin. apply float_mul_not_nan.
    - by apply float_of_Z_is_finite, Hconv.
    - apply Hfin, item_at_elem_of.
      rewrite forallb_forall in Hvalid. by apply Hvalid, list_elem_of_In. }
  pose proof (py_max_float_Permutation _ _ Hnan (fmap_Permutation time _ _ Hp)) as Hmax.
  destruct (py_max_float _) as [m| |], (py_max_float _) as [m'| |]; try done; simpl.
  - destruct (numpy_getitem _ _) as [ts| |]; [simpl|done..].
    symmetry. by apply span_end_same.
  - by subst.
Qed.
End span_facts.

Lemma built_nodes (order : set_order) (numpy_mean numpy_std : list Q → Q)
    (clusters : list Cluster) (g : Graph) :
  Graph_init order numpy_mean numpy_std clusters = Ok g →
  ∀ x, x ∈ sorted_list g ↔ x ∈ all_points clusters.
Proof.
  intros Hg x.
  pose proof (Graph_init_outcome order numpy_mean numpy_std clusters) as Hout.
  rewrite Hg in Hout. destruct Hout as (_ & Hin & _).
  apply Graph_init_inv in Hg as (st & Hst & Hgraph & _).
  destruct (build_clusters_Ok _ _ _ Hst) as (Hdom & _).
  rewrite Hin, Hgraph, Hdom. simpl.
  rewrite dom_empty_L, union_empty_l_L. apply elem_of_list_to_set.
Qed.

(** X7: [span] depends on the set of nodes only: on a grid whose time
    scales are numbers, two graphs built from the same clusters (time
    indices within the range of the doubles) under different iteration
    orders of Python's sets, hence with differently ordered
    [sorted_list]s, have the same span, and fail the same way when they
    fail. *)
Theorem span_independent_of_set_order
    (order order' : set_order) (numpy_mean numpy_std : list Q → Q)
    (clusters : list Cluster) (g g' : Graph) (grid : CoherentWaveBurstGrid) :
  Graph_init order numpy_mean numpy_std clusters = Ok g →
  Graph_init order' numpy_mean numpy_std clusters = Ok g' →
  grid_finite grid →
  (∀ p, p ∈ all_points clusters → float_convertible (time_index p)) →
  span g grid = span g' grid.
Proof.
  intros Hg Hg' Hfin Hconv.
  pose proof (built_nodes _ _ _ _ _ Hg) as Hnodes.
  pose proof (Graph_init_outcome order numpy_mean numpy_std clusters) as Hout.
  pose proof (Graph_init_outcome order' numpy_mean numpy_std clusters) as Hout'.
  rewrite Hg in Hout. rewrite Hg' in Hout'.
  destruct Hout as (Hnd & Hin & _), Hout' as (Hnd' & Hin' & _).
  apply Graph_init_inv in Hg as (st & Hst & Hgraph & _).
  apply Graph_init_inv in Hg' as (st' & Hst' & Hgraph' & _).
  rewrite Hst in Hst'. injection Hst' as <-.
  apply span_Permutation; [done| |].
  - intros p Hp. by apply Hconv, Hnodes.
  - apply NoDup_Permutation; [done..|].
    intros x. by rewrite Hin, Hin', Hgraph, Hgraph'.
Qed.

Lemma span_independent_of_set_order_witness :
  ∃ g g',
    Graph_init elements_order Qmean Qstd [cluster_ABA] = Ok g
    ∧ Graph_init reversed_order Qmean Qstd [cluster_ABA] = Ok g'
    ∧ sorted_list g ≠ sorted_list g'
    ∧ span g dyadic_grid = span g' dyadic_grid.
Proof.
  eexists _, _. split; [vm_compute; reflexivity|].
  split; [vm_compute; reflexivity|]. split; [by vm_compute|].
  apply (span_independent_of_set_order elements_order reversed_order Qmean Qstd
           [cluster_ABA]); [vm_compute; reflexivity..| |].
  - intros t Ht. simpl in Ht.
    repeat (apply elem_of_cons in Ht as [->|Ht]); [done..|by apply elem_of_nil in Ht].
  - intros p Hp. cbn in Hp.
    repeat (apply elem_of_cons in Hp as [->|Hp]); [..|by apply elem_of_nil in Hp];
      unfold float_convertible; simpl; lia.
Defined.

(** ** The grid constructor *)

Section grid_facts.
Context (sampling_freq : float64) (min_scale_exp max_scale_exp : Z).
Let timescale_of (e : Z) : float64 := float_truediv (float_of_Z (2 ^ e)) sampling_freq.

Lemma length_arange start stop : length (arange start stop) = Z.to_nat (stop - start).
Proof. unfold arange. by rewrite length_fmap, length_seq. Qed.

Lemma lookup_arange start stop (k : nat) :
  (k < Z.to_nat (stop - start))%nat →
  arange start stop !! k = Some (start + Z.of_nat k).
Proof.
  intros Hk. unfold arange. rewrite list_lookup_fmap, lookup_seq_lt by done. done.
Qed.

Lemma valid_index_true (n : nat) (i : Z) :
  - Z.of_nat n ≤ i < Z.of_nat n → valid_index n i = true.
Proof.
  intros Hi. unfold valid_index.
  destruct (Z.ltb_spec i 0); apply andb_true_intro;
    (split; [apply Z.leb_le|apply Z.ltb_lt]); lia.
Qed.

Lemma Grid_init_Ok :
  min_scale_exp ≤ max_scale_exp →
  CoherentWaveBurstGrid_init sampling_freq min_scale_exp max_scale_exp
  = Ok (mkGrid sampling_freq (arange min_scale_exp (max_scale_exp + 1))
          (timescale_of <$> arange min_scale_exp (max_scale_exp + 1))).
Proof.
  intros Hle. unfold CoherentWaveBurstGrid_init. fold timescale_of.
  set (ts := timescale_of <$> arange min_scale_exp (max_scale_exp + 1)).
  assert (length ts = Z.to_nat (max_scale_exp + 1 - min_scale_exp)) as Hlen
    by (unfold ts; by rewrite length_fmap, length_arange).
  rewrite !numpy_getitem_closed.
  rewrite !valid_index_true by lia. done.
Qed.

Lemma Grid_init_empty :
  max_scale_exp < min_scale_exp →
  CoherentWaveBurstGrid_init sampling_freq min_scale_exp max_scale_exp
  = Raise IndexError.
Proof.
  intros Hlt. unfold CoherentWaveBurstGrid_init, arange.
  replace (Z.to_nat (max_scale_exp + 1 - min_scale_exp)) with O by lia. done.
Qed.

Lemma timescale_init (i : Z) :
  0 ≤ i ≤ max_scale_exp - min_scale_exp →
  timescale
    (mkGrid sampling_freq (arange min_scale_exp (max_scale_exp + 1))
       (timescale_of <$> arange min_scale_exp (max_scale_exp + 1))) i
  = timescale_of (min_scale_exp + i).
Proof.
  intros Hi. unfold timescale. simpl. apply nth_lookup_Some with (d := S754_nan).
  rewrite list_lookup_fmap, lookup_arange by lia. simpl. do 2 f_equal. lia.
Qed.
End grid_facts.

(** The powers of two of the 64-bit integers are doubles. *)
Lemma float_of_Z_pow2 (e : Z) :
  0 ≤ e ≤ 62 → float_of_Z (2 ^ e) = S754_finite false 4503599627370496 (e - 52).
Proof.
  intros He.
  assert (forallb (λ k : nat, bool_decide
            (float_of_Z (2 ^ Z.of_nat k)
             = S754_finite false 4503599627370496 (Z.of_nat k - 52)))
            (seq 0 63) = true) as Hall by (by vm_compute).
  rewrite forallb_forall in Hall.
  specialize (Hall (Z.to_nat e)). rewrite Z2Nat.id in Hall by lia.
  eapply bool_decide_eq_true_1. apply Hall, in_seq. lia.
Qed.

(** The quotient of two normal doubles, away from underflow *)
Lemma SFdiv_core_normal (m1 e1 m2 e2 : Z) :
  Zdigits2 m1 = 53 → Zdigits2 m2 = 53 → -1074 ≤ e1 - e2 - 53 →
  SFdiv_core_binary 53 1024 m1 e1 m2 e2
  = let '(q, r) := Z.div_eucl (Z.shiftl m1 53) m2 in
    (q, e1 - e2 - 53, new_location m2 r).
Proof.
  intros H1 H2 He. unfold SFdiv_core_binary. cbv zeta. rewrite H1, H2.
  unfold fexp, emin.
  replace (Z.min (Z.max (53 + e1 - (53 + e2) - 53) (3 - 1024 - 53)) (e1 - e2))
    with (e1 - e2 - 53) by lia.
  replace (e1 - e2 - (e1 - e2 - 53)) with 53 by lia. done.
Qed.

(** A power of two divided by an ordinary frequency: the mantissa of the
    quotient does not depend on the power, which only moves the exponent. *)
Lemma float_truediv_pow2 (my : positive) (ey : Z) :
  Zdigits2 (Zpos my) = 53 → -1012 ≤ ey ≤ 969 →
  ∃ (M : positive) (K : Z), ∀ e, 0 ≤ e ≤ 62 →
    float_truediv (float_of_Z (2 ^ e)) (S754_finite false my ey)
    = S754_finite false M (e + K).
Proof.
  intros Hd Hey.
  pose proof (Zdigits2_bounds (Zpos my)) as Hmy. rewrite Hd in Hmy.
  specialize (Hmy ltac:(lia)). change (2 ^ (53 - 1)) with 4503599627370496 in Hmy.
  change (2 ^ 53) with 9007199254740992 in Hmy.
  destruct (Z.div_eucl (2 ^ 105) (Zpos my)) as [q r] eqn:Hqr.
  assert (q = 2 ^ 105 / Zpos my) as Hq by (unfold Z.div; by rewrite Hqr).
  assert (4503599627370496 ≤ q ≤ 9007199254740992) as Hqb.
  { rewrite Hq. split.
    - apply Z.div_le_lower_bound; [lia|].
      change (2 ^ 105) with (4503599627370496 * 9007199254740992). nia.
    - apply Z.div_le_upper_bound; [lia|].
      change (2 ^ 105) with (4503599627370496 * 9007199254740992). nia. }
  assert (53 ≤ Zdigits2 q ≤ 54) as Hdq.
  { split.
    - apply (Zdigits2_ge_pow q 52); [lia|]. change (2 ^ 52) with 4503599627370496. lia.
    - apply Zdigits2_lt_pow; [|lia]. change (2 ^ 54) with 18014398509481984. lia. }
  set (l := new_location (Zpos my) r).
  pose proof (round_mantissa_bounds q l) as [Hpos Hcarry]; [lia|].
  destruct (round_mantissa q l) as [m3 c] eqn:Hrm. simpl in Hpos, Hcarry.
  exists (Z.to_pos m3), (c - 105 - ey). intros e He.
  rewrite float_of_Z_pow2 by done.
  unfold float_truediv, SFdiv.
  rewrite SFdiv_core_normal by (done || lia).
  change (Z.shiftl 4503599627370496 53) with (2 ^ 105). rewrite Hqr.
  fold l. rewrite binary_round_aux_normal by lia. rewrite Hrm. simpl.
  unfold float_of_mantissa. destruct m3 as [|m3|m3]; [lia| |lia].
  destruct (Z.leb_spec (e - 52 - ey - 53 + c) 971); [|lia].
  simpl. f_equal. lia.
Qed.

Lemma inject_Z_pow2 (n : Z) : 0 ≤ n → (inject_Z (2 ^ n) == 2 ^ n)%Q.
Proof.
  intros Hn. rewrite <- (Z2Nat.id n) by done. generalize (Z.to_nat n). clear.
  intros k. induction k as [|k IH].
  - done.
  - rewrite Nat2Z.inj_succ, Z.pow_succ_r by lia.
    rewrite inject_Z_mult, IH. unfold Z.succ.
    rewrite Qpower_plus by done. change (2 ^ 1)%Q with 2%Q. ring.
Qed.

Lemma float_value_shift (m : positive) (e d : Z) :
  0 ≤ d →
  (float_value (S754_finite false m (e + d))
   == inject_Z (2 ^ d) * float_value (S754_finite false m e))%Q.
Proof.
  intros Hd. simpl. rewrite inject_Z_pow2 by done.
  rewrite Qpower_plus by done. ring.
Qed.

Lemma float_value_positive (m : positive) (e : Z) :
  (0 < float_value (S754_finite false m e))%Q.
Proof.
  simpl. apply Qmult_lt_0_compat.
  - change 0%Q with (inject_Z 0). rewrite <- Zlt_Qlt. lia.
  - by apply Qpower_0_lt.
Qed.

(** X8: for an ordinary sampling frequency and exponents
    [0 ≤ min_scale_exp ≤ max_scale_exp ≤ 62] the constructor returns a grid
    with [max_scale_exp - min_scale_exp + 1] scales, scale [i] being the
    double [2^(min_scale_exp + i) / sampling_freq]; the time scales are
    positive numbers and exactly dyadic (the rounding of the quotient does
    not depend on the power of two).  With [max_scale_exp < min_scale_exp]
    the arrays are empty and [self.timescales[-1]] raises [IndexError]. *)
Theorem Grid_init_dyadic (sampling_freq : float64) (min_scale_exp max_scale_exp : Z) :
  (max_scale_exp < min_scale_exp →
   CoherentWaveBurstGrid_init sampling_freq min_scale_exp max_scale_exp
   = Raise IndexError)
  ∧ (ordinary_frequency sampling_freq → 0 ≤ min_scale_exp →
     min_scale_exp ≤ max_scale_exp → max_scale_exp ≤ 62 →
     ∃ grid,
       CoherentWaveBurstGrid_init sampling_freq min_scale_exp max_scale_exp = Ok grid
       ∧ Z.of_nat (length (timescales grid)) = max_scale_exp - min_scale_exp + 1
       ∧ timescales_exp grid = arange min_scale_exp (max_scale_exp + 1)
       ∧ (∀ i, 0 ≤ i ≤ max_scale_exp - min_scale_exp →
            timescale grid i
            = float_truediv (float_of_Z (2 ^ (min_scale_exp + i))) sampling_freq)
       ∧ grid_positive grid
       ∧ dyadic grid).
Proof.
  split; [apply Grid_init_empty|].
  intros (my & ey & -> & Hd & Hey) Hmin Hle Hmax.
  destruct (float_truediv_pow2 my ey Hd Hey) as (M & K & Hdiv).
  eexists. split; [by apply Grid_init_Ok|].
  assert (Z.of_nat (length ((λ e, float_truediv (float_of_Z (2 ^ e))
                                    (S754_finite false my ey))
            <$> arange min_scale_exp (max_scale_exp + 1)))
          = max_scale_exp - min_scale_exp + 1) as Hlen
    by (rewrite length_fmap, length_arange; lia).
  split_and!; [done|done| | |].
  - intros i Hi. by apply timescale_init.
  - intros t (e & -> & He)%list_elem_of_fmap.
    unfold arange in He. apply list_elem_of_fmap in He as (k & -> & Hk).
    apply elem_of_seq in Hk. rewrite Hdiv by lia.
    split; [done|apply float_value_positive].
  - intros i j Hi Hij Hj. simpl in Hj. rewrite Hlen in Hj.
    unfold timescale_at. rewrite !timescale_init by lia.
    rewrite !Hdiv by lia.
    replace (min_scale_exp + j + K) with (min_scale_exp + i + K + (j - i)) by lia.
    apply float_value_shift. lia.
Qed.

Lemma Grid_init_dyadic_witness :
  ∃ grid,
    CoherentWaveBurstGrid_init (float_of_Z 3) 0 3 = Ok grid
    ∧ Z.of_nat (length (timescales grid)) = 3 - 0 + 1
    ∧ timescales_exp grid = arange 0 (3 + 1)
    ∧ (∀ i, 0 ≤ i ≤ 3 - 0 →
         timescale grid i = float_truediv (float_of_Z (2 ^ (0 + i))) (float_of_Z 3))
    ∧ grid_positive grid
    ∧ dyadic grid.
Proof.
  apply (Grid_init_dyadic (float_of_Z 3) 0 3); [|lia..].
  exists 6755399441055744%positive, (-51). by vm_compute.
Defined.

(** ** The time-zero shift on a dyadic grid *)

Section shift_facts.
Context (grid : CoherentWaveBurstGrid).

Lemma all_points_shift_cluster sh m clusters :
  all_points (shift_cluster sh m <$> clusters)
  = shift_point sh m <$> all_points clusters.
Proof.
  unfold all_points. induction clusters as [|c cs IH]; [done|].
  simpl. rewrite fmap_app. by f_equal.
Qed.

Lemma py_max_Z_is_max (l : list Z) (m : Z) : py_max_Z l = Ok m → is_max_Z m l.
Proof. destruct l as [|x l]; [done|]. intros [= <-]. apply fold_max_Z. Qed.

(** What the function computes, read backwards from a returned value. *)
Lemma shift_clusters_inv clusters shifted :
  shift_clusters_to_zero_index clusters grid = Ok shifted →
  ∃ smax sh,
    is_max_Z smax (scale_index <$> all_points clusters)
    ∧ shifted = shift_cluster sh smax <$> clusters.
Proof.
  intros Hshift. unfold shift_clusters_to_zero_index in Hshift.
  destruct (py_max_Z _) as [smax| |] eqn:Hsmax; [|done..].
  apply py_max_Z_is_max in Hsmax. simpl in Hshift.
  destruct (mapM (phys_time grid) _) as [times| |]; [|done..]. simpl in Hshift.
  destruct (py_min_float times) as [tmin| |]; [|done..]. simpl in Hshift.
  destruct (numpy_getitem _ _) as [ts| |]; [|done..]. simpl in Hshift.
  destruct (floor_div tmin ts) as [sh| |]; [|done..]. simpl in Hshift.
  rewrite (mapM_Ok _ (shift_cluster sh smax)) in Hshift by done.
  injection Hshift as <-. by exists smax, sh.
Qed.

Lemma time_of_shift_point sh smax p :
  dyadic grid → 0 ≤ scale_index p → scale_index p ≤ smax →
  smax < Z.of_nat (length (timescales grid)) →
  (time_of grid (shift_point sh smax p)
   == time_of grid p - inject_Z sh * timescale_at grid smax)%Q.
Proof.
  intros Hdy H0 Hle Hlt. unfold time_of, shift_point, replace_time_index. simpl.
  rewrite (Hdy (scale_index p) smax H0 Hle Hlt).
  unfold Z.sub at 1. rewrite inject_Z_plus, inject_Z_opp, inject_Z_mult. ring.
Qed.

Lemma shift_point_zero smax p : shift_point 0 smax p = p.
Proof.
  destruct p as [s t f]. unfold shift_point, replace_time_index. simpl.
  f_equal. lia.
Qed.

Lemma shift_cluster_zero smax (clusters : list Cluster) :
  shift_cluster 0 smax <$> clusters = clusters.
Proof.
  rewrite <- (list_fmap_id clusters) at 2. apply list_fmap_ext.
  intros _ [pts vals md] _. unfold shift_cluster. simpl. f_equal.
  rewrite <- (list_fmap_id pts) at 2. apply list_fmap_ext.
  intros _ p _. apply shift_point_zero.
Qed.
End shift_facts.

Lemma dyadic_grid_dyadic : dyadic dyadic_grid.
Proof.
  intros i j Hi Hij Hj. simpl in Hj.
  assert (i = 0 ∨ i = 1 ∨ i = 2) as Hi' by lia.
  assert (j = 0 ∨ j = 1 ∨ j = 2) as Hj' by lia.
  destruct Hi' as [->|[->| ->]], Hj' as [->|[->| ->]]; try lia; by vm_compute.
Qed.

(** X9: on a dyadic grid the shift moves every point by one and the same
    physical time, a whole multiple of the coarsest occupied time scale:
    the returned clusters have the same values and metadata, every point
    keeps its scale and frequency indices, and its time is the original
    time minus [shift * timescales[scale_index_max]]. *)
Theorem shift_translates_times (clusters shifted : list Cluster)
    (grid : CoherentWaveBurstGrid) :
  shift_clusters_to_zero_index clusters grid = Ok shifted →
  dyadic grid →
  (∀ p, p ∈ all_points clusters → in_grid grid p) →
  ∃ (shift scale_index_max : Z),
    is_max_Z scale_index_max (scale_index <$> all_points clusters)
    ∧ Forall2 (λ c c',
        values c' = values c ∧ metadata c' = metadata c
        ∧ Forall2 (λ p p',
            scale_index p' = scale_index p ∧ freq_index p' = freq_index p
            ∧ (time_of grid p'
               == time_of grid p
                  - inject_Z shift * timescale_at grid scale_index_max)%Q)
            (grid_points c) (grid_points c'))
        clusters shifted.
Proof.
  intros Hshift Hdy Hgrid.
  destruct (shift_clusters_inv grid _ _ Hshift) as (smax & sh & Hsmax & ->).
  exists sh, smax. split; [done|].
  pose proof (max_scale_in_grid _ _ _ Hgrid Hsmax) as Hrange.
  apply Forall2_fmap_r, Forall_Forall2_diag, Forall_forall.
  intros c Hc. split_and!; [done..|]. simpl.
  apply Forall2_fmap_r, Forall_Forall2_diag, Forall_forall.
  intros p Hp. split_and!; [done..|].
  assert (p ∈ all_points clusters) as Hpall
    by (apply list_elem_of_bind; by exists c).
  apply time_of_shift_point; [done|by apply Hgrid| |lia].
  destruct Hsmax as [_ Hmax]. apply Hmax. by apply list_elem_of_fmap_2.
Qed.

Lemma shift_translates_times_witness :
  ∃ shifted,
    shift_clusters_to_zero_index [cluster_EF] dyadic_grid = Ok shifted
    ∧ ∃ (shift scale_index_max : Z),
        is_max_Z scale_index_max (scale_index <$> all_points [cluster_EF])
        ∧ Forall2 (λ c c',
            values c' = values c ∧ metadata c' = metadata c
            ∧ Forall2 (λ p p',
                scale_index p' = scale_index p ∧ freq_index p' = freq_index p
                ∧ (time_of dyadic_grid p'
                   == time_of dyadic_grid p
                      - inject_Z shift * timescale_at dyadic_grid scale_index_max)%Q)
                (grid_points c) (grid_points c'))
            [cluster_EF] shifted.
Proof.
  eexists. split; [vm_compute; reflexivity|].
  apply (shift_translates_times [cluster_EF] _ dyadic_grid).
  - vm_compute; reflexivity.
  - exact dyadic_grid_dyadic.
  - intros p Hp. cbn in Hp.
    repeat (apply elem_of_cons in Hp as [->|Hp]); [| |by apply elem_of_nil in Hp];
      unfold in_grid; simpl; lia.
Defined.

(** ** Doubles and the rationals they stand for *)

Section float_values.
Implicit Types (x y : float64) (m : positive) (e : Z).

(** A well-formed finite double has at most 53 bits of mantissa, exactly
    53 above the least exponent. *)
Lemma valid_binary_canonical s m e :
  valid_binary 53 1024 (S754_finite s m e) = true →
  -1074 ≤ e ≤ 971 ∧ Zdigits2 (Zpos m) ≤ 53
  ∧ (-1074 < e → Zdigits2 (Zpos m) = 53).
Proof.
  simpl. unfold bounded, canonical_mantissa, fexp, emin.
  intros [Hc%Z.eqb_eq He%Z.leb_le]%andb_true_iff.
  change (Zdigits2 (Zpos m)) with (Zpos (digits2_pos m)). lia.
Qed.

Lemma float_value_scaled x :
  valid_binary 53 1024 x = true →
  (float_value x == inject_Z (float_scaled x) * 2 ^ (-1074))%Q.
Proof.
  destruct x as [s|s| |s m e]; unfold float_value, float_scaled; intros Hv;
    try (by rewrite Qmult_0_l).
  apply valid_binary_canonical in Hv as (He & _).
  rewrite inject_Z_mult, inject_Z_pow2 by lia.
  rewrite <- Qmult_assoc, <- Qpower_plus by done.
  by replace (e + 1074 + -1074) with e by lia.
Qed.

Lemma float_value_le x y :
  valid_binary 53 1024 x = true → valid_binary 53 1024 y = true →
  (float_value x <= float_value y)%Q ↔ float_scaled x ≤ float_scaled y.
Proof.
  intros Hx Hy. rewrite (float_value_scaled x Hx), (float_value_scaled y Hy).
  assert (0 < 2 ^ (-1074))%Q as Hpos by (by apply Qpower_0_lt).
  rewrite Zle_Qle. split; intros Hle.
  - by apply Qmult_le_r in Hle.
  - by apply Qmult_le_r.
Qed.

(** Among well-formed doubles a greater exponent means a greater
    magnitude. *)
Lemma canonical_exponent_lt m1 e1 m2 e2 :
  valid_binary 53 1024 (S754_finite false m1 e1) = true →
  valid_binary 53 1024 (S754_finite false m2 e2) = true →
  e1 < e2 → Zpos m1 * 2 ^ (e1 + 1074) < Zpos m2 * 2 ^ (e2 + 1074).
Proof.
  intros (He1 & Hd1 & _)%valid_binary_canonical
         (He2 & _ & Hd2)%valid_binary_canonical Hlt.
  specialize (Hd2 ltac:(lia)).
  pose proof (Zdigits2_bounds (Zpos m1) ltac:(lia)) as [_ Hm1].
  pose proof (Zdigits2_bounds (Zpos m2) ltac:(lia)) as [Hm2 _].
  rewrite Hd2 in Hm2. change (2 ^ (53 - 1)) with 4503599627370496 in Hm2.
  assert (Zpos m1 < 9007199254740992) as Hm1'.
  { eapply Z.lt_le_trans; [exact Hm1|].
    change 9007199254740992 with (2 ^ 53). apply Z.pow_le_mono_r; lia. }
  replace (e2 + 1074) with (e2 - e1 - 1 + 1 + (e1 + 1074)) by lia.
  rewrite (Z.pow_add_r 2 (e2 - e1 - 1 + 1) (e1 + 1074)),
    (Z.pow_add_r 2 (e2 - e1 - 1) 1) by lia.
  change (2 ^ 1) with 2.
  assert (0 < 2 ^ (e1 + 1074)) as Hp by (apply Z.pow_pos_nonneg; lia).
  assert (0 < 2 ^ (e2 - e1 - 1)) as Hp' by (apply Z.pow_pos_nonneg; lia).
  set (P := 2 ^ (e1 + 1074)) in *. set (P' := 2 ^ (e2 - e1 - 1)) in *.
  assert (Zpos m1 < Zpos m2 * (P' * 2)) as Hlt' by nia.
  rewrite Z.mul_assoc. by apply Z.mul_lt_mono_pos_r.
Qed.

Lemma float_le_scaled x y :
  valid_binary 53 1024 x = true → valid_binary 53 1024 y = true →
  float_finite x = true → float_finite y = true →
  float_le x y = true ↔ float_scaled x ≤ float_scaled y.
Proof.
  intros Hx Hy Hfx Hfy.
  assert (∀ m e, 0 < Zpos m * 2 ^ (e + 1074) ∨ e + 1074 < 0) as Hpos.
  { intros m e. destruct (Z.le_gt_cases 0 (e + 1074)); [left|by right].
    apply Z.mul_pos_pos; [lia|by apply Z.pow_pos_nonneg]. }
  rewrite float_le_key by (by destruct x, y).
  destruct x as [sx|sx| |sx mx ex], y as [sy|sy| |sy my ey]; try done.
  - unfold key_le. simpl. lia.
  - apply valid_binary_canonical in Hy as Hy'. destruct (Hpos my ey) as [?|?]; [|lia].
    unfold key_le. destruct sy; simpl; lia.
  - apply valid_binary_canonical in Hx as Hx'. destruct (Hpos mx ex) as [?|?]; [|lia].
    unfold key_le. destruct sx; simpl; lia.
  - apply valid_binary_canonical in Hx as Hx'.
    apply valid_binary_canonical in Hy as Hy'.
    destruct (Hpos mx ex) as [Hpx|?]; [|lia]. destruct (Hpos my ey) as [Hpy|?]; [|lia].
    assert (valid_binary 53 1024 (S754_finite false mx ex) = true) as Hvx by done.
    assert (valid_binary 53 1024 (S754_finite false my ey) = true) as Hvy by done.
    pose proof (canonical_exponent_lt mx ex my ey Hvx Hvy) as Hxy.
    pose proof (canonical_exponent_lt my ey mx ex Hvy Hvx) as Hyx.
    assert (0 < 2 ^ (ex + 1074)) as Hp by (apply Z.pow_pos_nonneg; lia).
    unfold key_le. destruct sx, sy; simpl.
    + destruct (Z.lt_trichotomy ex ey) as [Hlt|[->|Hgt]].
      * specialize (Hxy Hlt). lia.
      * split; [intros [?|[_ [?|[_ ?]]]]; try lia; nia|].
        intros Hle. right. split; [done|]. right. split; [done|]. nia.
      * specialize (Hyx Hgt). lia.
    + lia.
    + lia.
    + destruct (Z.lt_trichotomy ex ey) as [Hlt|[->|Hgt]].
      * specialize (Hxy Hlt). lia.
      * split; [intros [?|[_ [?|[_ ?]]]]; try lia; nia|].
        intros Hle. right. split; [done|]. right. split; [done|]. nia.
      * specialize (Hyx Hgt). lia.
Qed.

(** The order of the doubles is the order of the numbers they stand for. *)
Lemma represents_le x y (p q : Q) :
  represents x p → represents y q → float_le x y = true ↔ (p <= q)%Q.
Proof.
  intros (Hvx & Hfx & Hx) (Hvy & Hfy & Hy).
  rewrite float_le_scaled by done. rewrite <- Hx, <- Hy.
  symmetry. by apply float_value_le.
Qed.
End float_values.

(** ** Operations that do not round *)

Section exact_operations.
Implicit Types (m k e z : Z) (p : positive).

Lemma shr_1_even a :
  shr_1 (Build_shr_record (a * 2) false false) = Build_shr_record a false false.
Proof. destruct a as [|q|q]; simpl; [done|..]; by rewrite Pos.mul_comm. Qed.

Lemma iter_pos_shr_1_exact p : ∀ a,
  SpecFloat.iter_pos shr_1 p (Build_shr_record (a * 2 ^ Zpos p) false false)
  = Build_shr_record a false false.
Proof.
  induction p as [p IH|p IH|]; intros a; cbn [SpecFloat.iter_pos].
  - rewrite (Pos2Z.inj_xI p).
    replace (a * 2 ^ (2 * Z.pos p + 1)) with (a * 2 ^ Z.pos p * 2 ^ Z.pos p * 2).
    + by rewrite shr_1_even, !IH.
    + replace (2 * Z.pos p + 1) with (Z.pos p + Z.pos p + 1) by lia.
      rewrite !Z.pow_add_r by lia. change (2 ^ 1) with 2. lia.
  - rewrite (Pos2Z.inj_xO p).
    replace (a * 2 ^ (2 * Z.pos p)) with (a * 2 ^ Z.pos p * 2 ^ Z.pos p).
    + by rewrite !IH.
    + replace (2 * Z.pos p) with (Z.pos p + Z.pos p) by lia.
      rewrite Z.pow_add_r by lia. lia.
  - change (2 ^ 1) with 2. apply shr_1_even.
Qed.

Lemma shr_exact a k :
  0 ≤ k →
  (shr (Build_shr_record (a * 2 ^ k) false false) 0 k).1
  = Build_shr_record a false false.
Proof.
  intros Hk. destruct k as [|p|p]; [|by apply iter_pos_shr_1_exact|lia].
  simpl. by rewrite Z.mul_1_r.
Qed.

(** A mantissa of 53 bits followed by zeros is kept by the rounding. *)
Lemma round_mantissa_exact m k :
  0 < m → Zdigits2 m = 53 → 0 ≤ k → round_mantissa (m * 2 ^ k) loc_Exact = (m, k).
Proof.
  intros Hm Hd Hk.
  unfold round_mantissa. rewrite Zdigits2_mul_pow2, Hd by done.
  replace (53 + k - 53) with k by lia.
  change (shr_record_of_loc (m * 2 ^ k) loc_Exact)
    with (Build_shr_record (m * 2 ^ k) false false).
  rewrite shr_exact by done. simpl. rewrite Hd. simpl. f_equal. lia.
Qed.

Lemma binary_round_exact s p e (q : positive) k :
  Zpos p = Zpos q * 2 ^ k → 0 ≤ k →
  Zdigits2 (Zpos q) ≤ 53 →
  -1074 ≤ Zdigits2 (Zpos q) + k + e - 53 ≤ 971 →
  ∃ mz : positive,
    Zpos mz = Zpos q * 2 ^ (53 - Zdigits2 (Zpos q))
    ∧ binary_round 53 1024 s p e
      = S754_finite s mz (Zdigits2 (Zpos q) + k + e - 53).
Proof.
  intros Hp Hk Hd He. unfold binary_round.
  change (Zpos (digits2_pos p)) with (Zdigits2 (Zpos p)).
  set (d := Zdigits2 (Zpos q)) in *.
  assert (1 ≤ d) as Hd1 by (unfold d; simpl; lia).
  assert (Zdigits2 (Zpos p) = d + k) as Hdp
    by (rewrite Hp, Zdigits2_mul_pow2 by lia; done).
  rewrite Hdp.
  assert (fexp 53 1024 (d + k + e) = d + k + e - 53) as ->
    by (unfold fexp, emin; lia).
  pose proof (shl_align_spec p e (d + k + e - 53)) as [Hez Hmz].
  destruct (shl_align p e (d + k + e - 53)) as [mz ez]. simpl in Hez, Hmz.
  subst ez.
  assert (0 < 2 ^ (53 - d)) as Hpow by (apply Z.pow_pos_nonneg; lia).
  set (m := Zpos q * 2 ^ (53 - d)).
  assert (0 < m) as Hm by (unfold m; lia).
  assert (Zdigits2 m = 53) as Hdm
    by (unfold m; rewrite Zdigits2_mul_pow2 by lia; fold d; lia).
  exists (Z.to_pos m). split; [by rewrite Z2Pos.id|].
  destruct (Z.le_gt_cases (d + k) 53) as [Hle|Hgt].
  - rewrite Z.min_r in Hmz |- * by lia.
    assert (Zpos mz = m) as Hmz'.
    { rewrite Hmz, Hp. unfold m. rewrite <- Z.mul_assoc, <- Z.pow_add_r by lia.
      do 2 f_equal. lia. }
    rewrite Hmz'. rewrite binary_round_aux_normal by lia.
    rewrite <- (Z.mul_1_r m) at 1 2. change 1 with (2 ^ 0) at 1 2.
    rewrite (round_mantissa_exact m 0) by (done || lia). simpl.
    rewrite Z.add_0_r. unfold float_of_mantissa. destruct m as [|m'|m']; [lia| |lia].
    destruct (Z.leb_spec (d + k + e - 53) 971); [done|lia].
  - rewrite Z.min_l in Hmz |- * by lia. rewrite Z.sub_diag, Z.mul_1_r in Hmz.
    injection Hmz as ->.
    assert (Zpos p = m * 2 ^ (d + k - 53)) as Hpm.
    { rewrite Hp. unfold m. rewrite <- Z.mul_assoc, <- Z.pow_add_r by lia.
      do 2 f_equal. lia. }
    rewrite Hpm. rewrite binary_round_aux_normal
      by (rewrite <- ?Hpm, ?Hdp; lia).
    rewrite (round_mantissa_exact m (d + k - 53)) by (done || lia). simpl.
    unfold float_of_mantissa. destruct m as [|m'|m']; [lia| |lia].
    replace (e + (d + k - 53)) with (d + k + e - 53) by lia.
    destruct (Z.leb_spec (d + k + e - 53) 971); [done|lia].
Qed.

(** An integer of at most 53 bits is a double. *)
Lemma float_of_Z_exact z :
  - 2 ^ 53 < z < 2 ^ 53 →
  represents (float_of_Z z) (inject_Z z) ∧ py_int (float_of_Z z) = Ok z.
Proof.
  intros Hz.
  assert (∀ s p, Zpos p < 2 ^ 53 →
            represents (binary_round 53 1024 s p 0) (inject_Z (cond_Zopp s (Zpos p)))
            ∧ py_int (binary_round 53 1024 s p 0) = Ok (cond_Zopp s (Zpos p)))
    as Hround.
  { intros s p Hp.
    assert (1 ≤ Zdigits2 (Zpos p) ≤ 53) as Hd.
    { split; [simpl; lia|]. apply Zdigits2_lt_pow; lia. }
    destruct (binary_round_exact s p 0 p 0) as (mz & Hmz & ->); [lia..|].
    set (d := Zdigits2 (Zpos p)) in *. rewrite Z.add_0_r.
    assert (0 < 2 ^ (53 - d)) as Hpow by (apply Z.pow_pos_nonneg; lia).
    assert (Zdigits2 (Zpos mz) = 53) as Hdz.
    { rewrite Hmz, Zdigits2_mul_pow2 by lia. fold d. lia. }
    split; [split_and!|].
    - simpl. unfold bounded, canonical_mantissa, fexp, emin.
      change (Zpos (digits2_pos mz)) with (Zdigits2 (Zpos mz)). rewrite Hdz.
      apply andb_true_intro. split; [apply Z.eqb_eq|apply Z.leb_le]; lia.
    - done.
    - unfold float_value.
      assert (cond_Zopp s (Zpos mz) = cond_Zopp s (Zpos p) * 2 ^ (53 - d)) as ->
        by (destruct s; simpl; lia).
      rewrite inject_Z_mult, inject_Z_pow2 by lia.
      rewrite <- Qmult_assoc, <- Qpower_plus by done.
      replace (53 - d + (d + 0 - 53)) with 0 by lia. simpl. ring.
    - unfold py_int. f_equal.
      assert (cond_Zopp s (Zpos mz) = cond_Zopp s (Zpos p) * 2 ^ (53 - d)) as ->
        by (destruct s; simpl; lia).
      destruct (Z.ltb_spec (d + 0 - 53) 0).
      + replace (- (d + 0 - 53)) with (53 - d) by lia.
        apply Z.quot_mul. lia.
      + replace (53 - d) with 0 by lia. replace (d + 0 - 53) with 0 by lia.
        change (2 ^ 0) with 1. lia. }
  destruct z as [|p|p].
  - split; [|done]. by split_and!.
  - apply (Hround false p). lia.
  - apply (Hround true p). lia.
Qed.
End exact_operations.

(** ** The floor of a double *)

Section exact_floor.
Implicit Types (x : float64) (z : Z).

Lemma Qfloor_div (a b : Z) : 0 < b → Qfloor (inject_Z a / inject_Z b) = a / b.
Proof.
  destruct b as [|p|p]; [lia| |lia]. intros _.
  unfold Qdiv, Qinv, inject_Z, Qmult, Qfloor. simpl. by rewrite Z.mul_1_r.
Qed.

Lemma float_value_finite s (m : positive) e :
  e < 0 →
  (float_value (S754_finite s m e)
   == inject_Z (cond_Zopp s (Zpos m)) / inject_Z (2 ^ (- e)))%Q.
Proof.
  intros He. unfold float_value. rewrite inject_Z_pow2 by lia.
  rewrite <- (Z.opp_involutive e) at 1. by rewrite (Qpower_opp 2 (- e)).
Qed.

Lemma floor_bounds (a b : Z) : 0 < b → - Z.abs a ≤ a / b ≤ Z.abs a.
Proof.
  intros Hb. pose proof (Z.div_mod a b ltac:(lia)) as Hdm.
  pose proof (Z.mod_pos_bound a b Hb) as Hmod. nia.
Qed.

(** [int(numpy.floor(x))] is the floor of the number [x] stands for. *)
Lemma py_int_floor x :
  valid_binary 53 1024 x = true → float_finite x = true →
  py_int (numpy_floor x) = Ok (Qfloor (float_value x)).
Proof.
  intros Hv Hf. destruct x as [s|s| |s m e]; try done.
  apply valid_binary_canonical in Hv as (He & Hd & _).
  unfold numpy_floor. destruct (Z.ltb_spec e 0) as [Hneg|Hpos].
  - rewrite (Qfloor_comp _ _ (float_value_finite s m e Hneg)).
    assert (0 < 2 ^ (- e)) as Hpow by (apply Z.pow_pos_nonneg; lia).
    rewrite Qfloor_div by done.
    apply float_of_Z_exact.
    pose proof (floor_bounds (cond_Zopp s (Zpos m)) (2 ^ (- e)) Hpow) as Hb.
    pose proof (Zdigits2_bounds (Zpos m) ltac:(lia)) as [_ Hm].
    assert (2 ^ Zdigits2 (Zpos m) ≤ 2 ^ 53) by (apply Z.pow_le_mono_r; lia).
    assert (Z.abs (cond_Zopp s (Zpos m)) = Zpos m) as Habs by (destruct s; simpl; lia).
    lia.
  - unfold py_int. destruct (Z.ltb_spec e 0); [lia|]. f_equal.
    unfold float_value. rewrite <- inject_Z_pow2, <- inject_Z_mult by done.
    by rewrite Qfloor_Z.
Qed.

Lemma py_int_floor_represents x (q : Q) :
  represents x q → py_int (numpy_floor x) = Ok (Qfloor q).
Proof.
  intros (Hv & Hf & Hq). rewrite py_int_floor by done. f_equal. by apply Qfloor_comp.
Qed.
End exact_floor.

(** ** Products and quotients by a power of two *)

Section exact_pow2.
Implicit Types (m : positive) (e z : Z).

Lemma binary_round_shift s (p q : positive) k e :
  Zpos p = Zpos q * 2 ^ k → 0 ≤ k →
  Zdigits2 (Zpos q) ≤ 53 →
  -1074 ≤ Zdigits2 (Zpos q) + k + e - 53 ≤ 971 →
  binary_round 53 1024 s p e = binary_round 53 1024 s q (e + k).
Proof.
  intros Hp Hk Hd He.
  destruct (binary_round_exact s p e q k) as (m1 & Hm1 & ->); [done..|].
  destruct (binary_round_exact s q (e + k) q 0) as (m2 & Hm2 & ->); [lia..|].
  f_equal; [|lia]. apply Pos2Z.inj. by rewrite Hm1, Hm2.
Qed.

(** The double of a small integer, in normal form *)
Lemma float_of_Z_normal z :
  z ≠ 0 → - 2 ^ 53 < z < 2 ^ 53 →
  ∃ m, float_of_Z z = S754_finite (z <? 0) m (Zdigits2 (Z.abs z) - 53)
       ∧ Zpos m = Z.abs z * 2 ^ (53 - Zdigits2 (Z.abs z))
       ∧ Zdigits2 (Zpos m) = 53
       ∧ 1 ≤ Zdigits2 (Z.abs z) ≤ 53.
Proof.
  intros Hne Hz.
  assert (∀ s p, Zpos p < 2 ^ 53 →
            ∃ m, binary_round 53 1024 s p 0
                 = S754_finite s m (Zdigits2 (Zpos p) - 53)
                 ∧ Zpos m = Zpos p * 2 ^ (53 - Zdigits2 (Zpos p))
                 ∧ Zdigits2 (Zpos m) = 53
                 ∧ 1 ≤ Zdigits2 (Zpos p) ≤ 53) as Hround.
  { intros s p Hp.
    assert (1 ≤ Zdigits2 (Zpos p) ≤ 53) as Hd.
    { split; [simpl; lia|]. apply Zdigits2_lt_pow; lia. }
    destruct (binary_round_exact s p 0 p 0) as (mz & Hmz & ->); [lia..|].
    exists mz. split_and!; [f_equal; lia|done| |lia..].
    rewrite Hmz, Zdigits2_mul_pow2 by lia. lia. }
  destruct z as [|p|p]; [done|..].
  - apply (Hround false p). lia.
  - apply (Hround true p). lia.
Qed.

Lemma float_of_Z_one : float_of_Z 1 = S754_finite false 4503599627370496 (-52).
Proof. by vm_compute. Qed.

(** Adding one to a small integer is exact. *)
Lemma float_add_one z :
  - 2 ^ 52 ≤ z < 2 ^ 52 →
  float_add (float_of_Z z) (float_of_Z 1) = float_of_Z (z + 1).
Proof.
  intros Hz. destruct (decide (z = 0)) as [->|Hne]; [by vm_compute|].
  change (2 ^ 52) with 4503599627370496 in Hz.
  destruct (float_of_Z_normal z) as (m & -> & Hm & Hdm & Hd); [done| |].
  { change (2 ^ 53) with 9007199254740992. lia. }
  rewrite float_of_Z_one. unfold float_add, SFadd.
  set (d := Zdigits2 (Z.abs z)) in *.
  rewrite Z.min_r by lia.
  pose proof (shl_align_spec m (d - 53) (-52)) as [_ H1].
  pose proof (shl_align_spec 4503599627370496 (-52) (-52)) as [_ H2].
  rewrite Z.min_r in H1 by lia. rewrite Z.min_r in H2 by lia.
  rewrite H1, H2. rewrite Z.sub_diag, Z.mul_1_r.
  assert (Zpos m * 2 ^ (d - 53 - -52) = Z.abs z * 4503599627370496) as ->.
  { rewrite Hm, <- Z.mul_assoc, <- Z.pow_add_r by lia.
    replace (53 - d + (d - 53 - -52)) with 52 by lia. done. }
  assert (cond_Zopp (z <? 0) (Z.abs z * 4503599627370496)
          + cond_Zopp false 4503599627370496
          = (z + 1) * 4503599627370496) as ->.
  { destruct (Z.ltb_spec z 0); simpl; lia. }
  assert (∀ q : positive, Zpos q < 9007199254740992 →
            1 ≤ Zdigits2 (Zpos q) ≤ 53) as Hdq.
  { intros q Hq. split; [simpl; lia|]. apply Zdigits2_lt_pow; [|lia].
    change (2 ^ 53) with 9007199254740992. lia. }
  unfold float_of_Z. destruct (z + 1) as [|q|q] eqn:Hq.
  - done.
  - specialize (Hdq q ltac:(lia)).
    change (Zpos q * 4503599627370496) with (Zpos (q * 4503599627370496)).
    unfold binary_normalize.
    rewrite (binary_round_shift false (q * 4503599627370496) q 52 (-52));
      [done|by rewrite Pos2Z.inj_mul|lia|lia|lia].
  - specialize (Hdq q ltac:(lia)).
    change (Zneg q * 4503599627370496) with (Zneg (q * 4503599627370496)).
    unfold binary_normalize.
    rewrite (binary_round_shift true (q * 4503599627370496) q 52 (-52));
      [done|by rewrite Pos2Z.inj_mul|lia|lia|lia].
Qed.

(** Multiplying a normal double by a power of two moves its exponent. *)
Lemma float_mul_pow2 s m e (k : Z) :
  Zdigits2 (Zpos m) = 53 → -1074 ≤ e + k ≤ 971 →
  float_mul (S754_finite s m e) (S754_finite false 4503599627370496 (k - 52))
  = S754_finite s m (e + k).
Proof.
  intros Hd He. unfold float_mul, SFmul. rewrite xorb_false_r.
  rewrite Pos2Z.inj_mul. change (Zpos 4503599627370496) with (2 ^ 52).
  rewrite binary_round_aux_normal
    by (rewrite ?Zdigits2_mul_pow2 by lia; lia).
  rewrite round_mantissa_exact by (done || lia). simpl.
  replace (e + (k - 52) + 52) with (e + k) by lia.
  destruct (Z.leb_spec (e + k) 971); [done|lia].
Qed.

Lemma div_eucl_mul (a b : Z) : 0 < b → Z.div_eucl (a * b) b = (a, 0).
Proof.
  intros Hb. pose proof (Z.div_mul a b ltac:(lia)) as Hdiv.
  pose proof (Z.mod_mul a b ltac:(lia)) as Hmod.
  unfold Z.div, Z.modulo in Hdiv, Hmod.
  destruct (Z.div_eucl (a * b) b) as [q r]. simpl in Hdiv, Hmod. by subst.
Qed.

(** Dividing a normal double by a power of two moves its exponent. *)
Lemma float_truediv_by_pow2 s m e (k : Z) :
  Zdigits2 (Zpos m) = 53 → -1073 ≤ e - k ≤ 971 →
  float_truediv (S754_finite s m e) (S754_finite false 4503599627370496 (k - 52))
  = S754_finite s m (e - k).
Proof.
  intros Hd He. unfold float_truediv, SFdiv. rewrite xorb_false_r.
  rewrite SFdiv_core_normal by (done || lia).
  rewrite Z.shiftl_mul_pow2 by lia.
  replace (Zpos m * 2 ^ 53) with (Zpos m * 2 * 4503599627370496)
    by (change (2 ^ 53) with (2 * 4503599627370496); lia).
  rewrite div_eucl_mul by lia.
  change (new_location 4503599627370496 0) with loc_Exact.
  change 2 with (2 ^ 1) at 1.
  rewrite binary_round_aux_normal
    by (rewrite ?Zdigits2_mul_pow2 by lia; lia).
  rewrite round_mantissa_exact by (done || lia). simpl.
  replace (e - (k - 52) - 53 + 1) with (e - k) by lia.
  destruct (Z.leb_spec (e - k) 971); [done|lia].
Qed.

Lemma represents_normal s m e (q : Q) :
  Zdigits2 (Zpos m) = 53 → -1074 ≤ e ≤ 971 →
  (inject_Z (cond_Zopp s (Zpos m)) * 2 ^ e == q)%Q →
  represents (S754_finite s m e) q.
Proof.
  intros Hd He Hq. split_and!; [|done..].
  simpl. unfold bounded, canonical_mantissa, fexp, emin.
  change (Zpos (digits2_pos m)) with (Zdigits2 (Zpos m)). rewrite Hd.
  apply andb_true_intro. split; [apply Z.eqb_eq|apply Z.leb_le]; lia.
Qed.

Lemma represents_zero s (q : Q) : (q == 0)%Q → represents (S754_zero s) q.
Proof. intros Hq. split_and!; [done..|]. by rewrite Hq. Qed.
End exact_pow2.

(** ** Grids of powers of two: the arithmetic of the doubles is exact *)

Section floor_plus_one.
Implicit Types (x : float64) (q : Q).

Lemma Qfloor_small q :
  (- inject_Z (2 ^ 52) < q)%Q → (q < inject_Z (2 ^ 52))%Q →
  - 2 ^ 52 ≤ Qfloor q < 2 ^ 52.
Proof.
  intros Hlo Hhi. pose proof (Qfloor_le q) as Hle. pose proof (Qlt_floor q) as Hlt.
  split.
  - assert (inject_Z (- 2 ^ 52) < inject_Z (Qfloor q + 1))%Q as H.
    { rewrite inject_Z_opp. by apply Qlt_trans with q. }
    rewrite <- Zlt_Qlt in H. lia.
  - assert (inject_Z (Qfloor q) < inject_Z (2 ^ 52))%Q as H
      by (by apply Qle_lt_trans with q).
    by rewrite <- Zlt_Qlt in H.
Qed.

(** The floor of a double of small magnitude is the double of an
    integer. *)
Lemma numpy_floor_small x q :
  represents x q → - 2 ^ 53 < Qfloor q < 2 ^ 53 →
  float_same (numpy_floor x) (float_of_Z (Qfloor q)).
Proof.
  intros (Hv & Hf & Hq) Hfl. rewrite <- (Qfloor_comp _ _ Hq) in Hfl |- *.
  destruct x as [s|s| |s m e]; try done.
  - right. by vm_compute.
  - left. apply valid_binary_canonical in Hv as (He & Hd & Hn).
    unfold numpy_floor. destruct (Z.ltb_spec e 0) as [Hneg|Hpos].
    + rewrite (Qfloor_comp _ _ (float_value_finite s m e Hneg)).
      rewrite Qfloor_div; [done|]. apply Z.pow_pos_nonneg; lia.
    + specialize (Hn ltac:(lia)).
      assert (float_value (S754_finite s m e)
              == inject_Z (cond_Zopp s (Zpos m) * 2 ^ e))%Q as Hval.
      { unfold float_value. by rewrite inject_Z_mult, inject_Z_pow2. }
      rewrite (Qfloor_comp _ _ Hval), Qfloor_Z in Hfl |- *.
      pose proof (Zdigits2_bounds (Zpos m) ltac:(lia)) as [Hm _].
      rewrite Hn in Hm. change (2 ^ (53 - 1)) with 4503599627370496 in Hm.
      change (2 ^ 53) with 9007199254740992 in Hfl.
      assert (e = 0) as ->.
      { destruct (decide (e = 0)) as [|Hne]; [done|exfalso].
        assert (2 ^ 1 ≤ 2 ^ e) as Hpow by (apply Z.pow_le_mono_r; lia).
        change (2 ^ 1) with 2 in Hpow. destruct s; simpl in Hfl; nia. }
      rewrite Z.mul_1_r in Hfl |- *.
      destruct (float_of_Z_normal (cond_Zopp s (Zpos m))) as (m' & -> & Hm' & _).
      * destruct s; simpl; lia.
      * change (2 ^ 53) with 9007199254740992. lia.
      * assert (Z.abs (cond_Zopp s (Zpos m)) = Zpos m) as Habs
          by (destruct s; simpl; lia).
        rewrite Habs in Hm' |- *. rewrite Hn in Hm' |- *.
        rewrite Z.sub_diag, Z.mul_1_r in Hm'.
        apply Pos2Z.inj in Hm'. subst m'. by destruct s.
Qed.

(** [int(numpy.floor(x) + 1)] on a double of small magnitude *)
Lemma py_int_floor_add_one x q :
  represents x q → (- inject_Z (2 ^ 52) < q)%Q → (q < inject_Z (2 ^ 52))%Q →
  py_int (float_add (numpy_floor x) (float_of_Z 1)) = Ok (Qfloor q + 1).
Proof.
  intros Hx Hlo Hhi. pose proof (Qfloor_small q Hlo Hhi) as Hfl.
  change (2 ^ 52) with 4503599627370496 in Hfl.
  rewrite (float_same_add_one _ (float_of_Z (Qfloor q))).
  - rewrite float_add_one by (change (2 ^ 52) with 4503599627370496; lia).
    apply float_of_Z_exact. change (2 ^ 53) with 9007199254740992. lia.
  - apply numpy_floor_small; [done|]. change (2 ^ 53) with 9007199254740992. lia.
Qed.
End floor_plus_one.

Section binary_grid_facts.
Context (grid : CoherentWaveBurstGrid) (e0 : Z) (Hbin : binary_grid grid e0).
Implicit Types (p : GridPoint) (i j : Z).

Lemma timescale_at_binary i :
  0 ≤ i < Z.of_nat (length (timescales grid)) →
  (timescale_at grid i == 2 ^ (e0 + i))%Q.
Proof.
  intros Hi. destruct Hbin as (_ & _ & Hts).
  unfold timescale_at, float_value. rewrite (Hts i Hi). cbn [cond_Zopp].
  change (Zpos 4503599627370496) with (2 ^ 52).
  rewrite inject_Z_pow2 by lia. rewrite <- Qpower_plus by done.
  by replace (52 + (e0 + i - 52)) with (e0 + i) by lia.
Qed.

Lemma binary_grid_lookup (t : float64) :
  t ∈ timescales grid →
  ∃ i, 0 ≤ i < Z.of_nat (length (timescales grid)) ∧ timescale grid i = t.
Proof.
  intros (k & Hk)%list_elem_of_lookup. exists (Z.of_nat k).
  pose proof (lookup_lt_Some _ _ _ Hk). split; [lia|].
  unfold timescale. rewrite Nat2Z.id. by apply nth_lookup_Some.
Qed.

Lemma binary_grid_positive : grid_positive grid.
Proof.
  intros t (i & Hi & <-)%binary_grid_lookup.
  destruct Hbin as (_ & _ & Hts). rewrite (Hts i Hi).
  split; [done|apply float_value_positive].
Qed.

Lemma binary_grid_finite : grid_finite grid.
Proof. intros t Ht. by apply binary_grid_positive. Qed.

Lemma binary_grid_dyadic : dyadic grid.
Proof.
  intros i j Hi Hij Hj. rewrite !timescale_at_binary by lia.
  rewrite inject_Z_pow2 by lia. rewrite <- Qpower_plus by done.
  by replace (j - i + (e0 + i)) with (e0 + j) by lia.
Qed.

(** The time of a point and its quotient by a time scale are computed
    without rounding. *)
Lemma float_time_exact p j :
  in_grid grid p → - 2 ^ 53 < time_index p < 2 ^ 53 →
  0 ≤ j < Z.of_nat (length (timescales grid)) →
  represents (float_time grid p) (time_of grid p)
  ∧ represents (float_truediv (float_time grid p) (timescale grid j))
      (time_of grid p / timescale_at grid j).
Proof.
  intros Hp Ht Hj. unfold in_grid in Hp.
  pose proof (timescale_at_binary _ Hp) as Hs.
  pose proof (timescale_at_binary _ Hj) as HT.
  destruct Hbin as (Hlo & Hhi & Hts).
  unfold float_time, time_of. rewrite (Hts _ Hp), (Hts _ Hj).
  destruct (decide (time_index p = 0)) as [->|Hne].
  - split; apply represents_zero.
    + ring.
    + unfold Qdiv. ring.
  - destruct (float_of_Z_normal (time_index p) Hne Ht) as (m & -> & Hm & Hdm & Hd).
    set (d := Zdigits2 (Z.abs (time_index p))) in *.
    assert (inject_Z (cond_Zopp (time_index p <? 0) (Zpos m))
            == inject_Z (time_index p) * 2 ^ (53 - d))%Q as Hmq.
    { rewrite <- inject_Z_pow2, <- inject_Z_mult by lia. rewrite Hm.
      apply inject_Z_injective.
      destruct (Z.ltb_spec (time_index p) 0); simpl; lia. }
    rewrite float_mul_pow2 by (done || lia).
    rewrite float_truediv_by_pow2 by (done || lia).
    split; apply represents_normal; try done; try lia.
    + rewrite Hs, Hmq, <- Qmult_assoc, <- Qpower_plus by done.
      by replace (53 - d + (d - 53 + (e0 + scale_index p)))
        with (e0 + scale_index p) by lia.
    + rewrite Hs, HT, Hmq, <- Qmult_assoc, <- Qpower_plus by done.
      replace (53 - d + (d - 53 + (e0 + scale_index p) - (e0 + j)))
        with (e0 + scale_index p - (e0 + j)) by lia.
      rewrite Qpower_minus by done. unfold Qdiv. ring.
Qed.
End binary_grid_facts.

(** ** [span] and the shift where the arithmetic is exact *)

Lemma list_least {A} (R : A → A → Prop) (l : list A) :
  (∀ x y, R x y ∨ R y x) → (∀ x y z, R x y → R y z → R x z) →
  l ≠ [] → ∃ m, m ∈ l ∧ ∀ x, x ∈ l → R m x.
Proof.
  intros Htotal Htrans Hne. induction l as [|a l IH]; [done|].
  destruct l as [|b l].
  - exists a. split; [left|]. intros x Hx. apply list_elem_of_singleton in Hx as ->.
    by destruct (Htotal a a).
  - destruct (IH ltac:(done)) as (m & Hm & Hleast).
    destruct (Htotal a m) as [Ham|Hma].
    + exists a. split; [left|]. intros x [->|Hx]%elem_of_cons; [by destruct (Htotal a a)|].
      apply (Htrans _ m); [done|by apply Hleast].
    + exists m. split; [by right|]. intros x [->|Hx]%elem_of_cons; [done|by apply Hleast].
Qed.

Lemma float_convertible_small (t : Z) : - 2 ^ 53 < t < 2 ^ 53 → float_convertible t.
Proof.
  intros Ht. unfold float_convertible.
  assert (2 ^ 53 < 2 ^ 1023) by (by apply Z.pow_lt_mono_r). lia.
Qed.

Section exact_span_shift.
Context (grid : CoherentWaveBurstGrid) (e0 : Z) (Hbin : binary_grid grid e0).
Implicit Types (p : GridPoint) (pts : list GridPoint).

Lemma earliest_point pts :
  pts ≠ [] → ∃ p0, p0 ∈ pts ∧ ∀ p, p ∈ pts → (time_of grid p0 <= time_of grid p)%Q.
Proof.
  apply (list_least (λ a b, time_of grid a <= time_of grid b)%Q).
  - intros x y. destruct (Qlt_le_dec (time_of grid y) (time_of grid x)); [right|left];
      [by apply Qlt_le_weak|done].
  - intros x y z. apply Qle_trans.
Qed.

Lemma latest_point pts :
  pts ≠ [] → ∃ p1, p1 ∈ pts ∧ ∀ p, p ∈ pts → (time_of grid p <= time_of grid p1)%Q.
Proof.
  apply (list_least (λ a b, time_of grid b <= time_of grid a)%Q).
  - intros x y. destruct (Qlt_le_dec (time_of grid y) (time_of grid x)); [left|right];
      [by apply Qlt_le_weak|done].
  - intros x y z Hxy Hyz. by apply Qle_trans with (time_of grid y).
Qed.

(** The shift is the floor of the exact quotient. *)
Lemma shift_exact (clusters : list Cluster) (smax : Z) p0 :
  (∀ p, p ∈ all_points clusters →
     in_grid grid p ∧ - 2 ^ 53 < time_index p < 2 ^ 53) →
  is_max_Z smax (scale_index <$> all_points clusters) →
  p0 ∈ all_points clusters →
  (∀ p, p ∈ all_points clusters → (time_of grid p0 <= time_of grid p)%Q) →
  shift_clusters_to_zero_index clusters grid
  = Ok (shift_cluster (Qfloor (time_of grid p0 / timescale_at grid smax)) smax
          <$> clusters).
Proof.
  intros Hpts Hsmax Hp0 Hmin.
  assert (∀ p, p ∈ all_points clusters → in_grid grid p) as Hin
    by (intros p Hp; by apply Hpts).
  pose proof (max_scale_in_grid _ _ _ Hin Hsmax) as Hrange.
  assert (∀ p, p ∈ all_points clusters →
            represents (float_time grid p) (time_of grid p)
            ∧ represents (float_truediv (float_time grid p) (timescale grid smax))
                (time_of grid p / timescale_at grid smax)) as Hexact.
  { intros p Hp. destruct (Hpts p Hp). by apply (float_time_exact grid e0). }
  rewrite (shift_of_extrema clusters grid smax (float_time grid p0)).
  - unfold floor_div.
    rewrite (py_int_floor_represents _ _ (proj2 (Hexact p0 Hp0))). done.
  - by apply (binary_grid_finite grid e0).
  - intros p Hp. destruct (Hpts p Hp). split; [done|by apply float_convertible_small].
  - done.
  - split; [by apply list_elem_of_fmap_2|].
    intros x (p & -> & Hp)%list_elem_of_fmap.
    apply (represents_le _ _ (time_of grid p0) (time_of grid p));
      [by apply Hexact..|by apply Hmin].
Qed.

Lemma quotient_small p (smax : Z) :
  in_grid grid p → scale_index p ≤ smax →
  smax < Z.of_nat (length (timescales grid)) →
  - 2 ^ 52 < time_index p < 2 ^ 52 →
  (- inject_Z (2 ^ 52) < time_of grid p / timescale_at grid smax)%Q
  ∧ (time_of grid p / timescale_at grid smax < inject_Z (2 ^ 52))%Q.
Proof.
  intros Hp Hle Hlt Ht. unfold in_grid in Hp.
  pose proof (binary_grid_dyadic grid e0 Hbin (scale_index p) smax
                ltac:(lia) Hle Hlt) as Hdy.
  assert (0 < timescale_at grid (scale_index p))%Q as Hpos.
  { apply (binary_grid_positive grid e0 Hbin). by apply nth_in_range. }
  assert (0 < 2 ^ (smax - scale_index p)) as Hpow by (apply Z.pow_pos_nonneg; lia).
  assert (0 < inject_Z (2 ^ (smax - scale_index p)))%Q as HP
    by (change 0%Q with (inject_Z 0); by rewrite <- Zlt_Qlt).
  assert (time_of grid p / timescale_at grid smax
          == inject_Z (time_index p) / inject_Z (2 ^ (smax - scale_index p)))%Q as ->.
  { unfold time_of. rewrite Hdy. field. split; lra. }
  split.
  - apply Qlt_shift_div_l; [done|].
    rewrite <- inject_Z_opp, <- inject_Z_mult, <- Zlt_Qlt. nia.
  - apply Qlt_shift_div_r; [done|].
    rewrite <- inject_Z_mult, <- Zlt_Qlt. nia.
Qed.

(** [span] is one more than the floor of the exact quotient. *)
Lemma span_exact (g : Graph) (smax : Z) p1 :
  (∀ p, p ∈ sorted_list g → in_grid grid p ∧ - 2 ^ 52 < time_index p < 2 ^ 52) →
  is_max_Z smax (scale_index <$> sorted_list g) →
  p1 ∈ sorted_list g →
  (∀ p, p ∈ sorted_list g → (time_of grid p <= time_of grid p1)%Q) →
  span g grid = Ok (Qfloor (time_of grid p1 / timescale_at grid smax) + 1).
Proof.
  intros Hpts Hsmax Hp1 Hmax.
  assert (∀ p, p ∈ sorted_list g → in_grid grid p) as Hin
    by (intros p Hp; by apply Hpts).
  pose proof (max_scale_in_grid _ _ _ Hin Hsmax) as Hrange.
  assert (∀ t, - 2 ^ 52 < t < 2 ^ 52 → - 2 ^ 53 < t < 2 ^ 53) as Hsmall.
  { intros t. change (2 ^ 52) with 4503599627370496.
    change (2 ^ 53) with 9007199254740992. lia. }
  assert (∀ p, p ∈ sorted_list g →
            represents (float_time grid p) (time_of grid p)
            ∧ represents (float_truediv (float_time grid p) (timescale grid smax))
                (time_of grid p / timescale_at grid smax)) as Hexact.
  { intros p Hp. destruct (Hpts p Hp).
    apply (float_time_exact grid e0); [done..|by apply Hsmall|done]. }
  rewrite (span_of_extrema g grid smax (float_time grid p1)).
  - destruct (Hpts p1 Hp1) as [Hg1 Ht1].
    destruct (quotient_small p1 smax) as [Hlo Hhi]; [done| |lia|done|].
    { destruct Hsmax as [_ Hle]. apply Hle. by apply list_elem_of_fmap_2. }
    by apply py_int_floor_add_one; [apply Hexact|..].
  - by apply (binary_grid_finite grid e0).
  - intros p Hp. destruct (Hpts p Hp).
    split; [done|by apply float_convertible_small, Hsmall].
  - done.
  - split; [by apply list_elem_of_fmap_2|].
    intros x (p & -> & Hp)%list_elem_of_fmap.
    apply (represents_le _ _ (time_of grid p) (time_of grid p1));
      [by apply Hexact..|by apply Hmax].
Qed.
End exact_span_shift.

(** The constructor makes a grid of powers of two when the sampling
    frequency is one. *)
Lemma Grid_init_binary (j min_scale_exp max_scale_exp : Z)
    (grid : CoherentWaveBurstGrid) :
  0 ≤ j ≤ 62 → 0 ≤ min_scale_exp → max_scale_exp ≤ 62 →
  CoherentWaveBurstGrid_init (float_of_Z (2 ^ j)) min_scale_exp max_scale_exp
  = Ok grid →
  binary_grid grid (min_scale_exp - j).
Proof.
  intros Hj Hmin Hmax Hinit.
  destruct (Z.lt_ge_cases max_scale_exp min_scale_exp) as [Hlt|Hle].
  { by rewrite Grid_init_empty in Hinit. }
  rewrite Grid_init_Ok in Hinit by done. injection Hinit as <-.
  assert (Z.of_nat (length ((λ e, float_truediv (float_of_Z (2 ^ e))
                                    (float_of_Z (2 ^ j)))
            <$> arange min_scale_exp (max_scale_exp + 1)))
          = max_scale_exp - min_scale_exp + 1) as Hlen
    by (rewrite length_fmap, length_arange; lia).
  split_and!; [lia|simpl; lia|].
  intros i Hi. simpl in Hi. rewrite timescale_init by lia.
  rewrite !float_of_Z_pow2 by lia.
  rewrite float_truediv_by_pow2 by (done || lia). f_equal. lia.
Qed.

(** ** Conversion to and from the array of records *)

Lemma rows_points (pts : list GridPoint) (vals : list Q) :
  (λ p, mkGridPoint (row_scale_index p) (row_time_index p) (row_freq_index p))
    <$> ((λ pv : GridPoint * Q,
            mkRow (scale_index pv.1) (time_index pv.1) (freq_index pv.1) pv.2)
           <$> zip pts vals)
  = take (length vals) pts.
Proof.
  revert vals. induction pts as [|[s t f] pts IH]; intros [|v vals]; simpl; [done..|].
  by rewrite IH.
Qed.

Lemma rows_values (pts : list GridPoint) (vals : list Q) :
  row_value
    <$> ((λ pv : GridPoint * Q,
            mkRow (scale_index pv.1) (time_index pv.1) (freq_index pv.1) pv.2)
           <$> zip pts vals)
  = take (length pts) vals.
Proof.
  revert vals. induction pts as [|p pts IH]; intros [|v vals]; simpl; [done..|].
  by rewrite IH.
Qed.

Lemma to_numpyarray_from_rows (array : list pixel_row) (md : string) :
  Forall row_int64 array →
  to_numpyarray
    (mkCluster
       ((λ p, mkGridPoint (row_scale_index p) (row_time_index p) (row_freq_index p))
          <$> array)
       (row_value <$> array) md)
  = Ok array.
Proof.
  intros Harr. unfold to_numpyarray. simpl.
  induction Harr as [|[s t f v] array Hr _ IH]; [done|].
  cbn [fmap list_fmap zip zip_with mapM]. rewrite IH.
  unfold to_row. cbn [row_scale_index row_time_index row_freq_index row_value fst snd].
  assert (point_int64 (mkGridPoint s t f) = true) as -> by exact Hr. done.
Qed.

Lemma forallb_zip_take (pts : list GridPoint) (vals : list Q) :
  forallb (λ pv : GridPoint * Q, point_int64 pv.1) (zip pts vals)
  = forallb point_int64 (take (length vals) pts).
Proof.
  revert vals. induction pts as [|p pts IH]; intros [|v vals]; simpl; [done..|].
  by rewrite IH.
Qed.

(** X11: the two conversions are inverse of each other on 64-bit indices.
    An array of records turned into a cluster and back is the same array;
    a cluster whose paired points have indices that fit 64 bits, turned
    into an array and back, is the cluster cut to the shorter of its two
    sequences, hence the same cluster when they have equal length; a
    cluster with a paired point that does not fit cannot be turned into
    an array: [OverflowError]. *)
Theorem numpyarray_round_trip :
  (∀ array md, Forall row_int64 array →
     from_numpyarray array md ≫= to_numpyarray = Ok array)
  ∧ (∀ c, forallb point_int64 (take (length (values c)) (grid_points c)) = true →
       to_numpyarray c ≫= (λ array, from_numpyarray array (metadata c))
       = Ok (mkCluster (take (length (values c)) (grid_points c))
               (take (length (grid_points c)) (values c)) (metadata c)))
  ∧ (∀ c, forallb point_int64 (grid_points c) = true →
       length (grid_points c) = length (values c) →
       to_numpyarray c ≫= (λ array, from_numpyarray array (metadata c)) = Ok c)
  ∧ (∀ c, forallb point_int64 (take (length (values c)) (grid_points c)) = false →
       to_numpyarray c = Raise OverflowError).
Proof.
  assert (∀ c, forallb point_int64 (take (length (values c)) (grid_points c)) = true →
            to_numpyarray c ≫= (λ array, from_numpyarray array (metadata c))
            = Ok (mkCluster (take (length (values c)) (grid_points c))
                    (take (length (grid_points c)) (values c)) (metadata c)))
    as Hback.
  { intros c Hc. rewrite to_numpyarray_closed, forallb_zip_take, Hc. simpl.
    unfold from_numpyarray. simpl. by rewrite rows_points, rows_values. }
  split_and!; [|done| |].
  - intros array md Harr. unfold from_numpyarray. simpl.
    by apply to_numpyarray_from_rows.
  - intros c Hfit Hlen. rewrite Hback.
    + destruct c as [pts vals md]. simpl in *.
      rewrite <- Hlen, take_ge by done. by rewrite Hlen, take_ge.
    + by rewrite <- Hlen, take_ge.
  - intros c Hc. by rewrite to_numpyarray_closed, forallb_zip_take, Hc.
Qed.

Lemma numpyarray_round_trip_witness :
  to_numpyarray cluster_ABC ≫= (λ array, from_numpyarray array (metadata cluster_ABC))
  = Ok cluster_ABC
  ∧ to_numpyarray (mkCluster [mkGridPoint 0 (2 ^ 63) 0] [1%Q] "wide")
    = Raise OverflowError.
Proof.
  pose proof numpyarray_round_trip as (_ & _ & Hsame & Hwide). split.
  - by apply (Hsame cluster_ABC).
  - by apply (Hwide (mkCluster [mkGridPoint 0 (2 ^ 63) 0] [1%Q] "wide")).
Defined.

(** ** [GridPoint.from_phys_coords] *)

Lemma float_eq_key (x y : float64) :
  float_eq x y = true ↔ not_nan x ∧ not_nan y ∧ float_key x = float_key y.
Proof.
  unfold float_eq, SFeqb, not_nan.
  destruct x as [[]|[]| |[] mx ex], y as [[]|[]| |[] my ey]; simpl;
    try (split; [done|by intros (? & ? & ?)]); try (split; [done|intros (? & ? & [=])]).
  - change (Pos.compare_cont Eq mx my) with (Pos.compare mx my).
    destruct (Z.compare_spec ex ey), (Pos.compare_spec mx my); simpl;
      (split; [intros H'; try discriminate H'; subst; by split_and!
              |intros (_ & _ & Hk); injection Hk; intros; try done; lia]).
  - change (Pos.compare_cont Eq mx my) with (Pos.compare mx my).
    destruct (Z.compare_spec ex ey), (Pos.compare_spec mx my); simpl;
      (split; [intros H'; try discriminate H'; subst; by split_and!
              |intros (_ & _ & Hk); injection Hk; intros; try done; lia]).
Qed.

Lemma float_eq_trans (x y z : float64) :
  float_eq x z = true → float_eq y z = true → float_eq x y = true.
Proof.
  intros (Hx & Hz & Hxz)%float_eq_key (Hy & _ & Hyz)%float_eq_key.
  apply float_eq_key. split_and!; [done..|]. congruence.
Qed.

Lemma argwhere_from_nil (a : list float64) (x : float64) (i : Z) :
  (∀ t, t ∈ a → float_eq t x = false) → argwhere_from i a x = [].
Proof.
  revert i. induction a as [|t a IH]; intros i Hno; [done|]. simpl.
  rewrite (Hno t) by left. apply IH. intros t' Ht'. apply Hno. by right.
Qed.

Lemma argwhere_from_unique (a : list float64) (x : float64) : ∀ (i : Z) (n : nat) t,
  a !! n = Some t → float_eq t x = true →
  (∀ m t', a !! m = Some t' → float_eq t' x = true → m = n) →
  argwhere_from i a x = [i + Z.of_nat n].
Proof.
  induction a as [|t0 a IH]; intros i n t Hn Htx Huniq; [done|]. simpl.
  destruct n as [|n]; simpl in Hn.
  - injection Hn as ->. rewrite Htx.
    rewrite Z.add_0_r. f_equal. apply argwhere_from_nil.
    intros t' [m Hm]%list_elem_of_lookup.
    destruct (float_eq t' x) eqn:Ht'; [|done].
    by specialize (Huniq (S m) t' Hm Ht').
  - destruct (float_eq t0 x) eqn:H0.
    + by specialize (Huniq O t0 eq_refl H0).
    + rewrite (IH (i + 1) n t Hn Htx).
      * f_equal. lia.
      * intros m t' Hm Ht'. specialize (Huniq (S m) t' Hm Ht'). lia.
Qed.

(** X12: [from_phys_coords] never returns a [GridPoint].  On a grid with
    distinct scales it returns [None] when the requested time scale is not
    in the grid and also when it is the first one (index 0 is taken for
    "not found"), and raises [NameError] for every other scale of the
    grid. *)
Theorem from_phys_coords_never_returns_a_point
    (grid : CoherentWaveBurstGrid) (timescale time freq : float64) :
  (∀ p, from_phys_coords grid timescale time freq ≠ Returns (Some p))
  ∧ ((∀ t, t ∈ timescales grid → float_eq t timescale = false) →
     from_phys_coords grid timescale time freq = Returns None)
  ∧ (distinct_scales grid →
     ∀ (n : nat) t, timescales grid !! n = Some t → float_eq t timescale = true →
       from_phys_coords grid timescale time freq
       = match n with O => Returns None | S _ => Raises NameError end).
Proof.
  split_and!.
  - intros p. unfold from_phys_coords.
    destruct (argwhere_from 0 (timescales grid) timescale) as [|i [|j l]]; [done| |done].
    by destruct (i =? 0).
  - intros Hno. unfold from_phys_coords. by rewrite argwhere_from_nil.
  - intros Hdist n t Hn Ht. unfold from_phys_coords.
    rewrite (argwhere_from_unique _ _ 0 n t Hn Ht).
    + by destruct n.
    + intros m t' Hm Ht'. apply (Hdist m n t' t Hm Hn).
      by apply float_eq_trans with timescale.
Qed.

Lemma from_phys_coords_never_returns_a_point_witness :
  from_phys_coords dyadic_grid (float_of_Z 1) (float_of_Z 0) (float_of_Z 0)
  = Returns None
  ∧ from_phys_coords dyadic_grid (float_of_Z 2) (float_of_Z 0) (float_of_Z 0)
    = Raises NameError
  ∧ from_phys_coords dyadic_grid (float_of_Z 3) (float_of_Z 0) (float_of_Z 0)
    = Returns None.
Proof.
  assert (distinct_scales dyadic_grid) as Hdist.
  { intros i j ti tj Hi Hj Heq.
    destruct i as [|[|[|i]]], j as [|[|[|j]]]; simpl in *; simplify_eq; done. }
  pose proof (from_phys_coords_never_returns_a_point dyadic_grid
                (float_of_Z 1) (float_of_Z 0) (float_of_Z 0)) as (_ & _ & H1).
  pose proof (from_phys_coords_never_returns_a_point dyadic_grid
                (float_of_Z 2) (float_of_Z 0) (float_of_Z 0)) as (_ & _ & H2).
  pose proof (from_phys_coords_never_returns_a_point dyadic_grid
                (float_of_Z 3) (float_of_Z 0) (float_of_Z 0)) as (_ & H3 & _).
  split_and!.
  - by apply (H1 Hdist 0%nat (float_of_Z 1)).
  - by apply (H2 Hdist 1%nat (float_of_Z 2)).
  - apply H3. intros t Ht. simpl in Ht.
    repeat (apply elem_of_cons in Ht as [->|Ht]); [done..|by apply elem_of_nil in Ht].
Defined.

(** ** A single chain *)

Section chain_facts.
Implicit Types (pts l : list GridPoint).

Lemma adjacent_pairs_lookup pts a n :
  (a, n) ∈ adjacent_pairs pts →
  ∃ i, pts !! i = Some a ∧ pts !! S i = Some n.
Proof.
  destruct pts as [|p rest]; [by intros ?%elem_of_nil|].
  revert p. induction rest as [|q rest IH]; intros p; [by intros ?%elem_of_nil|].
  rewrite adjacent_pairs_cons. intros [[= -> ->]|H]%elem_of_cons.
  - by exists O.
  - destruct (IH q H) as (i & Hi & HSi). by exists (S i).
Qed.

Lemma chain_tc_lookup pts a n :
  NoDup pts → tc (chain_edge pts) a n →
  ∃ i j, (i < j)%nat ∧ pts !! i = Some a ∧ pts !! j = Some n.
Proof.
  intros Hnd. induction 1 as [a n Hedge|a b n Hedge _ IH].
  - apply adjacent_pairs_lookup in Hedge as (i & Hi & HSi).
    exists i, (S i). split; [lia|done].
  - apply adjacent_pairs_lookup in Hedge as (i & Hi & HSi).
    destruct IH as (i' & j & Hlt & Hi' & Hj).
    assert (i' = S i) as -> by (by eapply NoDup_lookup).
    exists i, j. split; [lia|done].
Qed.

Lemma chain_acyclic pts : NoDup pts → acyclic (chain_edge pts).
Proof.
  intros Hnd x (i & j & Hlt & Hi & Hj)%chain_tc_lookup; [|done].
  assert (i = j) by (by eapply NoDup_lookup). lia.
Qed.

Lemma chain_edge_cons p pts a n :
  chain_edge pts a n → chain_edge (p :: pts) a n.
Proof.
  unfold chain_edge. destruct pts as [|q rest]; [by intros ?%elem_of_nil|].
  rewrite adjacent_pairs_cons. by right.
Qed.

Lemma chain_tc_cons p pts a n :
  tc (chain_edge pts) a n → tc (chain_edge (p :: pts)) a n.
Proof.
  induction 1 as [a b Hab|a b c Hab _ IH].
  - by apply tc_once, chain_edge_cons.
  - eapply tc_l; [by apply chain_edge_cons|done].
Qed.

Lemma chain_reach rest : ∀ p x, x ∈ rest → tc (chain_edge (p :: rest)) p x.
Proof.
  induction rest as [|q rest IH]; intros p x; [by intros ?%elem_of_nil|].
  assert (chain_edge (p :: q :: rest) p q) as Hpq
    by (unfold chain_edge; rewrite adjacent_pairs_cons; left).
  intros [->|Hx]%elem_of_cons; [by apply tc_once|].
  apply (tc_l _ _ q); [done|]. by apply chain_tc_cons, IH.
Qed.

(** A chain without repeated points has one topological order only. *)
Lemma chain_order_unique pts : ∀ l,
  NoDup pts → NoDup l → (∀ x, x ∈ l ↔ x ∈ pts) →
  topological_order (chain_edge pts) l → l = pts.
Proof.
  induction pts as [|p rest IH]; intros l Hnd Hndl Hin Htopo.
  - destruct l as [|x l]; [done|].
    destruct (Hin x) as [H _]. by apply elem_of_nil in H; [|left].
  - apply NoDup_cons in Hnd as [Hp Hnd].
    destruct l as [|x l].
    { destruct (Hin p) as [_ H]. by apply elem_of_nil in H; [|left]. }
    assert (x = p) as ->.
    { destruct (decide (x = p)) as [|Hne]; [done|].
      assert (x ∈ rest) as Hx.
      { destruct (Hin x) as [H _]. apply elem_of_cons in H as [?|?]; [done|done|left]. }
      destruct (topological_order_tc _ (x :: l) p x O Htopo (chain_reach rest p x Hx))
        as (i & Hi & _); [done|lia]. }
    apply NoDup_cons in Hndl as [Hpl Hndl]. f_equal. apply IH; [done..| |].
    + intros y. split.
      * intros Hy. destruct (Hin y) as [H _].
        apply elem_of_cons in H as [->|?]; [done|done|by right].
      * intros Hy. destruct (Hin y) as [_ H].
        apply elem_of_cons in H as [->|?]; [done|done|by right].
    + intros j n a Hj Hedge.
      destruct (Htopo (S j) n a Hj (chain_edge_cons p rest a n Hedge)) as (i & Hi & Hai).
      destruct i as [|i]; simpl in Hai.
      * injection Hai as <-.
        apply adjacent_pairs_lookup in Hedge as (k & Hk & _).
        apply list_elem_of_lookup_2 in Hk. done.
      * exists i. split; [lia|done].
Qed.
End chain_facts.

(** X13: the graph of a single cluster with at least two points, none
    repeated, has the points of the cluster as [sorted_list], in the
    cluster's own order, whatever the iteration order of sets; each point
    has its predecessor as only ancestor. *)
Theorem single_chain_sorted_list
    (order : set_order) (numpy_mean numpy_std : list Q → Q) (c : Cluster) :
  NoDup (grid_points c) → (2 ≤ length (grid_points c))%nat →
  ∃ g, Graph_init order numpy_mean numpy_std [c] = Ok g
    ∧ sorted_list g = grid_points c
    ∧ ∀ a n, a ∈ ancestors_of (graph g) n ↔ (a, n) ∈ adjacent_pairs (grid_points c).
Proof.
  intros Hnd Hlen.
  pose proof (build_clusters_unbound_node [c] init_state eq_refl) as Hb.
  assert (starts_with_single_point [c] = false) as Hs.
  { simpl. destruct (grid_points c) as [|p [|q l]]; simpl in Hlen; [lia|lia|done]. }
  rewrite Hs in Hb. destruct Hb as [st Hst].
  destruct (Graph_init_of_build order numpy_mean numpy_std _ _ Hst)
    as (g & Hg & Hgraph & _ & _ & Hsort).
  assert (∀ a n, anc_edge (graph g) a n ↔ chain_edge (grid_points c) a n) as Hedge.
  { intros a n. rewrite Hgraph, (build_clusters_edges _ _ _ a n Hst). split.
    - intros [[Ha _]|(pre & c' & post & Heq & Hp & _)].
      + by apply ancestors_closed_empty in Ha.
      + destruct pre as [|c0 pre]; simpl in Heq.
        * by injection Heq as ->.
        * injection Heq as _ Heq. by destruct pre.
    - intros Hp. right. exists [], c, []. split_and!; [done..|].
      by intros c' ?%elem_of_nil. }
  exists g. split_and!; [done| |done].
  pose proof (Graph_init_outcome order numpy_mean numpy_std [c]) as Hout.
  rewrite Hg in Hout. destruct Hout as (Hndl & Hin & _).
  destruct (build_clusters_Ok _ _ _ Hst) as (Hdom & _).
  pose proof (build_graph_edges _ _ Hst) as (Hcl & _). rewrite <- Hgraph in *.
  apply chain_order_unique; [done..| |].
  - intros x. rewrite Hin, Hdom. simpl.
    rewrite dom_empty_L, union_empty_l_L, app_nil_r. apply elem_of_list_to_set.
  - assert (topological_order (anc_edge (graph g)) (sorted_list g)) as Htopo.
    { apply (topological_sorting_ordered order); [|done..].
      apply (acyclic_subrel (chain_edge (grid_points c)));
        [intros a n; apply Hedge|by apply chain_acyclic]. }
    intros j n a Hj Ha. apply (Htopo j n a Hj). by apply Hedge.
Qed.

Lemma single_chain_sorted_list_witness :
  ∃ g, Graph_init reversed_order Qmean Qstd [cluster_ABC] = Ok g
    ∧ sorted_list g = grid_points cluster_ABC
    ∧ ∀ a n, a ∈ ancestors_of (graph g) n
             ↔ (a, n) ∈ adjacent_pairs (grid_points cluster_ABC).
Proof.
  apply (single_chain_sorted_list reversed_order Qmean Qstd cluster_ABC).
  - apply (bool_decide_unpack (NoDup (grid_points cluster_ABC))). by vm_compute.
  - simpl. lia.
Defined.

(** ** Aligned clusters on a grid of powers of two *)

Section aligned_facts.
Context (grid : CoherentWaveBurstGrid) (e0 : Z) (Hbin : binary_grid grid e0).
Implicit Types (p : GridPoint).

Lemma Qfloor_unique (x : Q) (z : Z) :
  (inject_Z z <= x)%Q → (x < inject_Z (z + 1))%Q → Qfloor x = z.
Proof.
  intros Hlo Hhi.
  pose proof (Qfloor_resp_le _ _ Hlo) as H1. rewrite Qfloor_Z in H1.
  pose proof (Qfloor_le x) as H2.
  assert (inject_Z (Qfloor x) < inject_Z (z + 1))%Q as H3
    by (by apply Qle_lt_trans with x).
  rewrite <- Zlt_Qlt in H3. lia.
Qed.

Lemma Qfloor_minus_Z (x : Q) (k : Z) : Qfloor (x - inject_Z k) = Qfloor x - k.
Proof.
  pose proof (Qfloor_le x) as Hle. pose proof (Qlt_floor x) as Hlt.
  apply Qfloor_unique.
  - unfold Z.sub. rewrite inject_Z_plus, inject_Z_opp. lra.
  - replace (Qfloor x - k + 1) with (Qfloor x + 1 + - k) by lia.
    rewrite inject_Z_plus, inject_Z_opp. lra.
Qed.

Lemma is_max_Z_elements (f : GridPoint → Z) m (l l' : list GridPoint) :
  (∀ x, x ∈ l ↔ x ∈ l') → is_max_Z m (f <$> l) → is_max_Z m (f <$> l').
Proof.
  intros Hsame [(p & -> & Hp)%list_elem_of_fmap Hmax]. split.
  - apply list_elem_of_fmap_2. by apply Hsame.
  - intros x (q & -> & Hq)%list_elem_of_fmap.
    apply Hmax, list_elem_of_fmap_2. by apply Hsame.
Qed.

(** The shift is not negative and moves no point before time zero. *)
Lemma shift_keeps_small (pts : list GridPoint) (smax : Z) p0 :
  (∀ p, p ∈ pts → in_grid grid p ∧ 0 ≤ time_index p) →
  is_max_Z smax (scale_index <$> pts) →
  p0 ∈ pts →
  (∀ p, p ∈ pts → (time_of grid p0 <= time_of grid p)%Q) →
  let sh := Qfloor (time_of grid p0 / timescale_at grid smax) in
  0 ≤ sh
  ∧ ∀ p, p ∈ pts →
      0 ≤ time_index (shift_point sh smax p) ≤ time_index p.
Proof.
  intros Hpts Hsmax Hp0 Hmin sh.
  assert (∀ p, p ∈ pts → in_grid grid p) as Hin by (intros p Hp; by apply Hpts).
  pose proof (max_scale_in_grid _ _ _ Hin Hsmax) as Hrange.
  set (T := timescale_at grid smax) in *.
  assert (0 < T)%Q as HT.
  { apply (binary_grid_positive grid e0 Hbin). by apply nth_in_range. }
  assert (∀ p, p ∈ pts →
            (time_of grid p / T
             == inject_Z (time_index p) / inject_Z (2 ^ (smax - scale_index p)))%Q
            ∧ 0 < 2 ^ (smax - scale_index p)) as Hquot.
  { intros p Hp. destruct (Hpts p Hp) as [Hg Ht]. unfold in_grid in Hg.
    assert (scale_index p ≤ smax) as Hle.
    { destruct Hsmax as [_ Hle]. apply Hle. by apply list_elem_of_fmap_2. }
    pose proof (binary_grid_dyadic grid e0 Hbin (scale_index p) smax
                  ltac:(lia) Hle ltac:(lia)) as Hdy.
    assert (0 < timescale_at grid (scale_index p))%Q as Hpos.
    { apply (binary_grid_positive grid e0 Hbin). by apply nth_in_range. }
    assert (0 < 2 ^ (smax - scale_index p)) as Hpow
      by (apply Z.pow_pos_nonneg; lia).
    assert (0 < inject_Z (2 ^ (smax - scale_index p)))%Q as HP
      by (change 0%Q with (inject_Z 0); by rewrite <- Zlt_Qlt).
    split; [|done]. unfold time_of, T. rewrite Hdy. field. split; lra. }
  assert (∀ p, p ∈ pts → sh * 2 ^ (smax - scale_index p) ≤ time_index p) as Hsh.
  { intros p Hp. destruct (Hquot p Hp) as [Hq Hpow].
    assert (0 < inject_Z (2 ^ (smax - scale_index p)))%Q as HP
      by (change 0%Q with (inject_Z 0); by rewrite <- Zlt_Qlt).
    assert (inject_Z sh <= time_of grid p / T)%Q as Hle.
    { apply Qle_trans with (time_of grid p0 / T)%Q; [apply Qfloor_le|].
      apply Qmult_le_compat_r; [by apply Hmin|].
      apply Qlt_le_weak. by apply Qinv_lt_0_compat. }
    rewrite Hq in Hle.
    apply (Qmult_le_compat_r _ _ (inject_Z (2 ^ (smax - scale_index p)))) in Hle;
      [|by apply Qlt_le_weak].
    assert (inject_Z (time_index p) / inject_Z (2 ^ (smax - scale_index p))
            * inject_Z (2 ^ (smax - scale_index p))
            == inject_Z (time_index p))%Q as Hcancel by (field; lra).
    rewrite Hcancel, <- inject_Z_mult, <- Zle_Qle in Hle. done. }
  assert (0 ≤ sh) as Hsh0.
  { destruct (Hpts p0 Hp0) as [_ Ht0]. destruct (Hquot p0 Hp0) as [Hq Hpow].
    unfold sh. rewrite (Qfloor_comp _ _ Hq), Qfloor_div by done.
    by apply Z.div_pos. }
  split; [done|]. intros p Hp. destruct (Hquot p Hp) as [_ Hpow].
  specialize (Hsh p Hp). unfold shift_point, replace_time_index. simpl. nia.
Qed.

(** The times of the shifted points *)
Lemma shifted_times (pts : list GridPoint) (smax sh : Z) :
  (∀ p, p ∈ pts → in_grid grid p) →
  is_max_Z smax (scale_index <$> pts) →
  ∀ p, p ∈ pts →
    (time_of grid (shift_point sh smax p)
     == time_of grid p - inject_Z sh * timescale_at grid smax)%Q.
Proof.
  intros Hin Hsmax p Hp.
  pose proof (max_scale_in_grid _ _ _ Hin Hsmax) as Hrange.
  apply time_of_shift_point; [by apply (binary_grid_dyadic grid e0)|by apply Hin| |lia].
  destruct Hsmax as [_ Hmax]. apply Hmax. by apply list_elem_of_fmap_2.
Qed.

(** A second shift finds the earliest time within the first period of the
    coarsest scale. *)
Lemma shift_twice (clusters : list Cluster) (smax : Z) p0 :
  (∀ p, p ∈ all_points clusters →
     in_grid grid p ∧ 0 ≤ time_index p < 2 ^ 53) →
  is_max_Z smax (scale_index <$> all_points clusters) →
  p0 ∈ all_points clusters →
  (∀ p, p ∈ all_points clusters → (time_of grid p0 <= time_of grid p)%Q) →
  let shifted :=
    shift_cluster (Qfloor (time_of grid p0 / timescale_at grid smax)) smax
      <$> clusters in
  shift_clusters_to_zero_index clusters grid = Ok shifted
  ∧ shift_clusters_to_zero_index shifted grid = Ok shifted.
Proof.
  intros Hpts Hsmax Hp0 Hmin shifted. unfold shifted.
  set (T := timescale_at grid smax). set (sh := Qfloor (time_of grid p0 / T)).
  assert (∀ p, p ∈ all_points clusters → in_grid grid p) as Hin
    by (intros p Hp; by apply Hpts).
  pose proof (max_scale_in_grid _ _ _ Hin Hsmax) as Hrange.
  assert (0 < T)%Q as HT.
  { apply (binary_grid_positive grid e0 Hbin). by apply nth_in_range. }
  destruct (shift_keeps_small (all_points clusters) smax p0) as [Hsh0 Hkeep];
    [intros p Hp; destruct (Hpts p Hp); split; [done|lia]|done..|].
  fold T sh in Hsh0, Hkeep.
  pose proof (shifted_times (all_points clusters) smax sh Hin Hsmax) as Htime.
  fold T in Htime.
  split.
  - apply (shift_exact grid e0 Hbin); [|done..].
    intros p Hp. destruct (Hpts p Hp). split; [done|lia].
  - rewrite (shift_exact grid e0 Hbin _ smax (shift_point sh smax p0)).
    + fold T.
      assert (Qfloor (time_of grid (shift_point sh smax p0) / T) = 0) as ->.
      { assert (time_of grid (shift_point sh smax p0) / T
                == time_of grid p0 / T - inject_Z sh)%Q as Hq
          by (rewrite (Htime p0 Hp0); field; lra).
        rewrite (Qfloor_comp _ _ Hq), Qfloor_minus_Z. unfold sh. lia. }
      by rewrite shift_cluster_zero.
    + intros p'. rewrite all_points_shift_cluster.
      intros (p & -> & Hp)%list_elem_of_fmap.
      destruct (Hpts p Hp) as [Hg Ht]. specialize (Hkeep p Hp).
      split; [exact Hg|lia].
    + rewrite all_points_shift_cluster, <- list_fmap_compose. exact Hsmax.
    + rewrite all_points_shift_cluster. by apply list_elem_of_fmap_2.
    + intros p'. rewrite all_points_shift_cluster.
      intros (p & -> & Hp)%list_elem_of_fmap.
      rewrite (Htime p0 Hp0), (Htime p Hp). apply Qplus_le_l. by apply Hmin.
Qed.

(** The span before and after the shift *)
Lemma span_of_aligned (pts : list GridPoint) (g g' : Graph) (smax : Z) p0 p1 :
  (∀ p, p ∈ pts → in_grid grid p ∧ 0 ≤ time_index p < 2 ^ 52) →
  is_max_Z smax (scale_index <$> pts) →
  p0 ∈ pts → (∀ p, p ∈ pts → (time_of grid p0 <= time_of grid p)%Q) →
  p1 ∈ pts → (∀ p, p ∈ pts → (time_of grid p <= time_of grid p1)%Q) →
  let sh := Qfloor (time_of grid p0 / timescale_at grid smax) in
  let s := Qfloor (time_of grid p1 / timescale_at grid smax) + 1 in
  (∀ x, x ∈ sorted_list g ↔ x ∈ pts) →
  (∀ x, x ∈ sorted_list g' ↔ x ∈ shift_point sh smax <$> pts) →
  span g grid = Ok s ∧ span g' grid = Ok (s - sh) ∧ 1 ≤ s - sh.
Proof.
  intros Hpts Hsmax Hp0 Hmin Hp1 Hmax sh s Hnodes Hnodes'. unfold s.
  set (T := timescale_at grid smax) in *.
  assert (∀ p, p ∈ pts → in_grid grid p) as Hin by (intros p Hp; by apply Hpts).
  pose proof (max_scale_in_grid _ _ _ Hin Hsmax) as Hrange.
  assert (0 < T)%Q as HT.
  { apply (binary_grid_positive grid e0 Hbin). by apply nth_in_range. }
  destruct (shift_keeps_small pts smax p0) as [Hsh0 Hkeep];
    [intros p Hp; destruct (Hpts p Hp); split; [done|lia]|done..|].
  fold T sh in Hsh0, Hkeep.
  pose proof (shifted_times pts smax sh Hin Hsmax) as Htime. fold T in Htime.
  assert (∀ t, 0 ≤ t < 2 ^ 52 → - 2 ^ 52 < t < 2 ^ 52) as Hsmall
    by (intros t; change (2 ^ 52) with 4503599627370496; lia).
  split_and!.
  - apply (span_exact grid e0 Hbin).
    + intros p Hp%Hnodes. destruct (Hpts p Hp). split; [done|by apply Hsmall].
    + by apply (is_max_Z_elements _ _ pts).
    + by apply Hnodes.
    + intros p Hp%Hnodes. by apply Hmax.
  - assert (Qfloor (time_of grid (shift_point sh smax p1) / T)
            = Qfloor (time_of grid p1 / T) - sh) as Hfl.
    { rewrite <- Qfloor_minus_Z. apply Qfloor_comp.
      rewrite (Htime p1 Hp1). field. lra. }
    replace (Qfloor (time_of grid p1 / T) + 1 - sh)
      with (Qfloor (time_of grid (shift_point sh smax p1) / T) + 1)
      by (rewrite Hfl; lia).
    apply (span_exact grid e0 Hbin).
    + intros p' (p & -> & Hp)%Hnodes'%list_elem_of_fmap.
      destruct (Hpts p Hp) as [Hg Ht]. specialize (Hkeep p Hp).
      split; [exact Hg|]. apply Hsmall. lia.
    + apply (is_max_Z_elements _ _ (shift_point sh smax <$> pts)); [done|].
      rewrite <- list_fmap_compose. exact Hsmax.
    + by apply Hnodes', list_elem_of_fmap_2.
    + intros p' (p & -> & Hp)%Hnodes'%list_elem_of_fmap.
      rewrite (Htime p Hp), (Htime p1 Hp1). apply Qplus_le_l. by apply Hmax.
  - assert (sh ≤ Qfloor (time_of grid p1 / T)); [|lia].
    apply Qfloor_resp_le. apply Qmult_le_compat_r; [by apply Hmin|].
    apply Qlt_le_weak. by apply Qinv_lt_0_compat.
Qed.
End aligned_facts.

(** X10: aligning twice is aligning once, where the doubles compute
    exactly.  On a grid built by the constructor for a sampling frequency
    [2^j] ([0 ≤ j ≤ 62], scale exponents within [0, 62]), with clusters
    whose points index the grid and have time indices in [0, 2^53), the
    clusters returned by [shift_clusters_to_zero_index] are returned
    unchanged by a second call. *)
Theorem shift_idempotent (j min_scale_exp max_scale_exp : Z)
    (grid : CoherentWaveBurstGrid) (clusters shifted : list Cluster) :
  0 ≤ j ≤ 62 → 0 ≤ min_scale_exp → max_scale_exp ≤ 62 →
  CoherentWaveBurstGrid_init (float_of_Z (2 ^ j)) min_scale_exp max_scale_exp
  = Ok grid →
  (∀ p, p ∈ all_points clusters → in_grid grid p ∧ 0 ≤ time_index p < 2 ^ 53) →
  shift_clusters_to_zero_index clusters grid = Ok shifted →
  shift_clusters_to_zero_index shifted grid = Ok shifted.
Proof.
  intros Hj Hmin Hmax Hinit Hpts Hshift.
  pose proof (Grid_init_binary _ _ _ _ Hj Hmin Hmax Hinit) as Hbin.
  destruct (shift_clusters_inv grid _ _ Hshift) as (smax & sh & Hsmax & _).
  destruct (earliest_point grid (all_points clusters)) as (p0 & Hp0 & Hmin0).
  { destruct Hsmax as [(p & _ & Hp)%list_elem_of_fmap _]. intros Hnil.
    rewrite Hnil in Hp. by apply elem_of_nil in Hp. }
  destruct (shift_twice grid _ Hbin clusters smax p0 Hpts Hsmax Hp0 Hmin0)
    as [H1 H2].
  rewrite H1 in Hshift. injection Hshift as <-. exact H2.
Qed.

Lemma shift_idempotent_witness :
  ∃ shifted,
    shift_clusters_to_zero_index [cluster_EF] dyadic_grid = Ok shifted
    ∧ shift_clusters_to_zero_index shifted dyadic_grid = Ok shifted.
Proof.
  eexists. split; [vm_compute; reflexivity|].
  apply (shift_idempotent 0 0 2 dyadic_grid [cluster_EF]).
  - lia.
  - lia.
  - lia.
  - vm_compute; reflexivity.
  - intros p Hp. cbn in Hp. change (2 ^ 53) with 9007199254740992.
    repeat (apply elem_of_cons in Hp as [->|Hp]); [| |by apply elem_of_nil in Hp];
      unfold in_grid; simpl; lia.
  - vm_compute; reflexivity.
Defined.

(** X14: aligning the clusters lowers the span by the shift, where the
    doubles compute exactly.  On a grid built by the constructor for a
    sampling frequency [2^j] ([0 ≤ j ≤ 62], scale exponents within
    [0, 62]), with clusters whose points index the grid and have time
    indices in [0, 2^52), the graph built from the shifted clusters has span
    [s - shift], where [s] is the span of the graph built from the original
    clusters and [shift] the index shift applied at the coarsest occupied
    scale; the span of the aligned graph is at least 1. *)
Theorem span_after_shift
    (order order' : set_order) (numpy_mean numpy_std : list Q → Q)
    (j min_scale_exp max_scale_exp : Z) (grid : CoherentWaveBurstGrid)
    (clusters shifted : list Cluster) (g g' : Graph) :
  0 ≤ j ≤ 62 → 0 ≤ min_scale_exp → max_scale_exp ≤ 62 →
  CoherentWaveBurstGrid_init (float_of_Z (2 ^ j)) min_scale_exp max_scale_exp
  = Ok grid →
  (∀ p, p ∈ all_points clusters → in_grid grid p ∧ 0 ≤ time_index p < 2 ^ 52) →
  shift_clusters_to_zero_index clusters grid = Ok shifted →
  Graph_init order numpy_mean numpy_std clusters = Ok g →
  Graph_init order' numpy_mean numpy_std shifted = Ok g' →
  ∃ (s shift scale_index_max : Z),
    shifted = shift_cluster shift scale_index_max <$> clusters
    ∧ span g grid = Ok s
    ∧ span g' grid = Ok (s - shift)
    ∧ 1 ≤ s - shift.
Proof.
  intros Hj Hmin Hmax Hinit Hpts Hshift Hg Hg'.
  pose proof (Grid_init_binary _ _ _ _ Hj Hmin Hmax Hinit) as Hbin.
  destruct (shift_clusters_inv grid _ _ Hshift) as (smax & sh & Hsmax & _).
  assert (all_points clusters ≠ []) as Hne.
  { destruct Hsmax as [(p & _ & Hp)%list_elem_of_fmap _]. intros Hnil.
    rewrite Hnil in Hp. by apply elem_of_nil in Hp. }
  destruct (earliest_point grid (all_points clusters) Hne) as (p0 & Hp0 & Hmin0).
  destruct (latest_point grid (all_points clusters) Hne) as (p1 & Hp1 & Hmax1).
  rewrite (shift_exact grid _ Hbin clusters smax p0) in Hshift; [|
    intros p Hp; destruct (Hpts p Hp) as [? Ht]; split; [done|];
    revert Ht; change (2 ^ 52) with 4503599627370496;
    change (2 ^ 53) with 9007199254740992; lia|done..].
  injection Hshift as <-.
  pose proof (built_nodes _ _ _ _ _ Hg) as Hnodes.
  pose proof (built_nodes _ _ _ _ _ Hg') as Hnodes'.
  eexists _, _, smax. split; [done|].
  apply (span_of_aligned grid _ Hbin (all_points clusters)); try done.
  intros x. by rewrite Hnodes', all_points_shift_cluster.
Qed.

Lemma span_after_shift_witness :
  ∃ shifted g g',
    shift_clusters_to_zero_index [cluster_EF] dyadic_grid = Ok shifted
    ∧ Graph_init elements_order Qmean Qstd [cluster_EF] = Ok g
    ∧ Graph_init elements_order Qmean Qstd shifted = Ok g'
    ∧ ∃ (s shift scale_index_max : Z),
        shifted = shift_cluster shift scale_index_max <$> [cluster_EF]
        ∧ span g dyadic_grid = Ok s
        ∧ span g' dyadic_grid = Ok (s - shift)
        ∧ 1 ≤ s - shift.
Proof.
  eexists _, _, _. split; [vm_compute; reflexivity|].
  split; [vm_compute; reflexivity|]. split; [vm_compute; reflexivity|].
  apply (span_after_shift elements_order elements_order Qmean Qstd
           0 0 2 dyadic_grid [cluster_EF]).
  - lia.
  - lia.
  - lia.
  - vm_compute; reflexivity.
  - intros p Hp. cbn in Hp. change (2 ^ 52) with 4503599627370496.
    repeat (apply elem_of_cons in Hp as [->|Hp]); [| |by apply elem_of_nil in Hp];
      unfold in_grid; simpl; lia.
  - vm_compute; reflexivity.
  - vm_compute; reflexivity.
  - vm_compute; reflexivity.
Defined.

(** X15: where the doubles compute exactly, [span] is the formula in exact
    arithmetic.  On a grid built by the constructor for a sampling
    frequency [2^j] ([0 ≤ j ≤ 62], scale exponents within [0, 62]) the time
    scale of index [i] is the number [2^(min_scale_exp + i - j)], and for a
    graph whose nodes index the grid and have time indices of magnitude
    below [2^52], [span] returns
    [floor(time_max / timescales[scale_index_max]) + 1] with the product
    [time_index * timescales[scale_index]] and the quotient taken in the
    rationals. *)
Theorem span_exact_for_binary_frequency (j min_scale_exp max_scale_exp : Z)
    (grid : CoherentWaveBurstGrid) (g : Graph)
    (scale_index_max : Z) (latest : GridPoint) :
  0 ≤ j ≤ 62 → 0 ≤ min_scale_exp → max_scale_exp ≤ 62 →
  CoherentWaveBurstGrid_init (float_of_Z (2 ^ j)) min_scale_exp max_scale_exp
  = Ok grid →
  (∀ p, p ∈ sorted_list g →
     in_grid grid p ∧ - 2 ^ 52 < time_index p < 2 ^ 52) →
  is_max_Z scale_index_max (scale_index <$> sorted_list g) →
  latest ∈ sorted_list g →
  (∀ p, p ∈ sorted_list g → (time_of grid p <= time_of grid latest)%Q) →
  (∀ i, 0 ≤ i < Z.of_nat (length (timescales grid)) →
     (timescale_at grid i == 2 ^ (min_scale_exp + i - j))%Q)
  ∧ span g grid
    = Ok (Qfloor (time_of grid latest / timescale_at grid scale_index_max) + 1).
Proof.
  intros Hj Hmin Hmax Hinit Hpts Hsmax Hlatest Hlate.
  pose proof (Grid_init_binary _ _ _ _ Hj Hmin Hmax Hinit) as Hbin.
  split.
  - intros i Hi. rewrite (timescale_at_binary grid _ Hbin) by done.
    by replace (min_scale_exp - j + i) with (min_scale_exp + i - j) by lia.
  - by apply (span_exact grid _ Hbin).
Qed.

Lemma span_exact_for_binary_frequency_witness :
  (∀ i, 0 ≤ i < Z.of_nat (length (timescales dyadic_grid)) →
     (timescale_at dyadic_grid i == 2 ^ (0 + i - 0))%Q)
  ∧ span (mkGraph ∅ ∅ ∅ [pF; pE]) dyadic_grid
    = Ok (Qfloor (time_of dyadic_grid pE / timescale_at dyadic_grid 2) + 1).
Proof.
  apply (span_exact_for_binary_frequency 0 0 2 dyadic_grid
           (mkGraph ∅ ∅ ∅ [pF; pE]) 2 pE).
  - lia.
  - lia.
  - lia.
  - vm_compute; reflexivity.
  - intros p Hp. simpl in Hp. change (2 ^ 52) with 4503599627370496.
    repeat (apply elem_of_cons in Hp as [->|Hp]); [| |by apply elem_of_nil in Hp];
      unfold in_grid; simpl; lia.
  - split; [right; left|]. intros x Hx. simpl in Hx.
    repeat (apply elem_of_cons in Hx as [->|Hx]); [..|by apply elem_of_nil in Hx];
      simpl; lia.
  - right; left.
  - intros p Hp. simpl in Hp.
    repeat (apply elem_of_cons in Hp as [->|Hp]); [| |by apply elem_of_nil in Hp];
      by vm_compute.
Defined.

(** X16: where the doubles compute exactly, the shift is the formula in
    exact arithmetic.  On a grid built by the constructor for a sampling
    frequency [2^j] ([0 ≤ j ≤ 62], scale exponents within [0, 62]), for
    clusters whose points index the grid and have time indices of
    magnitude below [2^53], [shift_clusters_to_zero_index] decreases every
    time index by [shift * 2^(scale_index_max - scale_index)] with
    [shift = floor(time_min / timescales[scale_index_max])], the product
    [time_index * timescales[scale_index]] and the quotient taken in the
    rationals. *)
Theorem shift_exact_for_binary_frequency (j min_scale_exp max_scale_exp : Z)
    (grid : CoherentWaveBurstGrid) (clusters : list Cluster)
    (scale_index_max : Z) (earliest : GridPoint) :
  0 ≤ j ≤ 62 → 0 ≤ min_scale_exp → max_scale_exp ≤ 62 →
  CoherentWaveBurstGrid_init (float_of_Z (2 ^ j)) min_scale_exp max_scale_exp
  = Ok grid →
  (∀ p, p ∈ all_points clusters →
     in_grid grid p ∧ - 2 ^ 53 < time_index p < 2 ^ 53) →
  is_max_Z scale_index_max (scale_index <$> all_points clusters) →
  earliest ∈ all_points clusters →
  (∀ p, p ∈ all_points clusters → (time_of grid earliest <= time_of grid p)%Q) →
  shift_clusters_to_zero_index clusters grid
  = Ok ((λ c,
           mkCluster
             ((λ p, mkGridPoint (scale_index p)
                      (time_index p
                       - Qfloor (time_of grid earliest
                                 / timescale_at grid scale_index_max)
                         * 2 ^ (scale_index_max - scale_index p))
                      (freq_index p)) <$> grid_points c)
             (values c) (metadata c)) <$> clusters).
Proof.
  intros Hj Hmin Hmax Hinit Hpts Hsmax Hearliest Hearly.
  pose proof (Grid_init_binary _ _ _ _ Hj Hmin Hmax Hinit) as Hbin.
  by rewrite (shift_exact grid _ Hbin clusters scale_index_max earliest).
Qed.

Lemma shift_exact_for_binary_frequency_witness :
  shift_clusters_to_zero_index [cluster_EF] dyadic_grid
  = Ok ((λ c,
           mkCluster
             ((λ p, mkGridPoint (scale_index p)
                      (time_index p
                       - Qfloor (time_of dyadic_grid pF / timescale_at dyadic_grid 2)
                         * 2 ^ (2 - scale_index p))
                      (freq_index p)) <$> grid_points c)
             (values c) (metadata c)) <$> [cluster_EF]).
Proof.
  apply (shift_exact_for_binary_frequency 0 0 2 dyadic_grid [cluster_EF] 2 pF).
  - lia.
  - lia.
  - lia.
  - vm_compute; reflexivity.
  - intros p Hp. cbn in Hp. change (2 ^ 53) with 9007199254740992.
    repeat (apply elem_of_cons in Hp as [->|Hp]); [| |by apply elem_of_nil in Hp];
      unfold in_grid; simpl; lia.
  - split; [right; left|]. intros x Hx. cbn in Hx.
    repeat (apply elem_of_cons in Hx as [->|Hx]); [..|by apply elem_of_nil in Hx];
      simpl; lia.
  - left.
  - intros p Hp. cbn in Hp.
    repeat (apply elem_of_cons in Hp as [->|Hp]); [| |by apply elem_of_nil in Hp];
      by vm_compute.
Defined.
